(** * auth0-spa-js [src/utils.ts]: a shallow embedding and its properties

    The file embeds the helper functions of [src/utils.ts] (scope
    normalisation, redirect-result parsing, query building, the PKCE string
    helpers, the base64url codec, the crypto checks, the retrying token
    exchange and the iframe / popup launchers) as Rocq functions and states
    the properties of the specification, and further properties of the
    code, over them.

    Conventions:
    - a JavaScript string is the list of its UTF-16 code units ([jsstring]);
    - a JavaScript value is a [value]; plain data objects are finite maps
      from property names to values;
    - code that can throw returns a [completion];
    - code that talks to the host (timers, listeners, the DOM, the network,
      the random source) threads the host state explicitly. *)

From Stdlib Require Import NArith ZArith Lia Ascii String.
From stdpp Require Import gmap strings list fin_maps pretty.

Set Warnings "-register-all".
#[local] Open Scope N_scope.

(** ** JavaScript data *)

Module JS.

(** UTF-16 code units. *)
Definition jsstring := list N.

(** A Rocq string literal read as a JavaScript string (one code unit per
    character; the literals of the source are all ASCII). *)
Definition js (s : string) : jsstring :=
  N_of_ascii <$> list_ascii_of_string s.
#[global] Arguments js : simpl never.

(** Numbers: the integers, and the not-a-number value. *)
Inductive number :=
| Num (z : Z)
| NaN.

Inductive error_kind := ErrorK | TypeErrorK | URIErrorK | InvalidCharacterK.

Inductive value :=
| VUndefined
| VNull
| VBool (b : bool)
| VNumber (n : number)
| VStr (s : jsstring)
| VObj (props : gmap jsstring value)
| VRef (l : nat)
| VError (k : error_kind) (message : jsstring) (props : gmap jsstring value).

(** Normal return, or a thrown value. *)
Inductive completion (A : Type) :=
| Return (a : A)
| Throw (e : value).
Arguments Return {A} a.
Arguments Throw {A} e.

Definition bind {A B} (c : completion A) (k : A -> completion B) : completion B :=
  match c with
  | Return a => k a
  | Throw e => Throw e
  end.

Notation "'let*' x ':=' c 'in' k" := (bind c (fun x => k))
  (at level 10, x name, c at level 100, k at level 200).

(** [TypeError] and [URIError] as the engine raises them; the message text is
    engine-specific and left empty. *)
Definition TypeError : value := VError TypeErrorK [] ∅.
Definition URIError : value := VError URIErrorK [] ∅.

(** [new Error(message)] *)
Definition new_Error (message : jsstring) : value := VError ErrorK message ∅.

(** ToBoolean *)
Definition truthy (v : value) : bool :=
  match v with
  | VUndefined | VNull => false
  | VBool b => b
  | VNumber (Num z) => negb (Z.eqb z 0)
  | VNumber NaN => false
  | VStr s => match s with [] => false | _ => true end
  | VObj _ | VRef _ | VError _ _ _ => true
  end.

(** [a || b] *)
Definition or_else (a b : value) : value := if truthy a then a else b.

(** Own data properties of a value that is held by value. *)
Definition own_props (v : value) : gmap jsstring value :=
  match v with
  | VObj props => props
  | VError _ message props => <[js "message" := VStr message]> props
  | _ => ∅
  end.

(** [v.k] for the property names the source reads ([type], [response],
    [error], [error_description], [json], [ok]): none of them is inherited
    from a prototype, so the read is an own-property read; reading a property
    of [undefined] or [null] throws. The values read this way are message
    payloads and response bodies, which are held by value; a reference
    ([VRef]) is an opaque handle through which the source reads nothing. *)
Definition get (v : value) (k : jsstring) : completion value :=
  match v with
  | VUndefined | VNull => Throw TypeError
  | _ => Return (default VUndefined (own_props v !! k))
  end.

(** ToString, as used by [new Error(v)] and by template literals. *)
Definition error_name (k : error_kind) : jsstring :=
  match k with
  | ErrorK => js "Error"
  | TypeErrorK => js "TypeError"
  | URIErrorK => js "URIError"
  | InvalidCharacterK => js "InvalidCharacterError"
  end.

Definition ToString (v : value) : jsstring :=
  match v with
  | VUndefined => js "undefined"
  | VNull => js "null"
  | VBool true => js "true"
  | VBool false => js "false"
  | VNumber (Num z) => js (pretty z)
  | VNumber NaN => js "NaN"
  | VStr s => s
  | VObj _ | VRef _ => js "[object Object]"
  | VError k [] _ => error_name k
  | VError k message _ => error_name k ++ js ": " ++ message
  end.

(** Own enumerable properties, as copied by a rest pattern or a spread: the
    properties of a data object, the properties added to an error object,
    the indexed characters of a string. *)
Definition own_enumerable (v : value) : gmap jsstring value :=
  match v with
  | VObj props => props
  | VError _ _ props => props
  | VStr s => list_to_map (imap (fun i c => (js (pretty i), VStr [c])) s)
  | _ => ∅
  end.

End JS.
Import JS.

(** ** createRandomString *)

Module Random.

(** The host's secure random source, as the stream of bytes it will hand
    out. *)
Definition entropy := nat -> Byte.byte.

(** [getCrypto().getRandomValues(new Uint8Array(n))] followed by
    [Array.from]: the next [n] bytes of the source, as numbers. *)
Definition getRandomValues (n : nat) (src : entropy) : list N * entropy :=
  ((fun i => Byte.to_N (src i)) <$> seq 0 n, fun i => src (n + i)%nat).

Definition charset : jsstring :=
  js "0123456789ABCDEFGHIJKLMNOPQRSTUVWXYZabcdefghijklmnopqrstuvwxyz-_~.".

(** [s[i]] converted to a string by [+=]: a one-character string, or
    ["undefined"] past the end. *)
Definition char_at_or_undefined (s : jsstring) (i : N) : jsstring :=
  match s !! N.to_nat i with
  | Some c => [c]
  | None => js "undefined"
  end.

Definition createRandomString (src : entropy) : jsstring * entropy :=
  let '(randomValues, src') := getRandomValues 43 src in
  let random :=
    fold_left
      (fun random v =>
         random ++ char_at_or_undefined charset (v mod N.of_nat (length charset)))
      randomValues [] in
  (random, src').

(** The character of the alphabet for a random value [v]. *)
Definition pick (v : N) : N := default 0 (charset !! N.to_nat (v mod 66)).

End Random.

(** ** String and array primitives of the host language *)

Module Str.

(** The characters matched by [\s] and stripped by [trim]: WhiteSpace and
    LineTerminator of ECMA-262. *)
Definition is_whitespace (c : N) : bool :=
  (c =? 9) || (c =? 10) || (c =? 11) || (c =? 12) || (c =? 13) || (c =? 32)
  || (c =? 0xA0) || (c =? 0x1680) || ((0x2000 <=? c) && (c <=? 0x200A))
  || (c =? 0x2028) || (c =? 0x2029) || (c =? 0x202F) || (c =? 0x205F)
  || (c =? 0x3000) || (c =? 0xFEFF).

Definition comma : N := 44.
Definition space : N := 32.

(** [Array.prototype.join(sep)] on an array of strings. *)
Fixpoint join (sep : jsstring) (arr : list jsstring) : jsstring :=
  match arr with
  | [] => []
  | [x] => x
  | x :: arr' => x ++ sep ++ join sep arr'
  end.

(** [String.prototype.split(sep)] for a one-character separator; the empty
    string splits into one empty string. *)
Fixpoint split (sep : N) (s : jsstring) : list jsstring :=
  match s with
  | [] => [[]]
  | c :: s' =>
    if c =? sep then [] :: split sep s'
    else match split sep s' with
         | w :: ws => (c :: w) :: ws
         | [] => [[c]]
         end
  end.

(** [s.replace(/\s/g, ',')] *)
Definition replace_whitespace (s : jsstring) : jsstring :=
  (fun c => if is_whitespace c then comma else c) <$> s.

(** [s.replace(/a/g, b)] for single characters [a] and [b]. *)
Definition replace_char (a b : N) (s : jsstring) : jsstring :=
  (fun c => if c =? a then b else c) <$> s.

Fixpoint drop_whitespace (s : jsstring) : jsstring :=
  match s with
  | c :: s' => if is_whitespace c then drop_whitespace s' else s
  | [] => []
  end.

(** [String.prototype.trim] *)
Definition trim (s : jsstring) : jsstring :=
  rev (drop_whitespace (rev (drop_whitespace s))).

(** [Array.prototype.indexOf]: the index of the first element equal to [x],
    or -1. *)
Fixpoint indexOf (arr : list jsstring) (x : jsstring) : Z :=
  match arr with
  | [] => (-1)%Z
  | y :: arr' =>
    if decide (y = x) then 0%Z
    else let r := indexOf arr' x in
         if (r <? 0)%Z then (-1)%Z else (r + 1)%Z
  end.

(** [String.prototype.indexOf] for a one-character needle. *)
Fixpoint indexOf_char (s : jsstring) (x : N) : Z :=
  match s with
  | [] => (-1)%Z
  | c :: s' =>
    if c =? x then 0%Z
    else let r := indexOf_char s' x in
         if (r <? 0)%Z then (-1)%Z else (r + 1)%Z
  end.

(** [Array.prototype.filter] with the callback receiving element and index. *)
Fixpoint filter_from {A} (f : A -> nat -> bool) (i : nat) (arr : list A) : list A :=
  match arr with
  | [] => []
  | x :: arr' =>
    if f x i then x :: filter_from f (S i) arr' else filter_from f (S i) arr'
  end.

Definition filteri {A} (f : A -> nat -> bool) (arr : list A) : list A :=
  filter_from f 0 arr.

(** Value of a digit character in radix up to 36. *)
Definition digit_value (c : N) : option N :=
  if (48 <=? c) && (c <=? 57) then Some (c - 48)
  else if (97 <=? c) && (c <=? 122) then Some (c - 87)
  else if (65 <=? c) && (c <=? 90) then Some (c - 55)
  else None.

(** The values of the longest prefix of [s] made of digits of [radix]. *)
Fixpoint digits_prefix (radix : N) (s : jsstring) : list N :=
  match s with
  | [] => []
  | c :: s' =>
    match digit_value c with
    | Some d => if d <? radix then d :: digits_prefix radix s' else []
    | None => []
    end
  end.

Definition digits_value (radix : N) (ds : list N) : N :=
  fold_left (fun acc d => acc * radix + d) ds 0.

(** [parseInt(s)] with no radix argument, on a string: leading white space is
    skipped, a sign and a [0x] prefix are honoured, the longest digit prefix
    is read and the rest is ignored; no digit at all gives NaN. The result is
    the exact integer (no rounding to a double). *)
Definition parseInt_string (s : jsstring) : number :=
  let s := drop_whitespace s in
  let '(sign, s) :=
    match s with
    | c :: s' => if c =? 45 then ((-1)%Z, s') else if c =? 43 then (1%Z, s') else (1%Z, s)
    | [] => (1%Z, [])
    end in
  let '(radix, s) :=
    match s with
    | c :: x :: s' =>
      if (c =? 48) && ((x =? 120) || (x =? 88)) then (16, s') else (10, s)
    | _ => (10, s)
    end in
  match digits_prefix radix s with
  | [] => NaN
  | ds => Num (sign * Z.of_N (digits_value radix ds))
  end.

(** [parseInt(v)] where [v] is a string or [undefined] ([None]); the
    argument is converted to a string first, [undefined] to ["undefined"]. *)
Definition parseInt (v : option jsstring) : number :=
  parseInt_string (default (js "undefined") v).

(** The numbers below [n], for finite case analyses. *)
Definition below (n : nat) : list N := N.of_nat <$> seq 0 n.

(** Splitting at every character that satisfies [p]; [split] is the case of
    one separator character. Used to state properties of the functions
    above. *)
Fixpoint pieces (p : N -> bool) (s : jsstring) : list jsstring :=
  match s with
  | [] => [[]]
  | c :: s' =>
    if p c then [] :: pieces p s'
    else match pieces p s' with
         | w :: ws => (c :: w) :: ws
         | [] => [[c]]
         end
  end.

(** A string that neither starts nor ends with white space. *)
Definition trimmed (s : jsstring) : Prop :=
  match s with c :: _ => is_whitespace c = false | [] => True end
  /\ match rev s with c :: _ => is_whitespace c = false | [] => True end.

End Str.

(** ** decodeURIComponent *)

Module URI.

Definition percent : N := 37.

Inductive token :=
| Lit (c : N)
| Octet (b : N).

Definition hex_byte (h1 h2 : N) : option N :=
  match Str.digit_value h1, Str.digit_value h2 with
  | Some a, Some b => if (a <? 16) && (b <? 16) then Some (16 * a + b) else None
  | _, _ => None
  end.

(** First pass of Decode (ECMA-262): every [%] must be followed by two
    hexadecimal digits and stands for one octet; every other code unit is
    kept. *)
Fixpoint tokens (s : jsstring) : completion (list token) :=
  match s with
  | [] => Return []
  | c :: rest =>
    if c =? percent then
      match rest with
      | h1 :: h2 :: rest' =>
        match hex_byte h1 h2 with
        | Some b => let* ts := tokens rest' in Return (Octet b :: ts)
        | None => Throw URIError
        end
      | _ => Throw URIError
      end
    else let* ts := tokens rest in Return (Lit c :: ts)
  end.

Definition is_continuation (b : N) : bool := N.land b 0xC0 =? 0x80.

(** UTF16EncodeCodePoint *)
Definition utf16 (cp : N) : jsstring :=
  if cp <? 0x10000 then [cp]
  else [0xD800 + N.shiftr (cp - 0x10000) 10; 0xDC00 + N.land (cp - 0x10000) 0x3FF].

(** Second pass of Decode: an octet below 0x80 is a character; otherwise it
    must start a well-formed UTF-8 sequence (two to four escaped octets, no
    overlong form, no surrogate, at most U+10FFFF), which is replaced by the
    code point it encodes. Anything else is a URIError. *)
Fixpoint assemble (ts : list token) : completion jsstring :=
  match ts with
  | [] => Return []
  | Lit c :: ts' => let* r := assemble ts' in Return (c :: r)
  | Octet b :: ts' =>
    if b <? 0x80 then let* r := assemble ts' in Return (b :: r)
    else if N.land b 0xE0 =? 0xC0 then
      match ts' with
      | Octet b1 :: ts'' =>
        let cp := N.lor (N.shiftl (N.land b 0x1F) 6) (N.land b1 0x3F) in
        if is_continuation b1 && (0x80 <=? cp)
        then let* r := assemble ts'' in Return (utf16 cp ++ r)
        else Throw URIError
      | _ => Throw URIError
      end
    else if N.land b 0xF0 =? 0xE0 then
      match ts' with
      | Octet b1 :: Octet b2 :: ts'' =>
        let cp := N.lor (N.shiftl (N.land b 0x0F) 12)
                    (N.lor (N.shiftl (N.land b1 0x3F) 6) (N.land b2 0x3F)) in
        if is_continuation b1 && is_continuation b2 && (0x800 <=? cp)
           && negb ((0xD800 <=? cp) && (cp <=? 0xDFFF))
        then let* r := assemble ts'' in Return (utf16 cp ++ r)
        else Throw URIError
      | _ => Throw URIError
      end
    else if N.land b 0xF8 =? 0xF0 then
      match ts' with
      | Octet b1 :: Octet b2 :: Octet b3 :: ts'' =>
        let cp := N.lor (N.shiftl (N.land b 0x07) 18)
                    (N.lor (N.shiftl (N.land b1 0x3F) 12)
                       (N.lor (N.shiftl (N.land b2 0x3F) 6) (N.land b3 0x3F))) in
        if is_continuation b1 && is_continuation b2 && is_continuation b3
           && (0x10000 <=? cp) && (cp <=? 0x10FFFF)
        then let* r := assemble ts'' in Return (utf16 cp ++ r)
        else Throw URIError
      | _ => Throw URIError
      end
    else Throw URIError
  end.

Definition decodeURIComponent_string (s : jsstring) : completion jsstring :=
  let* ts := tokens s in assemble ts.

(** [decodeURIComponent(v)] where [v] is a string or [undefined] ([None]);
    the argument is converted to a string first. *)
Definition decodeURIComponent (v : option jsstring) : completion jsstring :=
  decodeURIComponent_string (default (js "undefined") v).


(** *** Definitions used to state the properties of the decoder *)

(** The UTF-8 encoding of a code point (RFC 3629). *)
Definition utf8_encode (cp : N) : list N :=
  if cp <? 0x80 then [cp]
  else if cp <? 0x800 then
    [N.lor 0xC0 (N.shiftr cp 6); N.lor 0x80 (N.land cp 0x3F)]
  else if cp <? 0x10000 then
    [N.lor 0xE0 (N.shiftr cp 12);
     N.lor 0x80 (N.land (N.shiftr cp 6) 0x3F);
     N.lor 0x80 (N.land cp 0x3F)]
  else
    [N.lor 0xF0 (N.shiftr cp 18);
     N.lor 0x80 (N.land (N.shiftr cp 12) 0x3F);
     N.lor 0x80 (N.land (N.shiftr cp 6) 0x3F);
     N.lor 0x80 (N.land cp 0x3F)].

(** The code points a well-formed string is made of: up to U+10FFFF, the
    surrogates excluded. *)
Definition scalar_value (cp : N) : Prop :=
  cp <= 0x10FFFF /\ ~ (0xD800 <= cp /\ cp <= 0xDFFF).

(** Facts about a continuation octet carrying the six bits [x]. *)
Definition continuation_facts (x : N) : bool :=
  is_continuation (N.lor 0x80 x) && (N.land (N.lor 0x80 x) 0x3F =? x)
  && (N.lor 0x80 x <? 256).

(** Facts about the leading octets of two-, three- and four-octet
    sequences carrying the bits [y]. *)
Definition lead2_facts (y : N) : bool :=
  negb (N.lor 0xC0 y <? 0x80) && (N.land (N.lor 0xC0 y) 0xE0 =? 0xC0)
  && (N.land (N.lor 0xC0 y) 0x1F =? y) && (N.lor 0xC0 y <? 256).

Definition lead3_facts (y : N) : bool :=
  negb (N.lor 0xE0 y <? 0x80) && negb (N.land (N.lor 0xE0 y) 0xE0 =? 0xC0)
  && (N.land (N.lor 0xE0 y) 0xF0 =? 0xE0)
  && (N.land (N.lor 0xE0 y) 0x0F =? y) && (N.lor 0xE0 y <? 256).

Definition lead4_facts (y : N) : bool :=
  negb (N.lor 0xF0 y <? 0x80) && negb (N.land (N.lor 0xF0 y) 0xE0 =? 0xC0)
  && negb (N.land (N.lor 0xF0 y) 0xF0 =? 0xE0)
  && (N.land (N.lor 0xF0 y) 0xF8 =? 0xF0)
  && (N.land (N.lor 0xF0 y) 0x07 =? y) && (N.lor 0xF0 y <? 256).

(** *** encodeURIComponent *)

(** The characters [encodeURIComponent] leaves as they are: the letters,
    the digits and [-_.!~*'()]. *)
Definition unreserved (c : N) : bool :=
  ((65 <=? c) && (c <=? 90)) || ((97 <=? c) && (c <=? 122))
  || ((48 <=? c) && (c <=? 57))
  || (c =? 45) || (c =? 95) || (c =? 46) || (c =? 33) || (c =? 126)
  || (c =? 42) || (c =? 39) || (c =? 40) || (c =? 41).

Definition hex_upper (d : N) : N := if d <? 10 then 48 + d else 55 + d.

(** An octet as [%XX], with upper-case hexadecimal digits. *)
Definition escape_octet (b : N) : jsstring :=
  [percent; hex_upper (b / 16); hex_upper (b mod 16)].

Definition is_lead_surrogate (c : N) : bool := (0xD800 <=? c) && (c <=? 0xDBFF).
Definition is_trail_surrogate (c : N) : bool := (0xDC00 <=? c) && (c <=? 0xDFFF).

(** UTF16SurrogatePairToCodePoint *)
Definition surrogate_pair (lead trail : N) : N :=
  (lead - 0xD800) * 0x400 + (trail - 0xDC00) + 0x10000.

(** Encode (ECMA-262) with the unreserved set of [encodeURIComponent]: an
    unreserved code unit is kept; any other code point is replaced by the
    escapes of the octets of its UTF-8 encoding; a surrogate that is not
    part of a pair is a URIError. *)
Fixpoint encodeURIComponent_string (s : jsstring) : completion jsstring :=
  match s with
  | [] => Return []
  | c :: rest =>
    if unreserved c then
      let* r := encodeURIComponent_string rest in Return (c :: r)
    else if is_trail_surrogate c then Throw URIError
    else if is_lead_surrogate c then
      match rest with
      | c2 :: rest' =>
        if is_trail_surrogate c2 then
          let* r := encodeURIComponent_string rest' in
          Return ((utf8_encode (surrogate_pair c c2) ≫= escape_octet) ++ r)
        else Throw URIError
      | [] => Throw URIError
      end
    else
      let* r := encodeURIComponent_string rest in
      Return ((utf8_encode c ≫= escape_octet) ++ r)
  end.

(** [encodeURIComponent(v)]: the argument is converted to a string first. *)
Definition encodeURIComponent (v : value) : completion jsstring :=
  encodeURIComponent_string (ToString v).

(** The elements of a JavaScript string are 16-bit code units. *)
Definition code_units (s : jsstring) : Prop := Forall (fun c => c < 0x10000) s.


(** Facts about the escape of an octet: it reads back as the octet, and its
    three characters are a percent sign and two hexadecimal digits. *)
Definition escape_octet_facts (b : N) : bool :=
  match escape_octet b with
  | [p; h1; h2] =>
    (p =? percent)
    && match hex_byte h1 h2 with Some b' => b' =? b | None => false end
    && (unreserved h1) && (unreserved h2)
  | _ => false
  end.

End URI.

(** ** getUniqueScopes *)

Module Scopes.
Import Str.

(** [arr.filter((x, i) => arr.indexOf(x) === i)] *)
Definition dedupe (arr : list jsstring) : list jsstring :=
  filteri (fun x i => (indexOf arr x =? Z.of_nat i)%Z) arr.

(** [Boolean(s)] on a string. *)
Definition Boolean (s : jsstring) : bool :=
  match s with [] => false | _ => true end.

(** The rest parameter has type [string[]]. *)
Definition getUniqueScopes (scopes : list jsstring) : jsstring :=
  let scopeString := join [comma] (List.filter Boolean scopes) in
  trim (join [space] (dedupe (split comma (replace_whitespace scopeString)))).

(** *** Definitions used to state the properties of [getUniqueScopes] *)

(** The delimiters of a scope string: white space and the comma. *)
Definition is_delimiter (c : N) : bool := is_whitespace c || (c =? comma).

(** The tokens of a scope string: its maximal runs of characters other than
    delimiters. *)
Definition words (s : jsstring) : list jsstring :=
  List.filter Boolean (pieces is_delimiter s).

(** The elements of [l] that occur neither in [seen] nor earlier in [l], in
    the order of [l]. *)
Fixpoint keep_first (seen l : list jsstring) : list jsstring :=
  match l with
  | [] => []
  | x :: l' =>
    if bool_decide (x ∈ seen) then keep_first seen l'
    else x :: keep_first (seen ++ [x]) l'
  end.

(** De-duplication that preserves first-occurrence order. *)
Definition first_occurrences (l : list jsstring) : list jsstring :=
  keep_first [] l.

End Scopes.

(** ** parseQueryResult *)

Module Query.
Import Str.

Definition hash : N := 35.
Definition amp : N := 38.
Definition equals : N := 61.

(** [obj[k] = v] on an object literal: an own property is written, except
    for the key [__proto__], whose inherited setter ignores a string. *)
Definition set_prop (obj : gmap jsstring jsstring) (k v : jsstring)
  : gmap jsstring jsstring :=
  if decide (k = js "__proto__") then obj else <[k := v]> obj.

(** The body of the [forEach] callback. *)
Definition parse_pair (parsedQuery : gmap jsstring jsstring) (qp : jsstring)
  : completion (gmap jsstring jsstring) :=
  let parts := split equals qp in
  let key := default (js "undefined") (parts !! 0%nat) in
  let val := parts !! 1%nat in
  let* v := URI.decodeURIComponent val in
  Return (set_prop parsedQuery key v).

Fixpoint forEach (queryParams : list jsstring) (parsedQuery : gmap jsstring jsstring)
  : completion (gmap jsstring jsstring) :=
  match queryParams with
  | [] => Return parsedQuery
  | qp :: queryParams' =>
    let* parsedQuery' := parse_pair parsedQuery qp in
    forEach queryParams' parsedQuery'
  end.

(** [queryString.substr(0, queryString.indexOf('#'))] when there is a [#]. *)
Definition strip_fragment (queryString : jsstring) : jsstring :=
  if (indexOf_char queryString hash >? -1)%Z
  then take (Z.to_nat (indexOf_char queryString hash)) queryString
  else queryString.

Definition parseQueryResult (queryString : jsstring)
  : completion (gmap jsstring value) :=
  let queryString := strip_fragment queryString in
  let queryParams := split amp queryString in
  let* parsedQuery := forEach queryParams ∅ in
  Return (<[js "expires_in" := VNumber (parseInt (parsedQuery !! js "expires_in"))]>
            (VStr <$> parsedQuery)).

(** The query string made of [key=value] pairs joined by [&]. *)
Definition render (pairs : list (jsstring * jsstring)) : jsstring :=
  join [amp] ((fun kv => fst kv ++ equals :: snd kv) <$> pairs).

(** A string free of the three delimiters of a query string. *)
Definition plain (s : jsstring) : Prop :=
  (amp ∉ s) /\ (equals ∉ s) /\ (hash ∉ s).



End Query.

(** ** createQueryParams *)

Module Params.
Import Str URI.

(** [typeof v !== 'undefined'] *)
Definition defined (v : value) : bool :=
  match v with VUndefined => false | _ => true end.

(** One element of the [map]:
    [encodeURIComponent(k) + '=' + encodeURIComponent(params[k])]. *)
Definition encode_pair (kv : jsstring * value) : completion jsstring :=
  let* k := encodeURIComponent (VStr (fst kv)) in
  let* v := encodeURIComponent (snd kv) in
  Return (k ++ [Query.equals] ++ v).

(** [Array.prototype.map] with a callback that can throw. *)
Fixpoint map_throwing {A B} (f : A -> completion B) (arr : list A)
  : completion (list B) :=
  match arr with
  | [] => Return []
  | x :: arr' =>
    let* y := f x in
    let* ys := map_throwing f arr' in
    Return (y :: ys)
  end.

(** [createQueryParams(params)]; [params] is given as the list of its own
    enumerable properties, in the order of [Object.keys], each key with the
    value [params[k]]. *)
Definition createQueryParams (params : list (jsstring * value))
  : completion jsstring :=
  let keys := List.filter (fun kv => defined (snd kv)) params in
  let* parts := map_throwing encode_pair keys in
  Return (join [Query.amp] parts).

(** *** Definitions used to state the properties of [createQueryParams] *)

(** The parameters that are sent: those whose value is not [undefined], with
    the value as a string. *)
Definition sent (params : list (jsstring * value)) : list (jsstring * jsstring) :=
  (fun kv => (fst kv, ToString (snd kv)))
    <$> List.filter (fun kv => defined (snd kv)) params.

(** The characters a rendered query is made of. *)
Definition query_char (c : N) : bool :=
  unreserved c || (c =? percent) || (c =? Query.amp) || (c =? Query.equals).

End Params.

(** ** getCrypto, getCryptoSubtle, validateCrypto *)

Module Crypto.

(** The two properties of [window] the source reads: [window.crypto] and
    [window.msCrypto]. A crypto object is held by value, with its [subtle]
    and [webkitSubtle] as properties. *)
Record crypto_window := {
  crypto : value;
  msCrypto : value
}.

Definition getCrypto (win : crypto_window) : value :=
  or_else (crypto win) (msCrypto win).

(** [crypto.subtle || crypto.webkitSubtle]; reading a property of
    [undefined] or [null] throws. *)
Definition getCryptoSubtle (win : crypto_window) : completion value :=
  let crypto := getCrypto win in
  let* subtle := get crypto (js "subtle") in
  if truthy subtle then Return subtle else get crypto (js "webkitSubtle").

Definition crypto_required : jsstring :=
  js "For security reasons, `window.crypto` is required to run `auth0-spa-js`.".

(** The template literal of the second error, with its line breaks and
    indentation. *)
Definition secure_origin_required : jsstring :=
  [10] ++ js "      auth0-spa-js must run on a secure origin."
  ++ [10]
  ++ js "      See https://github.com/auth0/auth0-spa-js/blob/master/FAQ.md#why-do-i-get-auth0-spa-js-must-run-on-a-secure-origin "
  ++ [10] ++ js "      for more information."
  ++ [10] ++ js "    ".

Definition validateCrypto (win : crypto_window) : completion unit :=
  if negb (truthy (getCrypto win)) then Throw (new_Error crypto_required)
  else
    let* subtle := getCryptoSubtle win in
    match subtle with
    | VUndefined => Throw (new_Error secure_origin_required)
    | _ => Return tt
    end.

End Crypto.

(** ** The base64url codec *)

Module Base64.
Import Str.

Definition InvalidCharacterError : value := VError InvalidCharacterK [] ∅.

Definition alphabet : jsstring :=
  js "ABCDEFGHIJKLMNOPQRSTUVWXYZabcdefghijklmnopqrstuvwxyz0123456789+/".

Definition pad : N := 61.
Definition plus : N := 43.
Definition slash : N := 47.
Definition minus : N := 45.
Definition underscore : N := 95.

(** The character of a 6-bit value. *)
Definition enc (n : N) : N := nth (N.to_nat n) alphabet 0.

(** The 6-bit value of a character of the alphabet. *)
Definition dec (c : N) : option N :=
  if (65 <=? c) && (c <=? 90) then Some (c - 65)
  else if (97 <=? c) && (c <=? 122) then Some (c - 71)
  else if (48 <=? c) && (c <=? 57) then Some (c + 4)
  else if c =? plus then Some 62
  else if c =? slash then Some 63
  else None.

(** RFC 4648 section 4, with padding. *)
Fixpoint base64_encode (bs : list N) : jsstring :=
  match bs with
  | [] => []
  | [b1] =>
    [enc (N.shiftr b1 2); enc (N.shiftl (N.land b1 3) 4); pad; pad]
  | [b1; b2] =>
    [enc (N.shiftr b1 2);
     enc (N.lor (N.shiftl (N.land b1 3) 4) (N.shiftr b2 4));
     enc (N.shiftl (N.land b2 15) 2); pad]
  | b1 :: b2 :: b3 :: bs' =>
    enc (N.shiftr b1 2)
    :: enc (N.lor (N.shiftl (N.land b1 3) 4) (N.shiftr b2 4))
    :: enc (N.lor (N.shiftl (N.land b2 15) 2) (N.shiftr b3 6))
    :: enc (N.land b3 63)
    :: base64_encode bs'
  end.

(** [window.btoa]: a code unit above 0xFF is an InvalidCharacterError. *)
Definition btoa (s : jsstring) : completion jsstring :=
  if forallb (fun c => c <=? 255) s then Return (base64_encode s)
  else Throw InvalidCharacterError.

(** Groups of four 6-bit values give three octets; a final group of two
    gives one octet and a final group of three gives two (the spare low bits
    are discarded). *)
Fixpoint base64_decode (ss : list N) : list N :=
  match ss with
  | s1 :: s2 :: s3 :: s4 :: ss' =>
    N.lor (N.shiftl s1 2) (N.shiftr s2 4)
    :: N.lor (N.shiftl (N.land s2 15) 4) (N.shiftr s3 2)
    :: N.lor (N.shiftl (N.land s3 3) 6) s4
    :: base64_decode ss'
  | [s1; s2; s3] =>
    [N.lor (N.shiftl s1 2) (N.shiftr s2 4);
     N.lor (N.shiftl (N.land s2 15) 4) (N.shiftr s3 2)]
  | [s1; s2] => [N.lor (N.shiftl s1 2) (N.shiftr s2 4)]
  | _ => []
  end.

Definition is_ascii_whitespace (c : N) : bool :=
  (c =? 9) || (c =? 10) || (c =? 12) || (c =? 13) || (c =? 32).

(** One or two trailing [=] are removed. *)
Definition strip_padding (data : jsstring) : jsstring :=
  match rev data with
  | c1 :: c2 :: r =>
    if (c1 =? pad) && (c2 =? pad) then rev r
    else if c1 =? pad then rev (c2 :: r)
    else data
  | [c1] => if c1 =? pad then [] else data
  | [] => data
  end.

(** [window.atob], the forgiving-base64 decode of the HTML standard: ASCII
    white space is removed; padding is removed when the length is a multiple
    of four; a length of 1 modulo 4 or a character outside the alphabet is an
    InvalidCharacterError. *)
Definition atob (data : jsstring) : completion jsstring :=
  let data := List.filter (fun c => negb (is_ascii_whitespace c)) data in
  let data :=
    if N.of_nat (length data) mod 4 =? 0 then strip_padding data else data in
  if N.of_nat (length data) mod 4 =? 1 then Throw InvalidCharacterError
  else match mapM dec data with
       | Some ss => Return (base64_decode ss)
       | None => Throw InvalidCharacterError
       end.

Definition hex_digit (d : N) : N := if d <? 10 then 48 + d else 87 + d.

Fixpoint hex_digits (fuel : nat) (n : N) (acc : jsstring) : jsstring :=
  match fuel with
  | O => acc
  | S fuel' =>
    let acc' := hex_digit (n mod 16) :: acc in
    if n / 16 =? 0 then acc' else hex_digits fuel' (n / 16) acc'
  end.

(** [n.toString(16)]; the number of bits of [n] bounds the number of its
    hexadecimal digits. *)
Definition toString16 (n : N) : jsstring :=
  hex_digits (S (N.to_nat (N.log2 n))) n [].

(** [encode] and [decode] of the source: [btoa] and [atob]. *)
Definition encode (value : jsstring) : completion jsstring := btoa value.
Definition decode (value : jsstring) : completion jsstring := atob value.

(** [s.slice(-2)] *)
Definition slice_last2 (s : jsstring) : jsstring := drop (length s - 2) s.

(** [input.replace(/[\+\/=]/g, m => b64Chars[m])] *)
Definition urlEncodeB64 (input : jsstring) : jsstring :=
  c ← input;
  if c =? plus then [minus]
  else if c =? slash then [underscore]
  else if c =? pad then []
  else [c].

(** ['%' + ('00' + c.charCodeAt(0).toString(16)).slice(-2)] *)
Definition percent_escape (c : N) : jsstring :=
  URI.percent :: slice_last2 (js "00" ++ toString16 c).

Definition decodeB64 (input : jsstring) : completion jsstring :=
  let* bin := atob input in
  URI.decodeURIComponent (Some (mjoin (percent_escape <$> bin))).

Definition urlDecodeB64 (input : jsstring) : completion jsstring :=
  decodeB64 (replace_char minus plus (replace_char underscore slash input)).

(** [new Uint8Array(input)] is the list of the buffer's bytes;
    [String.fromCharCode(...Array.from(bytes))] is the string with one code
    unit per byte. *)
Definition bufferToBase64UrlEncoded (input : list Byte.byte) : completion jsstring :=
  let ie11SafeInput := Byte.to_N <$> input in
  let* b64 := btoa ie11SafeInput in
  Return (urlEncodeB64 b64).


(** The 6-bit values that [base64_encode] turns into characters (padding apart).
    Used to state properties of the codec. *)
Fixpoint sextets (bs : list N) : list N :=
  match bs with
  | [] => []
  | [b1] => [N.shiftr b1 2; N.shiftl (N.land b1 3) 4]
  | [b1; b2] =>
    [N.shiftr b1 2;
     N.lor (N.shiftl (N.land b1 3) 4) (N.shiftr b2 4);
     N.shiftl (N.land b2 15) 2]
  | b1 :: b2 :: b3 :: bs' =>
    N.shiftr b1 2
    :: N.lor (N.shiftl (N.land b1 3) 4) (N.shiftr b2 4)
    :: N.lor (N.shiftl (N.land b2 15) 2) (N.shiftr b3 6)
    :: N.land b3 63
    :: sextets bs'
  end.

(** Bit-level facts about one byte, checked by enumeration. *)
Definition byte_facts (b : N) : bool :=
  (N.shiftr b 2 <? 64) && (N.land b 3 <? 4) && (N.shiftr b 4 <? 16)
  && (N.land b 15 <? 16) && (N.shiftr b 6 <? 4) && (N.land b 63 <? 64)
  && (N.shiftl (N.land b 3) 4 <? 64) && (N.shiftl (N.land b 15) 2 <? 64)
  && (N.lor (N.shiftl (N.shiftr b 2) 2) (N.land b 3) =? b)
  && (N.lor (N.shiftl (N.shiftr b 4) 4) (N.land b 15) =? b)
  && (N.lor (N.shiftl (N.shiftr b 6) 6) (N.land b 63) =? b)
  && (N.shiftr (N.shiftl (N.land b 3) 4) 4 =? N.land b 3)
  && (N.shiftr (N.shiftl (N.land b 15) 2) 2 =? N.land b 15).

(** Facts about a high part [k] and a low part [y] of [lo] bits (mask
    [mask]) packed in six bits. *)
Definition pack_facts (lo mask : N) (k y : N) : bool :=
  (N.lor (N.shiftl k lo) y <? 64)
  && (N.shiftr (N.lor (N.shiftl k lo) y) lo =? k)
  && (N.land (N.lor (N.shiftl k lo) y) mask =? y).

(** Facts about the character of a 6-bit value: it decodes to the value, is
    neither white space nor padding, and survives the URL-safe
    substitution and its inverse. *)
Definition enc_facts (n : N) : bool :=
  match dec (enc n) with Some m => m =? n | None => false end
  && negb (is_ascii_whitespace (enc n))
  && negb (enc n =? pad)
  && match
       Str.replace_char minus plus
         (Str.replace_char underscore slash (urlEncodeB64 [enc n]))
     with
     | [c] => c =? enc n
     | _ => false
     end.

(** The URL-safe substitution of [urlEncodeB64] followed by the inverse
    substitution of [urlDecodeB64]. *)
Definition url_there_and_back (l : jsstring) : jsstring :=
  Str.replace_char minus plus (Str.replace_char underscore slash (urlEncodeB64 l)).




(** The characters [atob] accepts: the alphabet, the padding character and
    ASCII white space. *)
Definition atob_char (c : N) : bool :=
  match dec c with Some _ => true | None => false end
  || (c =? pad) || is_ascii_whitespace c.

End Base64.

(** ** Constants of [src/constants.ts] *)

Module Constants.

(** Modelled from the spec: [src/constants.ts] is not part of the sources;
    the spec gives "timeout-in-seconds for both authentication flows
    (default ~60s)". *)
Definition DEFAULT_AUTHORIZE_TIMEOUT_IN_SECONDS : N := 60.

(** Modelled from the spec: "retry count for token exchange (default 3)". *)
Definition DEFAULT_SILENT_TOKEN_RETRY_COUNT : nat := 3.

(** Modelled from the spec: "fetch timeout in milliseconds (default ~10s)". *)
Definition DEFAULT_FETCH_TIMEOUT_MS : N := 10000.

(** Modelled from the spec: "post-resolution iframe-removal grace delay
    (default ~2s)". *)
Definition CLEANUP_IFRAME_TIMEOUT_IN_SECONDS : N := 2.

End Constants.

(** ** The token exchange: sendMessage, switchFetch, fetchWithTimeout, getJSON *)

Module Token.
Import Constants.

(** What the environment does with one attempt, before anything else
    happens to it. *)
Inductive net_event :=
| FetchRejected (e : value)
  (** direct mode: the promise of [fetch] is rejected with [e] *)
| FetchResponse (ok : bool) (json : completion value)
  (** direct mode: a response arrives with [response.ok = ok], and
      [response.json()] resolves with a body or rejects *)
| WorkerReply (data : value)
  (** delegated mode: the worker posts [data] on the reply port *)
| TimerFires.
  (** the timeout elapses before any of the above *)

(** Calls made to the host, in order. *)
Inductive effect :=
| Fetch (url : jsstring) (opts : gmap jsstring value)
| PostMessage (worker : nat) (message : gmap jsstring value)
| SetTimeout (ms : N)
| Abort (signal : nat).

(** The host: the store of mutable objects (by location), the events the
    environment holds for the coming attempts, and the calls made so far. *)
Record host := Host {
  heap : gmap nat (gmap jsstring value);
  network : list net_event;
  trace : list effect
}.

Definition alloc (props : gmap jsstring value) (h : host) : nat * host :=
  let l := fresh (dom (heap h)) in
  (l, Host (<[l := props]> (heap h)) (network h) (trace h)).

Definition perform (ef : effect) (h : host) : host :=
  Host (heap h) (network h) (trace h ++ [ef]).

(** The event of the current attempt; with none left, nothing arrives and
    the timer fires. *)
Definition next_event (h : host) : net_event * host :=
  match network h with
  | ev :: evs => (ev, Host (heap h) evs (trace h))
  | [] => (TimerFires, h)
  end.

(** Properties of the object at a location ([{...obj}]). *)
Definition props_at (l : nat) (h : host) : gmap jsstring value :=
  default ∅ (heap h !! l).

(** [delete obj.k] *)
Definition delete_prop (l : nat) (k : jsstring) (h : host) : host :=
  Host (alter (delete k) l (heap h)) (network h) (trace h).

(** [controller.abort()] *)
Definition abort (signal : nat) (h : host) : host :=
  perform (Abort signal)
    (Host (alter (insert (js "aborted") (VBool true)) signal (heap h))
          (network h) (trace h)).

(** How a promise ends: resolved, rejected, or never settled. *)
Inductive outcome :=
| Resolved (v : value)
| Rejected (e : value)
| Pending.

(** The handler installed by [sendMessage] on the reply port, run on the
    reply [data]: a throw inside the handler leaves the promise pending. *)
Definition onmessage (data : value) : outcome :=
  match get data (js "error") with
  | Throw _ => Pending
  | Return err =>
    if truthy err then Rejected (new_Error (ToString err)) else Resolved data
  end.

(** How the promise of [sendMessage] ends for the event of the attempt. *)
Definition reply_outcome (ev : net_event) : outcome :=
  match ev with
  | WorkerReply data => onmessage data
  | _ => Pending
  end.

(** [sendMessage(message, to)]: the message is posted; the promise settles
    when the worker replies. *)
Definition sendMessage (message : gmap jsstring value) (to : nat)
    (ev : net_event) (h : host) : outcome * host :=
  (reply_outcome ev, perform (PostMessage to message) h).

(** How the direct branch of [switchFetch] ends for the event of the
    attempt: [await fetch(url, opts)], then
    [{ ok: response.ok, json: await response.json() }]. *)
Definition fetch_outcome (ev : net_event) : outcome :=
  match ev with
  | FetchRejected e => Rejected e
  | FetchResponse ok (Return body) =>
    Resolved (VObj (<[js "ok" := VBool ok]> {[js "json" := body]}))
  | FetchResponse ok (Throw e) => Rejected e
  | _ => Pending
  end.

(** [switchFetch(url, opts, timeout, worker)]; [opts] is the location of the
    options object it is given. *)
Definition switchFetch (url : jsstring) (opts : nat) (timeout : N)
    (worker : option nat) (ev : net_event) (h : host) : outcome * host :=
  match worker with
  | Some w =>
    let h := delete_prop opts (js "signal") h in
    sendMessage
      (props_at opts h
         ∪ <[js "url" := VStr url]> {[js "timeout" := VNumber (Num (Z.of_N timeout))]})
      w ev h
  | None =>
    (fetch_outcome ev, perform (Fetch url (props_at opts h)) h)
  end.

Definition timeout_message : jsstring := js "Timeout when executing 'fetch'".

(** [fetchWithTimeout(url, options, worker, timeout)]: the race of
    [switchFetch] against the timer. The request settles first unless it
    stays pending, in which case the timer fires, aborts the controller and
    rejects. *)
Definition fetchWithTimeout (url : jsstring) (options : nat)
    (worker : option nat) (timeout : option N) (h : host)
  : completion value * host :=
  let timeout := default DEFAULT_FETCH_TIMEOUT_MS timeout in
  let '(signal, h) := alloc {[js "aborted" := VBool false]} h in
  let '(fetchOptions, h) :=
    alloc (<[js "signal" := VRef signal]> (props_at options h)) h in
  let '(ev, h) := next_event h in
  let '(request, h) := switchFetch url fetchOptions timeout worker ev h in
  let h := perform (SetTimeout timeout) h in
  match request with
  | Resolved v => (Return v, h)
  | Rejected e => (Throw e, h)
  | Pending => (Throw (new_Error timeout_message), abort signal h)
  end.

(** The retry loop of [getJSON], with [n] iterations left; it returns the
    final [fetchError] and [response]. *)
Fixpoint attempts (n : nat) (url : jsstring) (timeout : option N)
    (options : nat) (worker : option nat)
    (fetchError response : value) (h : host) : value * value * host :=
  match n with
  | O => (fetchError, response, h)
  | S n' =>
    match fetchWithTimeout url options worker timeout h with
    | (Return r, h') => (VNull, r, h')
    | (Throw e, h') => attempts n' url timeout options worker e response h'
    end
  end.

Definition http_error_prefix : jsstring := js "HTTP error. Unable to fetch ".

(** The part of [getJSON] after the loop, on the final [fetchError] and
    [response]. *)
Definition interpret (url : jsstring) (fetchError response : value)
  : completion (gmap jsstring value) :=
  if truthy fetchError then Throw fetchError
  else
    let* json := get response (js "json") in
    let* error := get json (js "error") in
    let* error_description := get json (js "error_description") in
    let success :=
      delete (js "error_description") (delete (js "error") (own_enumerable json)) in
    let* ok := get response (js "ok") in
    if negb (truthy ok) then
      let errorMessage := or_else error_description (VStr (http_error_prefix ++ url)) in
      Throw (VError ErrorK (ToString errorMessage)
               (<[js "error_description" := errorMessage]>
                  {[js "error" := or_else error (VStr (js "request_error"))]}))
    else Return success.

Definition getJSON (url : jsstring) (timeout : option N) (options : nat)
    (worker : option nat) (h : host)
  : completion (gmap jsstring value) * host :=
  let '(fetchError, response, h') :=
    attempts DEFAULT_SILENT_TOKEN_RETRY_COUNT url timeout options worker
      VUndefined VUndefined h in
  (interpret url fetchError response, h').

(** *** Definitions used to state the properties of the token exchange *)

(** The result of one attempt, as a function of the event the environment
    holds for it. *)
Definition attempt_result (worker : option nat) (ev : net_event)
  : completion value :=
  match (match worker with Some _ => reply_outcome ev | None => fetch_outcome ev end) with
  | Resolved v => Return v
  | Rejected e => Throw e
  | Pending => Throw (new_Error timeout_message)
  end.

(** The event of the [i]-th coming attempt. *)
Definition event (h : host) (i : nat) : net_event := nth i (network h) TimerFires.

Definition is_request (ef : effect) : bool :=
  match ef with
  | Fetch _ _ | PostMessage _ _ => true
  | _ => false
  end.

Definition delay_of (ef : effect) : option N :=
  match ef with
  | SetTimeout ms => Some ms
  | _ => None
  end.

(** The requests sent, and the delays of the timers armed, in a trace. *)
Definition requests (tr : list effect) : list effect := List.filter is_request tr.
Definition delays (tr : list effect) : list N := omap delay_of tr.

(** The calls made to the host between the states [h] and [h']. *)
Definition calls_between (h h' : host) : list effect :=
  drop (length (trace h)) (trace h').


(** The request an attempt sends for options with the properties [props]:
    in direct mode the options with the attempt's abort signal, in delegated
    mode the message [{ url, timeout, ...opts }] without the signal. *)
Definition request_of (url : jsstring) (props : gmap jsstring value)
    (worker : option nat) (ms : N) (signal : nat) : effect :=
  match worker with
  | Some w =>
    PostMessage w
      (delete (js "signal") props
         ∪ <[js "url" := VStr url]> {[js "timeout" := VNumber (Num (Z.of_N ms))]})
  | None => Fetch url (<[js "signal" := VRef signal]> props)
  end.



(** A token request as [oauthToken] destructures it:
    [{ baseUrl, timeout, ...options }]. *)
Record TokenEndpointOptions := {
  baseUrl : jsstring;
  timeout : option N;
  options : gmap jsstring value
}.

Section OauthToken.

(** [JSON.stringify] on the request body and [window.location.origin] are
    the host's. *)
Variable JSON_stringify : gmap jsstring value -> jsstring.
Variable location_origin : jsstring.

Definition oauthToken (arg : TokenEndpointOptions) (worker : option nat)
    (h : host) : completion (gmap jsstring value) * host :=
  let body :=
    JSON_stringify (options arg ∪ {[js "redirect_uri" := VStr location_origin]}) in
  let '(opts, h) :=
    alloc (<[js "method" := VStr (js "POST")]>
             (<[js "body" := VStr body]>
                {[js "headers" :=
                    VObj {[js "Content-type" := VStr (js "application/json")]}]}))
          h in
  getJSON (baseUrl arg ++ js "/oauth/token") (timeout arg) opts worker h.

End OauthToken.

End Token.

(** ** The iframe and popup launchers: runIframe, runPopup *)

Module Auth.
Import Constants.

Record MessageEvent := {
  origin : jsstring;
  data : value;
  source : option nat
}.

(** State of a promise. *)
Inductive settle :=
| Unsettled
| Fulfilled (v : value)
| RejectedWith (e : value).

(** The closures handed to [setTimeout], with what they capture. *)
Inductive callback :=
| IframeTimeout (promise iframe : nat)
  (** [() => { rej(TIMEOUT_ERROR); removeIframe(); }] *)
| RemoveIframe (iframe : nat)
  (** [removeIframe] *)
| PopupTimeout (promise popup : nat).
  (** [() => { reject({ ...TIMEOUT_ERROR, popup }); }] *)

(** The closures handed to [addEventListener('message', ...)]. *)
Inductive listener :=
| IframeEventHandler (promise : nat) (eventOrigin : jsstring)
    (timeoutSetTimeoutId iframe : nat)
| PopupEventHandler (promise timeoutId popup : nat).

#[export] Instance listener_eq_dec : EqDecision listener.
Proof. solve_decision. Defined.

(** The browser window as the launchers see it. *)
Record window := Window {
  listeners : list listener;
  (** the [message] listeners, in registration order *)
  timers : gmap nat (N * callback);
  (** the pending timeouts: delay in milliseconds and callback, by id *)
  issued : gset nat;
  (** the timer ids handed out so far *)
  promises : gmap nat settle;
  elements : gmap nat (gmap jsstring jsstring);
  (** the created elements with their attributes *)
  body : list nat;
  (** the children of [document.body] *)
  locations : gmap nat jsstring;
  (** [location.href] of the window handles navigated so far *)
  closed : list nat;
  (** the window handles on which [close()] was called, in order *)
  errors : list value;
  (** exceptions thrown by listeners and not caught *)
  window_open : option nat
  (** what [window.open] returns: a handle, or [null] when blocked *)
}.

Definition set_listeners (f : list listener -> list listener) (w : window) :=
  Window (f (listeners w)) (timers w) (issued w) (promises w) (elements w)
    (body w) (locations w) (closed w) (errors w) (window_open w).
Definition set_timers f (w : window) :=
  Window (listeners w) (f (timers w)) (issued w) (promises w) (elements w)
    (body w) (locations w) (closed w) (errors w) (window_open w).
Definition set_issued f (w : window) :=
  Window (listeners w) (timers w) (f (issued w)) (promises w) (elements w)
    (body w) (locations w) (closed w) (errors w) (window_open w).
Definition set_promises f (w : window) :=
  Window (listeners w) (timers w) (issued w) (f (promises w)) (elements w)
    (body w) (locations w) (closed w) (errors w) (window_open w).
Definition set_elements f (w : window) :=
  Window (listeners w) (timers w) (issued w) (promises w) (f (elements w))
    (body w) (locations w) (closed w) (errors w) (window_open w).
Definition set_body f (w : window) :=
  Window (listeners w) (timers w) (issued w) (promises w) (elements w)
    (f (body w)) (locations w) (closed w) (errors w) (window_open w).
Definition set_locations f (w : window) :=
  Window (listeners w) (timers w) (issued w) (promises w) (elements w)
    (body w) (f (locations w)) (closed w) (errors w) (window_open w).
Definition set_closed f (w : window) :=
  Window (listeners w) (timers w) (issued w) (promises w) (elements w)
    (body w) (locations w) (f (closed w)) (errors w) (window_open w).
Definition set_errors f (w : window) :=
  Window (listeners w) (timers w) (issued w) (promises w) (elements w)
    (body w) (locations w) (closed w) (f (errors w)) (window_open w).

(** Object identities held by a closure. *)
Definition callback_objects (cb : callback) : gset nat :=
  match cb with
  | IframeTimeout p iframe => {[p; iframe]}
  | RemoveIframe iframe => {[iframe]}
  | PopupTimeout p popup => {[p; popup]}
  end.

Definition listener_objects (l : listener) : gset nat :=
  match l with
  | IframeEventHandler p _ _ iframe => {[p; iframe]}
  | PopupEventHandler p _ popup => {[p; popup]}
  end.

Definition listener_timers (l : listener) : gset nat :=
  match l with
  | IframeEventHandler _ _ t _ => {[t]}
  | PopupEventHandler _ t _ => {[t]}
  end.

(** Every object identity the window state holds; a new object differs from
    all of them. *)
Definition objects (w : window) : gset nat :=
  dom (promises w) ∪ dom (elements w) ∪ list_to_set (body w)
  ∪ ⋃ (listener_objects <$> listeners w)
  ∪ ⋃ ((fun t => callback_objects (snd (snd t))) <$> map_to_list (timers w)).

(** Every timer id handed out so far or held anywhere in the window state;
    [setTimeout] returns an id that differs from all of them (browsers do
    not reuse timer ids). *)
Definition timer_ids (w : window) : gset nat :=
  issued w ∪ dom (timers w) ∪ ⋃ (listener_timers <$> listeners w).

Definition TIMEOUT_ERROR : gmap jsstring value :=
  <[js "error" := VStr (js "timeout")]>
    {[js "error_description" := VStr (js "Timeout")]}.

(** [res(v)] / [rej(e)]: only the first call settles the promise. *)
Definition settle_promise (p : nat) (s : settle) (w : window) : window :=
  match promises w !! p with
  | Some Unsettled => set_promises (insert p s) w
  | _ => w
  end.

Definition setTimeout (cb : callback) (ms : N) (w : window) : nat * window :=
  let id := fresh (timer_ids w) in
  (id, set_issued (union {[id]}) (set_timers (insert id (ms, cb)) w)).

Definition clearTimeout (id : nat) (w : window) : window :=
  set_timers (delete id) w.

Definition addEventListener (l : listener) (w : window) : window :=
  set_listeners (fun ls => ls ++ [l]) w.

Definition removeEventListener (l : listener) (w : window) : window :=
  set_listeners (List.filter (fun l' => negb (bool_decide (l' = l)))) w.

(** [handle.close()] *)
Definition close (handle : nat) (w : window) : window :=
  set_closed (fun c => c ++ [handle]) w.

Definition removeIframe (iframe : nat) (w : window) : window :=
  if bool_decide (iframe ∈ body w)
  then set_body (List.filter (fun x => negb (bool_decide (x = iframe)))) w
  else w.

Definition setAttribute (el : nat) (k v : jsstring) (w : window) : window :=
  set_elements (alter (insert k v) el) w.

(** Running a timer callback. *)
Definition run_callback (cb : callback) (w : window) : window :=
  match cb with
  | IframeTimeout p iframe =>
    removeIframe iframe (settle_promise p (RejectedWith (VObj TIMEOUT_ERROR)) w)
  | RemoveIframe iframe => removeIframe iframe w
  | PopupTimeout p popup =>
    settle_promise p
      (RejectedWith (VObj (<[js "popup" := VRef popup]> TIMEOUT_ERROR))) w
  end.

(** The timer [id] fires: it leaves the pending set and its callback runs.
    A timer that was cleared (or already fired) does nothing. *)
Definition fire_timer (id : nat) (w : window) : window :=
  match timers w !! id with
  | Some (_, cb) => run_callback cb (set_timers (delete id) w)
  | None => w
  end.

(** [e.data && e.data.type === 'authorization_response'] *)
Definition tagged (d : value) : bool :=
  truthy d &&
  match get d (js "type") with
  | Return (VStr s) => bool_decide (s = js "authorization_response")
  | _ => false
  end.

(** [e.data.response] and [e.data.response.error] *)
Definition response_of (d : value) : completion (value * value) :=
  let* response := get d (js "response") in
  let* error := get response (js "error") in
  Return (response, error).

(** The body of [iframeEventHandler]; the second component is the exception
    the handler ends with, if any. *)
Definition iframeEventHandler (p : nat) (eventOrigin : jsstring)
    (timeoutSetTimeoutId iframe : nat) (e : MessageEvent) (w : window)
  : window * option value :=
  if negb (bool_decide (origin e = eventOrigin)) then (w, None)
  else if negb (tagged (data e)) then (w, None)
  else
    let w := match source e with Some s => close s w | None => w end in
    match response_of (data e) with
    | Throw ex => (w, Some ex)
    | Return (response, error) =>
      let w :=
        if truthy error then settle_promise p (RejectedWith response) w
        else settle_promise p (Fulfilled response) w in
      let w := clearTimeout timeoutSetTimeoutId w in
      let w :=
        removeEventListener
          (IframeEventHandler p eventOrigin timeoutSetTimeoutId iframe) w in
      let '(_, w) :=
        setTimeout (RemoveIframe iframe) (CLEANUP_IFRAME_TIMEOUT_IN_SECONDS * 1000) w in
      (w, None)
    end.

(** The body of the listener of [runPopup]. *)
Definition popupEventHandler (p timeoutId popup : nat) (e : MessageEvent)
    (w : window) : window * option value :=
  if negb (tagged (data e)) then (w, None)
  else
    let w := clearTimeout timeoutId w in
    let w := close popup w in
    match response_of (data e) with
    | Throw ex => (w, Some ex)
    | Return (response, error) =>
      if truthy error then (settle_promise p (RejectedWith response) w, None)
      else (settle_promise p (Fulfilled response) w, None)
    end.

Definition run_listener (l : listener) (e : MessageEvent) (w : window)
  : window * option value :=
  match l with
  | IframeEventHandler p o t iframe => iframeEventHandler p o t iframe e w
  | PopupEventHandler p t popup => popupEventHandler p t popup e w
  end.

(** One listener's turn during a dispatch: a listener removed in the
    meantime is skipped; an exception is reported and the dispatch goes
    on. *)
Definition deliver (e : MessageEvent) (w : window) (l : listener) : window :=
  if bool_decide (l ∈ listeners w) then
    match run_listener l e w with
    | (w', Some ex) => set_errors (fun er => er ++ [ex]) w'
    | (w', None) => w'
    end
  else w.

(** A [message] event reaches the window: the listeners registered at that
    moment run in registration order. *)
Definition dispatch (e : MessageEvent) (w : window) : window :=
  fold_left (deliver e) (listeners w) w.

Definition runIframe (authorizeUrl eventOrigin : jsstring)
    (timeoutInSeconds : option N) (w : window) : nat * window :=
  let timeoutInSeconds :=
    default DEFAULT_AUTHORIZE_TIMEOUT_IN_SECONDS timeoutInSeconds in
  let p := fresh (objects w) in
  let w := set_promises (insert p Unsettled) w in
  let iframe := fresh (objects w) in
  let w :=
    set_elements
      (insert iframe
         (<[js "width" := js "0"]>
            (<[js "height" := js "0"]> {[js "style.display" := js "none"]})))
      w in
  let '(timeoutSetTimeoutId, w) :=
    setTimeout (IframeTimeout p iframe) (timeoutInSeconds * 1000) w in
  let w :=
    addEventListener
      (IframeEventHandler p eventOrigin timeoutSetTimeoutId iframe) w in
  let w := set_body (fun b => b ++ [iframe]) w in
  let w := setAttribute iframe (js "src") authorizeUrl w in
  (p, w).

(** [openPopup(url)]: the handle [window.open] returns, navigated to [url],
    or [null]. The window features string has no bearing on the result. *)
Definition openPopup (url : jsstring) (w : window) : option nat * window :=
  match window_open w with
  | Some popup => (Some popup, set_locations (insert popup url) w)
  | None => (None, w)
  end.

Record PopupConfigOptions := {
  popup : option nat;
  timeoutInSeconds : option N
}.

(** [runPopup(authorizeUrl, config)]: the promise it returns, or the error
    thrown synchronously when no popup could be opened. *)
Definition runPopup (authorizeUrl : jsstring) (config : PopupConfigOptions)
    (w : window) : completion nat * window :=
  let '(popup, w) :=
    match popup config with
    | Some popup => (Some popup, set_locations (insert popup authorizeUrl) w)
    | None => openPopup authorizeUrl w
    end in
  match popup with
  | None => (Throw (new_Error (js "Could not open popup")), w)
  | Some popup =>
    let p := fresh (objects w) in
    let w := set_promises (insert p Unsettled) w in
    let seconds :=
      match timeoutInSeconds config with
      | Some 0 | None => DEFAULT_AUTHORIZE_TIMEOUT_IN_SECONDS
      | Some t => t
      end in
    let '(timeoutId, w) := setTimeout (PopupTimeout p popup) (seconds * 1000) w in
    let w := addEventListener (PopupEventHandler p timeoutId popup) w in
    (Return p, w)
  end.

(** *** Definitions used to state the properties of the launchers *)

Definition promise_of (l : listener) : nat :=
  match l with
  | IframeEventHandler p _ _ _ => p
  | PopupEventHandler p _ _ => p
  end.

Definition timer_of (l : listener) : nat :=
  match l with
  | IframeEventHandler _ _ t _ => t
  | PopupEventHandler _ t _ => t
  end.

(** The listener returns at once on the event: the origin is not the
    expected one (iframe only), or the payload is not tagged as an
    authorization response. *)
Definition ignored (l : listener) (e : MessageEvent) : Prop :=
  match l with
  | IframeEventHandler _ eventOrigin _ _ =>
    origin e <> eventOrigin \/ tagged (data e) = false
  | PopupEventHandler _ _ _ => tagged (data e) = false
  end.

(** The listener accepts the event, which carries [response] with
    [response.error = error]. *)
Definition accepted (l : listener) (e : MessageEvent) (response error : value)
  : Prop :=
  match l with
  | IframeEventHandler _ eventOrigin _ _ => origin e = eventOrigin
  | PopupEventHandler _ _ _ => True
  end
  /\ tagged (data e) = true
  /\ response_of (data e) = Return (response, error).

(** How an accepted response settles the promise. *)
Definition settlement (response error : value) : settle :=
  if truthy error then RejectedWith response else Fulfilled response.

(** The other listeners of the window belong to other attempts: they hold
    neither the promise nor the timer id of [l]. *)
Definition isolated (l : listener) (w : window) : Prop :=
  forall l', l' ∈ listeners w -> l' <> l ->
    promise_of l' <> promise_of l /\ timer_of l' <> timer_of l.

(** The attempt of listener [l] is in flight: the listener is registered,
    the promise is not settled, the timeout [t] is pending. *)
Definition in_flight (l : listener) (t : N * callback) (w : window) : Prop :=
  l ∈ listeners w
  /\ promises w !! promise_of l = Some Unsettled
  /\ timers w !! timer_of l = Some t
  /\ timer_of l ∈ issued w
  /\ isolated l w.

(** The attempt of listener [l] is over: the promise is settled with [s]
    and the timeout is no longer pending. *)
Definition finished (l : listener) (s : settle) (w : window) : Prop :=
  promises w !! promise_of l = Some s
  /\ s <> Unsettled
  /\ timers w !! timer_of l = None
  /\ timer_of l ∈ issued w
  /\ isolated l w.

(** The window after a sequence of [message] events. *)
Definition messages (es : list MessageEvent) (w : window) : window :=
  fold_left (fun w e => dispatch e w) es w.

(** A page on which nothing has happened yet; [opened] is what
    [window.open] will return. *)
Definition fresh_page (opened : option nat) : window :=
  Window [] ∅ ∅ ∅ ∅ [] ∅ [] [] opened.

(** The attempt of listener [l] can no longer end: the promise is not
    settled and the timeout is no longer pending. *)
Definition stalled (l : listener) (w : window) : Prop :=
  promises w !! promise_of l = Some Unsettled
  /\ timers w !! timer_of l = None
  /\ timer_of l ∈ issued w
  /\ isolated l w.

(** The removal of [iframe] is scheduled under the timer [id], which no
    listener of the window holds; [p] is the promise of the attempt. *)
Definition cleanup_pending (p iframe id : nat) (w : window) : Prop :=
  timers w !! id
  = Some (CLEANUP_IFRAME_TIMEOUT_IN_SECONDS * 1000, RemoveIframe iframe)
  /\ id ∈ issued w
  /\ forall x, x ∈ listeners w -> promise_of x <> p /\ timer_of x <> id.

End Auth.

(** * Properties *)

(** ** createRandomString *)

Module RandomProps.
Import Random.

Lemma charset_length : length charset = 66%nat.
Proof. reflexivity. Qed.

Lemma charset_lookup (i : N) :
  i < 66 -> exists c, charset !! N.to_nat i = Some c.
Proof.
  intros Hi. apply lookup_lt_is_Some_2. rewrite charset_length. lia.
Qed.

Lemma char_at_pick (v : N) :
  char_at_or_undefined charset (v mod N.of_nat (length charset)) = [pick v].
Proof.
  unfold char_at_or_undefined, pick. rewrite charset_length.
  change (N.of_nat 66) with 66.
  destruct (charset_lookup (v mod 66)) as [c Hc].
  - apply N.mod_upper_bound. lia.
  - by rewrite Hc.
Qed.

Lemma pick_in_charset (v : N) : pick v ∈ charset.
Proof.
  unfold pick. destruct (charset_lookup (v mod 66)) as [c Hc].
  - apply N.mod_upper_bound. lia.
  - rewrite Hc. simpl. by eapply list_elem_of_lookup_2.
Qed.

Lemma append_loop (l : list N) (acc : jsstring) :
  fold_left
    (fun random v =>
       random ++ char_at_or_undefined charset (v mod N.of_nat (length charset)))
    l acc
  = acc ++ (pick <$> l).
Proof.
  revert acc. induction l as [|v l IH]; intros acc; simpl.
  - by rewrite app_nil_r.
  - rewrite IH, char_at_pick, <- app_assoc. done.
Qed.

Lemma createRandomString_eq (src : entropy) :
  fst (createRandomString src)
  = pick <$> ((fun i => Byte.to_N (src i)) <$> seq 0 43).
Proof.
  unfold createRandomString, getRandomValues. cbv zeta. cbn [fst].
  by rewrite append_loop.
Qed.

(** C8. For every sequence of 43 random bytes handed out by the secure
    source, [createRandomString] returns exactly the 43 characters obtained
    by indexing the 66-character alphabet (digits, upper-case and lower-case
    letters, and [-_~.]) with each byte modulo 66: the output has length 43,
    every character belongs to the alphabet, and the source has advanced by
    43 bytes. *)
Theorem createRandomString_spec (src : entropy) :
  let bytes := (fun i => Byte.to_N (src i)) <$> seq 0 43 in
  let out := fst (createRandomString src) in
  out = (fun v => default 0 (charset !! N.to_nat (v mod 66))) <$> bytes
  /\ length out = 43%nat
  /\ Forall (fun c => c ∈ charset) out
  /\ (forall i, snd (createRandomString src) i = src (43 + i)%nat)
  /\ length charset = 66%nat
  /\ charset = js "0123456789" ++ js "ABCDEFGHIJKLMNOPQRSTUVWXYZ"
               ++ js "abcdefghijklmnopqrstuvwxyz" ++ js "-_~.".
Proof.
  cbv zeta. rewrite createRandomString_eq.
  split; [reflexivity|].
  split; [by rewrite !length_fmap, length_seq|].
  split; [apply Forall_fmap, Forall_forall; intros v _; apply pick_in_charset|].
  split; [intros i; reflexivity|].
  split; reflexivity.
Qed.

(** The 256 byte values do not spread evenly over the 66 characters of the
    alphabet: with [charset[v % charset.length]], each of the first 58
    characters (the digits, the upper-case letters and [a] to [v]) is picked
    by four byte values, and each of the last 8 ([w] to [z], [-], [_], [~]
    and [.]) by three. *)
Theorem createRandomString_bias (i : nat) (c : N) :
  charset !! i = Some c ->
  length
    (List.filter
       (fun v =>
          bool_decide
            (char_at_or_undefined charset (v mod N.of_nat (length charset)) = [c]))
       (Str.below 256))
  = if (i <? 58)%nat then 4%nat else 3%nat.
Proof.
  intros Hc. assert (Hi : (i < 66)%nat) by (by apply lookup_lt_Some in Hc).
  do 66 (destruct i as [|i];
         [vm_compute in Hc; injection Hc as <-; vm_compute; reflexivity|]).
  lia.
Qed.

(** The theorem at the last character of the alphabet. *)
Lemma createRandomString_bias_witness :
  length
    (List.filter
       (fun v =>
          bool_decide
            (char_at_or_undefined charset (v mod N.of_nat (length charset)) = js "."))
       (Str.below 256))
  = 3%nat.
Proof.
  apply (createRandomString_bias 65 46). reflexivity.
Defined.

End RandomProps.

(** ** Lemmas on the string primitives *)

Module StrProps.
Import Str.

Lemma split_pieces (sep : N) (s : jsstring) :
  split sep s = pieces (fun c => c =? sep) s.
Proof. induction s as [|c s IH]; simpl; [done|]. by rewrite IH. Qed.

Lemma pieces_nonempty (p : N -> bool) (s : jsstring) : pieces p s <> [].
Proof.
  induction s as [|c s IH]; simpl; [done|].
  destruct (p c); [done|]. by destruct (pieces p s).
Qed.

Lemma pieces_app_sep (p : N -> bool) (a b : jsstring) (c : N) :
  p c = true -> pieces p (a ++ c :: b) = pieces p a ++ pieces p b.
Proof.
  intros Hc. induction a as [|x a IH]; simpl.
  - by rewrite Hc.
  - destruct (p x); [by rewrite IH|].
    rewrite IH. pose proof (pieces_nonempty p a).
    by destruct (pieces p a).
Qed.

Lemma pieces_whole (p : N -> bool) (a : jsstring) :
  Forall (fun c => p c = false) a -> pieces p a = [a].
Proof.
  induction 1 as [|x a Hx _ IH]; simpl; [done|]. by rewrite Hx, IH.
Qed.

Lemma pieces_clean (p : N -> bool) (s : jsstring) :
  Forall (Forall (fun c => p c = false)) (pieces p s).
Proof.
  induction s as [|c s IH]; simpl.
  - by repeat constructor.
  - destruct (p c) eqn:Hc.
    + by constructor.
    + destruct (pieces p s) as [|w ws]; [by repeat constructor|].
      inversion IH; subst. constructor; [by constructor|done].
Qed.

Lemma pieces_join (p : N -> bool) (sep : N) (l : list jsstring) :
  p sep = true -> l <> [] ->
  Forall (Forall (fun c => p c = false)) l ->
  pieces p (join [sep] l) = l.
Proof.
  intros Hsep Hne Hl. induction Hl as [|x l Hx Hl IH]; [done|].
  destruct l as [|y l].
  - simpl. by apply pieces_whole.
  - change (join [sep] (x :: y :: l)) with (x ++ sep :: join [sep] (y :: l)).
    rewrite pieces_app_sep by done. rewrite (pieces_whole _ _ Hx).
    by rewrite IH.
Qed.

Lemma split_join (sep : N) (l : list jsstring) :
  l <> [] -> Forall (fun x => sep ∉ x) l -> split sep (join [sep] l) = l.
Proof.
  intros Hne Hl. rewrite split_pieces. apply pieces_join; [apply N.eqb_refl|done|].
  eapply Forall_impl; [exact Hl|]. intros x Hx. simpl in Hx.
  apply Forall_forall. intros c Hc. apply N.eqb_neq. intros ->. done.
Qed.

Lemma split_pair (sep : N) (k v : jsstring) :
  sep ∉ k -> sep ∉ v -> split sep (k ++ sep :: v) = [k; v].
Proof.
  intros Hk Hv. apply (split_join sep [k; v]); [done|]. by repeat constructor.
Qed.

Lemma indexOf_char_notin (s : jsstring) (x : N) :
  x ∉ s -> indexOf_char s x = (-1)%Z.
Proof.
  induction s as [|c s IH]; simpl; [done|].
  intros Hx. apply not_elem_of_cons in Hx as [Hne Hx].
  destruct (N.eqb_spec c x); [congruence|]. by rewrite IH.
Qed.


(** *** Finite case analysis *)

Lemma below_spec (n : nat) (x : N) : x < N.of_nat n -> x ∈ below n.
Proof.
  intros H. unfold below. apply list_elem_of_fmap. exists (N.to_nat x).
  split; [by rewrite N2Nat.id|]. apply elem_of_seq. lia.
Qed.

Lemma forallb_below (f : N -> bool) (n : nat) :
  forallb f (below n) = true -> forall x, x < N.of_nat n -> f x = true.
Proof.
  intros H x Hx. rewrite forallb_forall in H. apply H.
  apply list_elem_of_In. by apply below_spec.
Qed.

Lemma forallb_below2 (f : N -> N -> bool) (n m : nat) :
  forallb (fun x => forallb (f x) (below m)) (below n) = true ->
  forall x y, x < N.of_nat n -> y < N.of_nat m -> f x y = true.
Proof.
  intros H x y Hx Hy.
  apply (forallb_below (f x) m); [|done].
  by apply (forallb_below (fun x => forallb (f x) (below m)) n).
Qed.

Ltac unbool :=
  repeat match goal with
  | H : _ && _ = true |- _ => apply andb_true_iff in H as [? ?]
  | H : (_ <? _) = true |- _ => apply N.ltb_lt in H
  | H : (_ =? _) = true |- _ => apply N.eqb_eq in H
  | H : negb _ = true |- _ => apply negb_true_iff in H
  end.

End StrProps.

(** ** getUniqueScopes *)

Module ScopesProps.
Import Str Scopes StrProps.

(** *** [dedupe] keeps first occurrences *)

Lemma indexOf_first (pre suf : list jsstring) (x : jsstring) :
  x ∉ pre -> indexOf (pre ++ x :: suf) x = Z.of_nat (length pre).
Proof.
  induction pre as [|y pre IH]; intros Hx; simpl.
  - by rewrite decide_True.
  - apply not_elem_of_cons in Hx as [Hne Hx].
    rewrite decide_False by done. rewrite IH by done.
    destruct (Z.ltb_spec (Z.of_nat (length pre)) 0); lia.
Qed.

Lemma indexOf_earlier (pre suf : list jsstring) (x : jsstring) :
  x ∈ pre -> (0 <= indexOf (pre ++ suf) x < Z.of_nat (length pre))%Z.
Proof.
  induction pre as [|y pre IH]; intros Hx; [by apply elem_of_nil in Hx|].
  simpl. destruct (decide (y = x)) as [->|Hne]; [lia|].
  apply elem_of_cons in Hx as [Hx|Hx]; [congruence|].
  specialize (IH Hx). destruct (Z.ltb_spec (indexOf (pre ++ suf) x) 0); lia.
Qed.

Lemma keep_first_ext (seen1 seen2 l : list jsstring) :
  (forall x, x ∈ l -> x ∈ seen1 <-> x ∈ seen2) ->
  keep_first seen1 l = keep_first seen2 l.
Proof.
  revert seen1 seen2. induction l as [|x l IH]; intros seen1 seen2 Hext; [done|].
  cbn [keep_first].
  assert (Hx : x ∈ seen1 <-> x ∈ seen2) by (apply Hext; by left).
  destruct (decide (x ∈ seen1)) as [H1|H1].
  - rewrite !bool_decide_eq_true_2 by tauto. apply IH.
    intros y Hy. apply Hext. by right.
  - rewrite !bool_decide_eq_false_2 by tauto. f_equal. apply IH.
    intros y Hy. rewrite !elem_of_app. rewrite (Hext y) by (by right). done.
Qed.

Lemma filter_from_keep_first (arr pre suf : list jsstring) :
  arr = pre ++ suf ->
  filter_from (fun x i => (indexOf arr x =? Z.of_nat i)%Z) (length pre) suf
  = keep_first pre suf.
Proof.
  revert pre. induction suf as [|x suf IH]; intros pre Harr; [done|].
  cbn [filter_from keep_first].
  assert (Hnext : filter_from (fun x i => (indexOf arr x =? Z.of_nat i)%Z)
                    (S (length pre)) suf
                  = keep_first (pre ++ [x]) suf).
  { rewrite <- (IH (pre ++ [x])).
    - by rewrite length_app, Nat.add_1_r.
    - by rewrite <- app_assoc. }
  rewrite Hnext. destruct (decide (x ∈ pre)) as [Hin|Hout].
  - rewrite bool_decide_eq_true_2 by done.
    pose proof (indexOf_earlier pre (x :: suf) x Hin) as Hidx. rewrite <- Harr in Hidx.
    destruct (Z.eqb_spec (indexOf arr x) (Z.of_nat (length pre))); [lia|].
    apply keep_first_ext. intros y _. rewrite elem_of_app, list_elem_of_singleton.
    split; [|tauto]. intros [?| ->]; done.
  - rewrite bool_decide_eq_false_2 by done.
    rewrite Harr, indexOf_first by done. by rewrite Z.eqb_refl.
Qed.

Lemma dedupe_first_occurrences (arr : list jsstring) :
  dedupe arr = first_occurrences arr.
Proof. by apply (filter_from_keep_first arr [] arr). Qed.

Lemma keep_first_fresh (seen l : list jsstring) (x : jsstring) :
  x ∈ keep_first seen l -> x ∈ l /\ x ∉ seen.
Proof.
  revert seen. induction l as [|y l IH]; intros seen; cbn [keep_first].
  - intros H. by apply elem_of_nil in H.
  - destruct (decide (y ∈ seen)) as [Hin|Hout].
    + rewrite bool_decide_eq_true_2 by done. intros H.
      destruct (IH _ H). split; [by right|done].
    + rewrite bool_decide_eq_false_2 by done. intros H.
      apply elem_of_cons in H as [->|H]; [split; [by left|done]|].
      destruct (IH _ H) as [? Hn]. split; [by right|].
      intros ?. apply Hn. apply elem_of_app. by left.
Qed.

Lemma keep_first_NoDup (seen l : list jsstring) : NoDup (keep_first seen l).
Proof.
  revert seen. induction l as [|y l IH]; intros seen; cbn [keep_first].
  - constructor.
  - destruct (bool_decide (y ∈ seen)); [apply IH|].
    constructor; [|apply IH]. intros H. apply keep_first_fresh in H as [_ H].
    apply H, elem_of_app. right. by apply list_elem_of_singleton.
Qed.

Lemma keep_first_filter (P : jsstring -> bool) (seen l : list jsstring) :
  List.filter P (keep_first seen l) = keep_first seen (List.filter P l).
Proof.
  revert seen. induction l as [|y l IH]; intros seen; [done|].
  cbn [keep_first List.filter]. destruct (decide (y ∈ seen)) as [Hin|Hout].
  - rewrite bool_decide_eq_true_2 by done. rewrite IH.
    destruct (P y); [|done]. cbn [keep_first].
    by rewrite bool_decide_eq_true_2.
  - rewrite bool_decide_eq_false_2 by done. cbn [List.filter].
    destruct (P y) eqn:HP.
    + cbn [keep_first]. rewrite bool_decide_eq_false_2 by done. by rewrite IH.
    + rewrite IH. apply keep_first_ext. intros x Hx.
      rewrite elem_of_app, list_elem_of_singleton. split; [|tauto].
      intros [?| ->]; [done|].
      apply list_elem_of_In, filter_In in Hx as [_ Hx]. congruence.
Qed.

(** *** Tokens *)

Lemma split_replace_whitespace (s : jsstring) :
  split comma (replace_whitespace s) = pieces is_delimiter s.
Proof.
  induction s as [|c s IH]; [done|].
  unfold replace_whitespace in *. cbn [fmap list_fmap split pieces].
  fold (list_fmap N N (fun c => if is_whitespace c then comma else c) s).
  unfold is_delimiter at 1. destruct (is_whitespace c); cbn [orb].
  - rewrite N.eqb_refl. by f_equal.
  - destruct (c =? comma); by rewrite IH.
Qed.

Lemma words_nil : words [] = [].
Proof. reflexivity. Qed.

Lemma words_app_delimiter (a b : jsstring) (c : N) :
  is_delimiter c = true -> words (a ++ c :: b) = words a ++ words b.
Proof.
  intros Hc. unfold words. by rewrite pieces_app_sep, List.filter_app.
Qed.

Lemma words_cons_delimiter (s : jsstring) (c : N) :
  is_delimiter c = true -> words (c :: s) = words s.
Proof. intros Hc. exact (words_app_delimiter [] s c Hc). Qed.

Lemma words_join_comma (xs : list jsstring) :
  words (join [comma] xs) = xs ≫= words.
Proof.
  induction xs as [|x xs IH]; [done|].
  destruct xs as [|y xs].
  - cbn. by rewrite app_nil_r.
  - change (join [comma] (x :: y :: xs)) with (x ++ comma :: join [comma] (y :: xs)).
    rewrite words_app_delimiter by done. by rewrite IH.
Qed.

Lemma bind_words_filter (scopes : list jsstring) :
  List.filter Boolean scopes ≫= words = scopes ≫= words.
Proof.
  induction scopes as [|x scopes IH]; [done|].
  cbn [List.filter]. destruct x as [|c x]; cbn [Boolean].
  - by rewrite bind_cons, words_nil.
  - by rewrite !bind_cons, IH.
Qed.

Lemma whitespace_is_delimiter (c : N) :
  is_whitespace c = true -> is_delimiter c = true.
Proof. intros H. unfold is_delimiter. by rewrite H. Qed.

Lemma words_whitespace (s : jsstring) :
  Forall (fun c => is_whitespace c = true) s -> words s = [].
Proof.
  induction 1 as [|c s Hc _ IH]; [done|].
  by rewrite words_cons_delimiter by (by apply whitespace_is_delimiter).
Qed.

Lemma words_drop_whitespace (s : jsstring) : words (drop_whitespace s) = words s.
Proof.
  induction s as [|c s IH]; [done|]. cbn [drop_whitespace].
  destruct (is_whitespace c) eqn:Hc; [|done].
  rewrite IH. symmetry.
  by apply words_cons_delimiter, whitespace_is_delimiter.
Qed.

Lemma drop_whitespace_prefix (s : jsstring) :
  exists pre,
    s = pre ++ drop_whitespace s /\ Forall (fun c => is_whitespace c = true) pre.
Proof.
  induction s as [|c s (pre & Hs & Hpre)]; [by exists []|].
  cbn [drop_whitespace]. destruct (is_whitespace c) eqn:Hc.
  - exists (c :: pre). split; [cbn; by f_equal|by constructor].
  - by exists [].
Qed.

Lemma words_app_whitespace (a sfx : jsstring) :
  Forall (fun c => is_whitespace c = true) sfx -> words (a ++ sfx) = words a.
Proof.
  intros Hsfx. destruct sfx as [|c sfx]; [by rewrite app_nil_r|].
  inversion_clear Hsfx as [|? ? Hc Hrest].
  rewrite words_app_delimiter by (by apply whitespace_is_delimiter).
  by rewrite (words_whitespace sfx), app_nil_r.
Qed.

Lemma words_trim (s : jsstring) : words (trim s) = words s.
Proof.
  unfold trim. rewrite <- (words_drop_whitespace s).
  destruct (drop_whitespace_prefix (rev (drop_whitespace s))) as (pre & Hs & Hpre).
  rewrite <- (rev_involutive (drop_whitespace s)) at 2.
  rewrite Hs at 2. rewrite rev_app_distr.
  symmetry. apply words_app_whitespace. by apply Forall_rev.
Qed.

Lemma words_join_space (arr : list jsstring) :
  Forall (Forall (fun c => is_delimiter c = false)) arr ->
  words (join [space] arr) = List.filter Boolean arr.
Proof.
  intros Harr. destruct arr as [|x arr]; [done|].
  unfold words. by rewrite pieces_join.
Qed.

Lemma keep_first_Forall (P : jsstring -> Prop) (seen l : list jsstring) :
  Forall P l -> Forall P (keep_first seen l).
Proof.
  intros Hl. apply Forall_forall. intros x Hx.
  apply keep_first_fresh in Hx as [Hx _]. rewrite Forall_forall in Hl. by apply Hl.
Qed.

(** The tokens of the result are the tokens of the arguments, each kept at
    its first occurrence; no token occurs twice. (The tokens are the maximal
    runs of characters other than white space and commas; how many
    delimiters separate two tokens of the result is not part of this
    statement.) *)
Theorem getUniqueScopes_words (scopes : list jsstring) :
  words (getUniqueScopes scopes) = first_occurrences (scopes ≫= words)
  /\ NoDup (words (getUniqueScopes scopes)).
Proof.
  assert (Heq : words (getUniqueScopes scopes)
                = first_occurrences (scopes ≫= words)).
  { unfold getUniqueScopes. rewrite words_trim.
    rewrite split_replace_whitespace, dedupe_first_occurrences.
    unfold first_occurrences. rewrite words_join_space.
    - rewrite keep_first_filter. fold (words (join [comma] (List.filter Boolean scopes))).
      by rewrite words_join_comma, bind_words_filter.
    - apply keep_first_Forall, pieces_clean. }
  split; [exact Heq|]. rewrite Heq. apply keep_first_NoDup.
Qed.

(** C7. The example of the claim holds: [getUniqueScopes('a b', 'b,c')] is
    ['a b c']. The tokens are not always joined by single spaces, though: an
    empty piece between two adjacent delimiters is kept as a token, and when
    its first occurrence is inside the list it is joined like any other
    token, so that [getUniqueScopes('openid, profile')] is
    ['openid  profile'], with two spaces, and not ['openid profile']. ([trim]
    removes such a piece only at either end of the result.) *)
Theorem getUniqueScopes_double_space :
  getUniqueScopes [js "a b"; js "b,c"] = js "a b c"
  /\ getUniqueScopes [js "openid, profile"] = js "openid  profile"
  /\ getUniqueScopes [js "openid, profile"] <> js "openid profile"
  /\ getUniqueScopes [js " openid    profile  "; js " "] = js "openid profile".
Proof.
  split; [vm_compute; reflexivity|]. split; [vm_compute; reflexivity|].
  split; [vm_compute; discriminate|vm_compute; reflexivity].
Qed.

(** *** [dedupe] *)

Lemma keep_first_complete (seen l : list jsstring) (x : jsstring) :
  x ∈ l -> x ∉ seen -> x ∈ keep_first seen l.
Proof.
  revert seen. induction l as [|y l IH]; intros seen Hin Hout;
    [by apply elem_of_nil in Hin|].
  cbn [keep_first]. destruct (decide (y ∈ seen)) as [Hy|Hy].
  - rewrite bool_decide_eq_true_2 by done.
    apply elem_of_cons in Hin as [->|Hin]; [done|]. by apply IH.
  - rewrite bool_decide_eq_false_2 by done.
    destruct (decide (x = y)) as [->|Hne]; [apply elem_of_cons; by left|].
    apply elem_of_cons in Hin as [->|Hin]; [done|].
    apply elem_of_cons. right. apply IH; [done|].
    rewrite elem_of_app, list_elem_of_singleton. tauto.
Qed.

Lemma keep_first_NoDup_id (seen l : list jsstring) :
  NoDup l -> (forall x, x ∈ l -> x ∉ seen) -> keep_first seen l = l.
Proof.
  intros Hnd. revert seen. induction Hnd as [|y l Hy Hnd IH]; intros seen Hfresh;
    [done|].
  cbn [keep_first]. rewrite bool_decide_eq_false_2 by (apply Hfresh; by left).
  f_equal. apply IH. intros x Hx.
  rewrite elem_of_app, list_elem_of_singleton. intros [Hs| ->]; [|done].
  by apply (Hfresh x); [right|].
Qed.

(** [dedupe] keeps exactly the elements of the array, each once; an array
    without duplicates is left as it is, and de-duplicating twice is the
    same as once. *)
Theorem dedupe_spec (arr : list jsstring) :
  NoDup (dedupe arr)
  /\ (forall x, x ∈ dedupe arr <-> x ∈ arr)
  /\ (NoDup arr -> dedupe arr = arr)
  /\ dedupe (dedupe arr) = dedupe arr
  /\ (arr <> [] -> dedupe arr <> []).
Proof.
  rewrite !dedupe_first_occurrences. unfold first_occurrences.
  assert (Hnd : NoDup (keep_first [] arr)) by apply keep_first_NoDup.
  assert (Hid : forall l, NoDup l -> keep_first [] l = l).
  { intros l Hl. apply keep_first_NoDup_id; [done|]. intros x _. apply not_elem_of_nil. }
  split; [done|]. split.
  { intros x. split; [by intros [? _]%keep_first_fresh|].
    intros Hx. apply keep_first_complete; [done|apply not_elem_of_nil]. }
  split; [apply Hid|]. split; [by apply Hid|].
  destruct arr as [|x arr]; [done|]. intros _. cbn [keep_first].
  by rewrite bool_decide_eq_false_2 by apply not_elem_of_nil.
Qed.

(** The theorem at an array without duplicates. *)
Lemma dedupe_spec_witness :
  dedupe [js "openid"; js "profile"] = [js "openid"; js "profile"].
Proof.
  apply (proj1 (proj2 (proj2 (dedupe_spec [js "openid"; js "profile"])))).
  apply NoDup_cons. split; [|apply NoDup_singleton].
  intros H%list_elem_of_singleton. vm_compute in H. discriminate.
Defined.

(** *** [trim] *)

Lemma drop_whitespace_head (s : jsstring) :
  match drop_whitespace s with
  | c :: _ => is_whitespace c = false
  | [] => True
  end.
Proof.
  induction s as [|c s IH]; [done|]. cbn [drop_whitespace].
  by destruct (is_whitespace c) eqn:Hc.
Qed.

Lemma drop_whitespace_id (s : jsstring) :
  match s with c :: _ => is_whitespace c = false | [] => True end ->
  drop_whitespace s = s.
Proof. destruct s as [|c s]; [done|]. cbn [drop_whitespace]. by intros ->. Qed.

Lemma trimmed_trim (s : jsstring) : trimmed s -> trim s = s.
Proof.
  intros [Hhead Hlast]. unfold trim.
  rewrite (drop_whitespace_id s) by done.
  rewrite (drop_whitespace_id (rev s)) by done. apply rev_involutive.
Qed.

(** [trim] removes white space at both ends and nothing else. *)
Lemma trim_spec (s : jsstring) :
  exists pre sfx,
    s = pre ++ trim s ++ sfx
    /\ Forall (fun c => is_whitespace c = true) pre
    /\ Forall (fun c => is_whitespace c = true) sfx
    /\ trimmed (trim s).
Proof.
  unfold trim.
  destruct (drop_whitespace_prefix s) as (pre & Hs & Hpre).
  destruct (drop_whitespace_prefix (rev (drop_whitespace s))) as (pre2 & Ha & Hpre2).
  pose proof (drop_whitespace_head s) as Hhead.
  pose proof (drop_whitespace_head (rev (drop_whitespace s))) as Hlast.
  set (a := drop_whitespace s) in *.
  set (b := drop_whitespace (rev a)) in *.
  assert (Hab : a = rev b ++ rev pre2).
  { rewrite <- rev_app_distr, <- Ha. by rewrite rev_involutive. }
  exists pre, (rev pre2). split; [by rewrite <- Hab|].
  split; [done|]. split; [by apply Forall_rev|].
  split; [|by rewrite rev_involutive].
  destruct (rev b) as [|c t] eqn:Hb; [done|].
  rewrite Hab in Hhead. exact Hhead.
Qed.

Lemma trimmed_app (a b : jsstring) :
  a <> [] -> b <> [] ->
  match a with c :: _ => is_whitespace c = false | [] => True end ->
  match rev b with c :: _ => is_whitespace c = false | [] => True end ->
  trimmed (a ++ b).
Proof.
  intros Ha Hb Hhead Hlast. split.
  - by destruct a.
  - rewrite rev_app_distr. destruct (rev b) as [|c r] eqn:Hr; [|done].
    apply (f_equal (@rev N)) in Hr. rewrite rev_involutive in Hr. by subst b.
Qed.

(** *** The shape of the result *)

Lemma join_space_chars (arr : list jsstring) :
  Forall (Forall (fun c => is_delimiter c = false)) arr ->
  Forall (fun c => is_delimiter c = false \/ c = space) (join [space] arr).
Proof.
  induction 1 as [|x arr Hx Harr IH]; [constructor|].
  assert (Hx' : Forall (fun c => is_delimiter c = false \/ c = space) x).
  { eapply Forall_impl; [exact Hx|]. by left. }
  destruct arr as [|y arr]; [exact Hx'|].
  change (join [space] (x :: y :: arr)) with (x ++ space :: join [space] (y :: arr)).
  apply Forall_app. split; [done|]. constructor; [by right|done].
Qed.

Lemma dedupe_pieces (s : jsstring) :
  let ps := dedupe (split comma (replace_whitespace s)) in
  ps = first_occurrences (pieces is_delimiter s)
  /\ ps <> [] /\ NoDup ps
  /\ Forall (Forall (fun c => is_delimiter c = false)) ps.
Proof.
  cbv zeta. rewrite split_replace_whitespace, dedupe_first_occurrences.
  split; [done|]. split; [|split].
  - unfold first_occurrences. pose proof (pieces_nonempty is_delimiter s) as Hne.
    destruct (pieces is_delimiter s) as [|p ps]; [done|]. cbn [keep_first].
    by rewrite bool_decide_eq_false_2 by apply not_elem_of_nil.
  - apply keep_first_NoDup.
  - apply keep_first_Forall, pieces_clean.
Qed.

(** The result of [getUniqueScopes] holds no comma and no white space other
    than the space character, and neither starts nor ends with a space:
    trimming it again changes nothing. *)
Theorem getUniqueScopes_shape (scopes : list jsstring) :
  let r := getUniqueScopes scopes in
  (comma ∉ r)
  /\ Forall (fun c => is_whitespace c = false \/ c = space) r
  /\ trimmed r
  /\ trim r = r.
Proof.
  cbv zeta. unfold getUniqueScopes.
  set (s := join [comma] (List.filter Boolean scopes)).
  destruct (dedupe_pieces s) as (_ & _ & _ & Hclean).
  pose proof (join_space_chars _ Hclean) as Hchars.
  destruct (trim_spec (join [space] (dedupe (split comma (replace_whitespace s)))))
    as (pre & sfx & Heq & _ & _ & Htrim).
  rewrite Heq in Hchars. apply Forall_app in Hchars as [_ Hchars].
  apply Forall_app in Hchars as [Hchars _].
  split; [|split; [|split; [done|by apply trimmed_trim]]].
  - intros Hin. rewrite Forall_forall in Hchars.
    by destruct (Hchars _ Hin) as [H|H]; vm_compute in H.
  - eapply Forall_impl; [exact Hchars|]. intros c [Hc| ->]; [left|by right].
    unfold is_delimiter in Hc. by apply orb_false_iff in Hc as [-> _].
Qed.

(** *** Arguments without stray delimiters *)

Lemma pieces_join_comma (xs : list jsstring) :
  xs <> [] ->
  pieces is_delimiter (join [comma] xs) = xs ≫= pieces is_delimiter.
Proof.
  induction xs as [|x xs IH]; [done|]. intros _.
  destruct xs as [|y xs].
  - cbn. by rewrite app_nil_r.
  - change (join [comma] (x :: y :: xs)) with (x ++ comma :: join [comma] (y :: xs)).
    rewrite pieces_app_sep by done. by rewrite IH.
Qed.

Lemma join_space_trimmed (arr : list jsstring) :
  arr <> [] ->
  Forall (fun w => w <> [] /\ Forall (fun c => is_delimiter c = false) w) arr ->
  join [space] arr <> [] /\ trimmed (join [space] arr).
Proof.
  assert (Hword : forall w, w <> [] -> Forall (fun c => is_delimiter c = false) w ->
            trimmed w).
  { intros w Hne Hw. split.
    - destruct w as [|c w]; [done|]. inversion_clear Hw as [|? ? Hc _].
      unfold is_delimiter in Hc. by apply orb_false_iff in Hc as [-> _].
    - apply Forall_rev in Hw. destruct (rev w) as [|c r]; [done|].
      inversion_clear Hw as [|? ? Hc _].
      unfold is_delimiter in Hc. by apply orb_false_iff in Hc as [-> _]. }
  intros Hne Harr. induction Harr as [|x arr [Hx Hclean] Harr IH]; [done|].
  destruct arr as [|y arr]; [split; [done|by apply Hword]|].
  change (join [space] (x :: y :: arr)) with (x ++ space :: join [space] (y :: arr)).
  destruct IH as [IH1 IH2]; [done|].
  split; [by destruct x|].
  destruct (Hword x Hx Hclean) as [Hhead _]. destruct IH2 as [_ Hlast].
  apply trimmed_app; [done|done|done|].
  cbn [rev]. destruct (rev (join [space] (y :: arr))) as [|c r] eqn:Hr; [|done].
  apply (f_equal (@rev N)) in Hr. by rewrite rev_involutive in Hr.
Qed.

(** When no argument starts or ends with a delimiter or holds two delimiters
    in a row, the result is the list of the distinct tokens of the
    arguments, in the order of their first occurrence, joined by single
    spaces. *)
Theorem getUniqueScopes_single_spaces (scopes : list jsstring) :
  Forall (fun s => s = [] \/ [] ∉ pieces is_delimiter s) scopes ->
  getUniqueScopes scopes = join [space] (first_occurrences (scopes ≫= words)).
Proof.
  intros Hscopes. unfold getUniqueScopes.
  rewrite <- bind_words_filter.
  set (xs := List.filter Boolean scopes).
  assert (Hxs : Forall (fun s => [] ∉ pieces is_delimiter s) xs).
  { apply Forall_forall. intros s Hs%list_elem_of_In%filter_In. destruct Hs as [Hs Hb].
    rewrite Forall_forall in Hscopes.
    destruct (Hscopes s) as [->|H]; [by apply list_elem_of_In|done|done]. }
  destruct (dedupe_pieces (join [comma] xs)) as (-> & _ & _ & Hclean).
  destruct xs as [|x xs'] eqn:Hx; [done|]. rewrite <- Hx in *.
  assert (Hne : xs <> []) by (by rewrite Hx).
  assert (Hpieces : [] ∉ pieces is_delimiter (join [comma] xs)).
  { rewrite pieces_join_comma by done. intros Hin.
    apply list_elem_of_bind in Hin as (s & Hin & Hs).
    rewrite Forall_forall in Hxs. by apply (Hxs s). }
  assert (Hwords : xs ≫= words = pieces is_delimiter (join [comma] xs)).
  { rewrite <- words_join_comma. unfold words.
    generalize Hpieces. generalize (pieces is_delimiter (join [comma] xs)).
    induction l as [|p l IH]; [done|]. intros Hl. apply not_elem_of_cons in Hl as [Hp Hl].
    cbn [List.filter]. destruct p as [|c p]; [done|]. cbn [Boolean]. by rewrite IH. }
  rewrite Hwords. apply trimmed_trim, join_space_trimmed.
  - unfold first_occurrences.
    pose proof (pieces_nonempty is_delimiter (join [comma] xs)) as Hp.
    destruct (pieces is_delimiter (join [comma] xs)) as [|p ps]; [done|].
    cbn [keep_first]. by rewrite bool_decide_eq_false_2 by apply not_elem_of_nil.
  - apply Forall_forall. intros w Hw. split.
    + intros ->. by apply keep_first_fresh in Hw as [Hw _].
    + rewrite Forall_forall in Hclean. by apply Hclean.
Qed.

(** The theorem at [getUniqueScopes('openid profile', 'profile,email')]. *)
Lemma getUniqueScopes_single_spaces_witness :
  getUniqueScopes [js "openid profile"; js ""; js "profile,email"]
  = js "openid profile email".
Proof.
  rewrite (getUniqueScopes_single_spaces
             [js "openid profile"; js ""; js "profile,email"]).
  - vm_compute. reflexivity.
  - assert (Hclean : forall s : string,
              bool_decide ([] ∈ pieces is_delimiter (js s)) = false ->
              js s = [] \/ [] ∉ pieces is_delimiter (js s)).
    { intros s Hs. right. by apply bool_decide_eq_false_1 in Hs. }
    constructor; [by apply Hclean|]. constructor; [by left|].
    constructor; [by apply Hclean|]. constructor.
Defined.

(** *** Normalising twice *)

Lemma pieces_whitespace (s : jsstring) :
  Forall (fun c => is_whitespace c = true) s ->
  pieces is_delimiter s = replicate (S (length s)) [].
Proof.
  induction 1 as [|c s Hc _ IH]; [done|].
  cbn [pieces]. rewrite (whitespace_is_delimiter c Hc), IH. done.
Qed.

Lemma pieces_cons_whitespace (pre s : jsstring) :
  Forall (fun c => is_whitespace c = true) pre ->
  pieces is_delimiter (pre ++ s)
  = replicate (length pre) [] ++ pieces is_delimiter s.
Proof.
  induction 1 as [|c pre Hc _ IH]; [done|].
  cbn [app pieces]. rewrite (whitespace_is_delimiter c Hc), IH. done.
Qed.

Lemma pieces_app_whitespace (s sfx : jsstring) :
  Forall (fun c => is_whitespace c = true) sfx ->
  pieces is_delimiter (s ++ sfx)
  = pieces is_delimiter s ++ replicate (length sfx) [].
Proof.
  intros Hsfx. destruct Hsfx as [|c sfx Hc Hsfx]; [by rewrite !app_nil_r|].
  rewrite pieces_app_sep by (by apply whitespace_is_delimiter).
  rewrite (pieces_whitespace sfx) by done. reflexivity.
Qed.

Lemma join_pieces (s : jsstring) :
  Forall (fun c => is_delimiter c = false \/ c = space) s ->
  join [space] (pieces is_delimiter s) = s.
Proof.
  induction 1 as [|c s Hc _ IH]; [done|]. cbn [pieces].
  pose proof (pieces_nonempty is_delimiter s) as Hne.
  destruct (is_delimiter c) eqn:Hd.
  - destruct Hc as [Hc| ->]; [done|].
    destruct (pieces is_delimiter s) as [|w ws]; [done|].
    change (join [space] ([] :: w :: ws)) with (space :: join [space] (w :: ws)).
    by rewrite IH.
  - destruct (pieces is_delimiter s) as [|w ws]; [done|].
    rewrite <- IH. by destruct ws.
Qed.

(** Normalising a normalised scope string changes nothing. *)
Theorem getUniqueScopes_idempotent (scopes : list jsstring) :
  getUniqueScopes [getUniqueScopes scopes] = getUniqueScopes scopes.
Proof.
  set (r := getUniqueScopes scopes).
  assert (Hr : Forall (fun c => is_delimiter c = false \/ c = space) r
               /\ trim r = r /\ NoDup (pieces is_delimiter r)).
  { unfold r, getUniqueScopes.
    set (s := join [comma] (List.filter Boolean scopes)).
    destruct (dedupe_pieces s) as (_ & Hne & Hnd & Hclean).
    set (ps := dedupe (split comma (replace_whitespace s))) in *.
    pose proof (join_space_chars _ Hclean) as Hchars.
    assert (Hps : pieces is_delimiter (join [space] ps) = ps)
      by (by apply pieces_join).
    destruct (trim_spec (join [space] ps)) as (pre & sfx & Heq & Hpre & Hsfx & Htrim).
    rewrite Heq in Hchars. apply Forall_app in Hchars as [_ Hchars].
    apply Forall_app in Hchars as [Hchars _].
    split; [done|]. split; [by apply trimmed_trim|].
    rewrite Heq, pieces_cons_whitespace, pieces_app_whitespace in Hps by done.
    rewrite <- Hps in Hnd. apply NoDup_app in Hnd as (_ & _ & Hnd).
    by apply NoDup_app in Hnd as (Hnd & _). }
  destruct Hr as (Hchars & Htrim & Hnd).
  destruct r as [|c r'] eqn:Heq; [done|]. rewrite <- Heq in *.
  unfold getUniqueScopes at 1.
  assert (Hfilter : List.filter Boolean [r] = [r]) by (by rewrite Heq).
  rewrite Hfilter. cbn [join].
  destruct (dedupe_pieces r) as (-> & _).
  unfold first_occurrences. rewrite keep_first_NoDup_id; [|done|].
  - by rewrite join_pieces.
  - intros x _. apply not_elem_of_nil.
Qed.

End ScopesProps.

(** ** parseQueryResult *)

Module QueryProps.
Import Str URI Query StrProps.


Lemma strip_fragment_none (q : jsstring) :
  hash ∉ q -> strip_fragment q = q.
Proof. intros H. unfold strip_fragment. by rewrite indexOf_char_notin. Qed.


Lemma not_in_join (c sep : N) (l : list jsstring) :
  c <> sep -> Forall (fun x => c ∉ x) l -> c ∉ join [sep] l.
Proof.
  intros Hne. induction 1 as [|x l Hx Hl IH]; [by apply not_elem_of_nil|].
  destruct l as [|y l]; [done|].
  change (join [sep] (x :: y :: l)) with (x ++ sep :: join [sep] (y :: l)).
  rewrite elem_of_app, elem_of_cons. intros [H|[H|H]]; [by apply Hx|by apply Hne|].
  by apply IH.
Qed.




End QueryProps.

(** ** decodeURIComponent and UTF-8 *)

Module URIProps.
Import Str URI StrProps.

Lemma continuation_facts_ok (x : N) : x < 64 -> continuation_facts x = true.
Proof. apply (forallb_below continuation_facts 64). vm_compute. reflexivity. Qed.

Lemma lead2_facts_ok (y : N) : y < 32 -> lead2_facts y = true.
Proof. apply (forallb_below lead2_facts 32). vm_compute. reflexivity. Qed.

Lemma lead3_facts_ok (y : N) : y < 16 -> lead3_facts y = true.
Proof. apply (forallb_below lead3_facts 16). vm_compute. reflexivity. Qed.

Lemma lead4_facts_ok (y : N) : y < 8 -> lead4_facts y = true.
Proof. apply (forallb_below lead4_facts 8). vm_compute. reflexivity. Qed.

(** A number is its high part shifted back, or-ed with its low bits. *)
Lemma split_bits (a n : N) :
  N.lor (N.shiftl (N.shiftr a n) n) (N.land a (N.ones n)) = a.
Proof.
  apply N.bits_inj. intros i. rewrite N.lor_spec, N.land_spec.
  destruct (N.ltb_spec i n) as [Hlt|Hge].
  - rewrite N.shiftl_spec_low, N.ones_spec_low by done.
    by rewrite andb_true_r.
  - rewrite N.shiftl_spec_high', N.shiftr_spec', N.ones_spec_high by done.
    rewrite andb_false_r, orb_false_r. f_equal. lia.
Qed.

Lemma low6 (a : N) : N.land a 0x3F < 64.
Proof.
  change 0x3F with (N.ones 6). rewrite N.land_ones.
  apply N.mod_upper_bound. done.
Qed.

Lemma shiftr_bound (a n k : N) : a < 2 ^ (n + k) -> N.shiftr a n < 2 ^ k.
Proof.
  intros Ha. rewrite N.shiftr_div_pow2.
  apply N.Div0.div_lt_upper_bound. by rewrite <- N.pow_add_r.
Qed.

Lemma join2 (cp : N) :
  N.lor (N.shiftl (N.shiftr cp 6) 6) (N.land cp 0x3F) = cp.
Proof. exact (split_bits cp 6). Qed.

Lemma join3 (cp : N) :
  N.lor (N.shiftl (N.shiftr cp 12) 12)
    (N.lor (N.shiftl (N.land (N.shiftr cp 6) 0x3F) 6) (N.land cp 0x3F)) = cp.
Proof.
  rewrite N.lor_assoc.
  change 12 with (6 + 6) at 2. rewrite <- N.shiftl_shiftl, <- N.shiftl_lor.
  change 12 with (6 + 6). rewrite <- N.shiftr_shiftr.
  rewrite (join2 (N.shiftr cp 6)). apply join2.
Qed.

Lemma join4 (cp : N) :
  N.lor (N.shiftl (N.shiftr cp 18) 18)
    (N.lor (N.shiftl (N.land (N.shiftr cp 12) 0x3F) 12)
       (N.lor (N.shiftl (N.land (N.shiftr cp 6) 0x3F) 6) (N.land cp 0x3F))) = cp.
Proof.
  rewrite N.lor_assoc.
  change 18 with (6 + 12) at 2. rewrite <- N.shiftl_shiftl, <- N.shiftl_lor.
  change 18 with (12 + 6). rewrite <- N.shiftr_shiftr.
  rewrite (join2 (N.shiftr cp 12)). apply join3.
Qed.

Ltac octet_facts lemma y :=
  let H := fresh "Hfacts" in
  assert (H := lemma y);
  match type of H with
  | ?P -> _ => let Hp := fresh in assert (Hp : P); [|specialize (H Hp); clear Hp]
  end;
  [|unfold continuation_facts, lead2_facts, lead3_facts, lead4_facts in H;
    repeat match goal with
    | H : _ && _ = true |- _ => apply andb_true_iff in H as [? ?]
    | H : negb _ = true |- _ => apply negb_true_iff in H
    end].

Ltac use_facts :=
  repeat match goal with H : _ = _ |- _ => rewrite H end;
  repeat match goal with
  | H : (_ =? _) = true |- _ => apply N.eqb_eq in H; rewrite ?H
  end.



End URIProps.

(** ** The base64url codec *)

Module Base64Props.
Import Str URI Base64 StrProps.

Lemma byte_facts_ok (b : N) : b < 256 -> byte_facts b = true.
Proof. apply (forallb_below byte_facts 256). vm_compute. reflexivity. Qed.

Lemma pack_facts_4 (k y : N) : k < 4 -> y < 16 -> pack_facts 4 15 k y = true.
Proof. apply (forallb_below2 (pack_facts 4 15) 4 16). vm_compute. reflexivity. Qed.

Lemma pack_facts_2 (k y : N) : k < 16 -> y < 4 -> pack_facts 2 3 k y = true.
Proof. apply (forallb_below2 (pack_facts 2 3) 16 4). vm_compute. reflexivity. Qed.

Lemma enc_facts_ok (n : N) : n < 64 -> enc_facts n = true.
Proof. apply (forallb_below enc_facts 64). vm_compute. reflexivity. Qed.


Ltac byte_facts b :=
  let H := fresh "Hfacts" in
  match goal with
  | Hb : b < 256 |- _ =>
    pose proof (byte_facts_ok b Hb) as H; unfold byte_facts in H; unbool
  end.

(** *** Induction three bytes at a time *)

Lemma list_ind3 {A} (P : list A -> Prop) :
  P [] -> (forall a, P [a]) -> (forall a b, P [a; b]) ->
  (forall a b c l, P l -> P (a :: b :: c :: l)) ->
  forall l, P l.
Proof.
  intros H0 H1 H2 H3 l.
  enough (P l /\ (forall a, P (a :: l)) /\ (forall a b, P (a :: b :: l))) by tauto.
  induction l as [|x l (IH0 & IH1 & IH2)]; [by auto|].
  split; [apply IH1|]. split; [intros a; apply IH2|]. intros a b. by apply H3.
Qed.

(** *** Encoding and decoding of 6-bit values *)

Lemma sextets_bounded (bs : list N) :
  Forall (fun b => b < 256) bs -> Forall (fun s => s < 64) (sextets bs).
Proof.
  induction bs as [|b1|b1 b2|b1 b2 b3 bs IH] using list_ind3; intros Hbs.
  - constructor.
  - inversion_clear Hbs. byte_facts b1. simpl. by repeat constructor.
  - inversion_clear Hbs as [|? ? ? Hbs']. inversion_clear Hbs'.
    byte_facts b1. byte_facts b2.
    pose proof (pack_facts_4 (N.land b1 3) (N.shiftr b2 4)) as Hp.
    unfold pack_facts in Hp. specialize (Hp ltac:(done) ltac:(done)). unbool.
    simpl. by repeat constructor.
  - inversion_clear Hbs as [|? ? ? Hbs']. inversion_clear Hbs' as [|? ? ? Hbs''].
    inversion_clear Hbs''.
    byte_facts b1. byte_facts b2. byte_facts b3.
    pose proof (pack_facts_4 (N.land b1 3) (N.shiftr b2 4)) as Hp.
    unfold pack_facts in Hp. specialize (Hp ltac:(done) ltac:(done)).
    pose proof (pack_facts_2 (N.land b2 15) (N.shiftr b3 6)) as Hq.
    unfold pack_facts in Hq. specialize (Hq ltac:(done) ltac:(done)). unbool.
    simpl. repeat (constructor; [done|]). by apply IH.
Qed.

Lemma decode_sextets (bs : list N) :
  Forall (fun b => b < 256) bs -> base64_decode (sextets bs) = bs.
Proof.
  induction bs as [|b1|b1 b2|b1 b2 b3 bs IH] using list_ind3; intros Hbs.
  - done.
  - inversion_clear Hbs. byte_facts b1. simpl. congruence.
  - inversion_clear Hbs as [|? ? ? Hbs']. inversion_clear Hbs'.
    byte_facts b1. byte_facts b2.
    pose proof (pack_facts_4 (N.land b1 3) (N.shiftr b2 4)) as Hp.
    unfold pack_facts in Hp. specialize (Hp ltac:(done) ltac:(done)). unbool.
    simpl. congruence.
  - inversion_clear Hbs as [|? ? ? Hbs']. inversion_clear Hbs' as [|? ? ? Hbs''].
    inversion_clear Hbs''.
    byte_facts b1. byte_facts b2. byte_facts b3.
    pose proof (pack_facts_4 (N.land b1 3) (N.shiftr b2 4)) as Hp.
    unfold pack_facts in Hp. specialize (Hp ltac:(done) ltac:(done)).
    pose proof (pack_facts_2 (N.land b2 15) (N.shiftr b3 6)) as Hq.
    unfold pack_facts in Hq. specialize (Hq ltac:(done) ltac:(done)). unbool.
    cbn [sextets base64_decode]. rewrite IH by done. congruence.
Qed.

Lemma enc_dec (n : N) : n < 64 -> dec (enc n) = Some n.
Proof.
  intros H. pose proof (enc_facts_ok n H) as Hf. unfold enc_facts in Hf. unbool.
  destruct (dec (enc n)); [|done]. unbool. congruence.
Qed.

Lemma enc_not_whitespace (n : N) : n < 64 -> is_ascii_whitespace (enc n) = false.
Proof.
  intros H. pose proof (enc_facts_ok n H) as Hf. unfold enc_facts in Hf. by unbool.
Qed.

Lemma enc_not_pad (n : N) : n < 64 -> (enc n =? pad) = false.
Proof.
  intros H. pose proof (enc_facts_ok n H) as Hf. unfold enc_facts in Hf. by unbool.
Qed.

Lemma url_there_and_back_app (a b : jsstring) :
  url_there_and_back (a ++ b) = url_there_and_back a ++ url_there_and_back b.
Proof.
  unfold url_there_and_back, urlEncodeB64, replace_char.
  by rewrite bind_app, !fmap_app.
Qed.

Lemma url_there_and_back_enc (ss : list N) :
  Forall (fun s => s < 64) ss -> url_there_and_back (enc <$> ss) = enc <$> ss.
Proof.
  induction 1 as [|s ss Hs _ IH]; [done|].
  cbn [fmap list_fmap]. fold (enc <$> ss).
  change (enc s :: (enc <$> ss)) with ([enc s] ++ (enc <$> ss)).
  rewrite url_there_and_back_app, IH.
  pose proof (enc_facts_ok s Hs) as Hf. unfold enc_facts in Hf. unbool.
  unfold url_there_and_back.
  destruct (replace_char minus plus (replace_char underscore slash (urlEncodeB64 [enc s])))
    as [|c [|? ?]]; try done.
  unbool. by subst c.
Qed.

Lemma url_there_and_back_padding (n : nat) :
  url_there_and_back (replicate n pad) = [].
Proof.
  induction n as [|n IH]; [done|].
  change (replicate (S n) pad) with ([pad] ++ replicate n pad).
  by rewrite url_there_and_back_app, IH.
Qed.

Lemma encode_sextets (bs : list N) :
  exists n, base64_encode bs = (enc <$> sextets bs) ++ replicate n pad.
Proof.
  induction bs as [|b1|b1 b2|b1 b2 b3 bs [n IH]] using list_ind3.
  - by exists 0%nat.
  - by exists 2%nat.
  - by exists 1%nat.
  - exists n. cbn [base64_encode sextets]. by rewrite IH.
Qed.

Lemma url_there_and_back_encode (bs : list N) :
  Forall (fun b => b < 256) bs ->
  url_there_and_back (base64_encode bs) = enc <$> sextets bs.
Proof.
  intros Hbs. destruct (encode_sextets bs) as [n ->].
  rewrite url_there_and_back_app, url_there_and_back_padding, app_nil_r.
  by apply url_there_and_back_enc, sextets_bounded.
Qed.

Lemma mapM_dec_enc (ss : list N) :
  Forall (fun s => s < 64) ss -> mapM dec (enc <$> ss) = Some ss.
Proof.
  induction 1 as [|s ss Hs _ IH]; [done|].
  cbn [fmap list_fmap]. simpl. rewrite (enc_dec s Hs). simpl.
  fold (enc <$> ss). rewrite IH. done.
Qed.

Lemma filter_whitespace_enc (ss : list N) :
  Forall (fun s => s < 64) ss ->
  List.filter (fun c => negb (is_ascii_whitespace c)) (enc <$> ss) = enc <$> ss.
Proof.
  induction 1 as [|s ss Hs _ IH]; [done|].
  cbn [fmap list_fmap List.filter]. rewrite (enc_not_whitespace s Hs). simpl.
  fold (enc <$> ss). by rewrite IH.
Qed.

Lemma strip_padding_enc (ss : list N) :
  Forall (fun s => s < 64) ss -> strip_padding (enc <$> ss) = enc <$> ss.
Proof.
  intros Hss. unfold strip_padding.
  destruct (rev (enc <$> ss)) as [|c1 r] eqn:Hrev; [done|].
  assert (Hc1 : (c1 =? pad) = false).
  { assert (Hin : c1 ∈ enc <$> ss).
    { apply list_elem_of_In, in_rev. rewrite Hrev. by left. }
    apply list_elem_of_fmap in Hin as (s & -> & Hs).
    apply enc_not_pad. rewrite Forall_forall in Hss. by apply Hss. }
  rewrite Hc1. by destruct r.
Qed.

Lemma length_sextets (bs : list N) :
  (N.of_nat (length (sextets bs)) mod 4 =? 1) = false.
Proof.
  induction bs as [|b1|b1 b2|b1 b2 b3 bs IH] using list_ind3; try done.
  cbn [sextets length].
  replace (N.of_nat (S (S (S (S (length (sextets bs)))))))
    with (N.of_nat (length (sextets bs)) + 1 * 4) by lia.
  by rewrite N.Div0.mod_add.
Qed.

Lemma atob_sextets (bs : list N) :
  Forall (fun b => b < 256) bs -> atob (enc <$> sextets bs) = Return bs.
Proof.
  intros Hbs. pose proof (sextets_bounded bs Hbs) as Hss.
  unfold atob. rewrite filter_whitespace_enc by done.
  rewrite strip_padding_enc by done.
  replace (if N.of_nat (length (enc <$> sextets bs)) mod 4 =? 0
           then enc <$> sextets bs else enc <$> sextets bs)
    with (enc <$> sextets bs) by (by destruct (_ =? 0)).
  rewrite length_fmap, length_sextets, mapM_dec_enc by done.
  by rewrite decode_sextets.
Qed.


Lemma bytes_bounded (input : list Byte.byte) :
  Forall (fun b => b < 256) (Byte.to_N <$> input).
Proof.
  apply Forall_fmap, Forall_forall. intros b _. simpl.
  pose proof (Byte.to_N_bounded b). lia.
Qed.

Lemma btoa_bytes (bs : list N) :
  Forall (fun b => b < 256) bs -> btoa bs = Return (base64_encode bs).
Proof.
  intros Hbs. unfold btoa.
  replace (forallb (fun c => c <=? 255) bs) with true; [done|].
  symmetry. apply forallb_forall. intros b Hb. apply N.leb_le.
  rewrite Forall_forall in Hbs. apply list_elem_of_In, Hbs in Hb. lia.
Qed.



Lemma assemble_total (ts : list token) :
  assemble ts = Throw URIError \/ exists s, assemble ts = Return s.
Proof.
  enough (forall n ts, (length ts < n)%nat ->
            assemble ts = Throw URIError \/ exists s, assemble ts = Return s)
    by eauto.
  clear ts. induction n as [|n IH]; intros ts Hlen; [lia|].
  assert (Hk : forall (pre : jsstring) ts', (length ts' < n)%nat ->
            (let* r := assemble ts' in Return (pre ++ r)) = Throw URIError
            \/ exists s, (let* r := assemble ts' in Return (pre ++ r)) = Return s).
  { intros pre ts' Hlen'. destruct (IH ts' Hlen') as [->|[s ->]]; simpl; eauto. }
  destruct ts as [|[c|b] ts]; simpl in *.
  - right. by eexists.
  - apply (Hk [c]). lia.
  - destruct (b <? 128); [apply (Hk [b]); lia|].
    destruct (N.land b 224 =? 192).
    { destruct ts as [|[?|b1] ts]; auto.
      destruct (_ && _); auto. apply Hk. simpl in *. lia. }
    destruct (N.land b 240 =? 224).
    { destruct ts as [|[?|b1] [|[?|b2] ts]]; auto.
      destruct (_ && _); auto. apply Hk. simpl in *. lia. }
    destruct (N.land b 248 =? 240); auto.
    destruct ts as [|[?|b1] [|[?|b2] [|[?|b3] ts]]]; auto.
    destruct (_ && _); auto. apply Hk. simpl in *. lia.
Qed.




(** *** Padding, the URL-safe alphabet and invalid input *)


Lemma encode_padding (bs : list N) :
  exists n, (n <= 2)%nat
    /\ base64_encode bs = (enc <$> sextets bs) ++ replicate n pad
    /\ N.of_nat (length (base64_encode bs)) mod 4 = 0.
Proof.
  induction bs as [|b1|b1 b2|b1 b2 b3 bs (n & Hn & IH & Hlen)] using list_ind3.
  - exists 0%nat. split; [lia|]. by split.
  - exists 2%nat. split; [lia|]. by split.
  - exists 1%nat. split; [lia|]. by split.
  - exists n. split; [done|]. cbn [base64_encode sextets]. split; [by rewrite IH|].
    cbn [length].
    replace (N.of_nat (S (S (S (S (length (base64_encode bs)))))))
      with (N.of_nat (length (base64_encode bs)) + 1 * 4) by lia.
    by rewrite N.Div0.mod_add.
Qed.

Lemma strip_padding_app (l : jsstring) (n : nat) :
  (n <= 2)%nat -> Forall (fun c => (c =? pad) = false) l ->
  strip_padding (l ++ replicate n pad) = l.
Proof.
  intros Hn Hl. unfold strip_padding. rewrite rev_app_distr.
  assert (Hlast : forall c r, rev l = c :: r -> (c =? pad) = false).
  { intros c r Hrev. rewrite Forall_forall in Hl. apply Hl.
    apply list_elem_of_In, in_rev. rewrite Hrev. by left. }
  destruct n as [|[|[|n]]]; [| | |lia]; cbn [replicate rev app].
  - rewrite app_nil_r. destruct (rev l) as [|c1 r] eqn:Hrev; [done|].
    rewrite (Hlast c1 r eq_refl). by destruct r.
  - rewrite N.eqb_refl. destruct (rev l) as [|c2 r] eqn:Hrev.
    + apply (f_equal (@rev N)) in Hrev. rewrite rev_involutive in Hrev.
      by subst l.
    + rewrite (Hlast c2 r eq_refl). cbn [andb].
      change (rev (c2 :: r) = l). by rewrite <- Hrev, rev_involutive.
  - rewrite N.eqb_refl. cbn [andb]. apply rev_involutive.
Qed.

Lemma atob_base64_encode (bs : list N) :
  Forall (fun b => b < 256) bs -> atob (base64_encode bs) = Return bs.
Proof.
  intros Hbs. pose proof (sextets_bounded bs Hbs) as Hss.
  destruct (encode_padding bs) as (n & Hn & Heq & Hlen).
  assert (Hnopad : Forall (fun c => (c =? pad) = false) (enc <$> sextets bs)).
  { apply Forall_fmap. eapply Forall_impl; [exact Hss|]. apply enc_not_pad. }
  assert (Hfilter :
    List.filter (fun c => negb (is_ascii_whitespace c)) (base64_encode bs)
    = base64_encode bs).
  { rewrite Heq, List.filter_app, filter_whitespace_enc by done. f_equal.
    clear. induction n as [|n IH]; [done|]. cbn. by rewrite IH. }
  unfold atob. rewrite Hfilter, Hlen. cbn [N.eqb].
  rewrite Heq, strip_padding_app by done.
  rewrite length_fmap, length_sextets, mapM_dec_enc by done.
  by rewrite decode_sextets.
Qed.

(** [decode] undoes [encode]: a string of code units up to 0xFF is encoded
    by [encode] and decoded back to itself by [decode]; on any other string
    [encode] throws an InvalidCharacterError. *)
Theorem decode_encode_latin1 (value : jsstring) :
  if forallb (fun c => c <=? 255) value
  then exists b64, encode value = Return b64 /\ decode b64 = Return value
  else encode value = Throw InvalidCharacterError.
Proof.
  unfold encode, decode, btoa.
  destruct (forallb (fun c => c <=? 255) value) eqn:Hall; [|done].
  eexists. split; [reflexivity|]. apply atob_base64_encode.
  apply Forall_forall. intros c Hc%list_elem_of_In.
  rewrite forallb_forall in Hall. apply Hall, N.leb_le in Hc. lia.
Qed.







(** The first stage of [urlDecodeB64] (the inverse substitution and [atob])
    gives back the bytes that [bufferToBase64UrlEncoded] was given. *)
Lemma bufferToBase64UrlEncoded_bytes (input : list Byte.byte) :
  (let* encoded := bufferToBase64UrlEncoded input in
   atob (replace_char minus plus (replace_char underscore slash encoded)))
  = Return (Byte.to_N <$> input).
Proof.
  pose proof (bytes_bounded input) as Hbs.
  unfold bufferToBase64UrlEncoded. rewrite btoa_bytes by done. cbn [bind].
  fold (url_there_and_back (base64_encode (Byte.to_N <$> input))).
  by rewrite url_there_and_back_encode, atob_sextets.
Qed.

(** Different buffers have different encodings. *)
Theorem bufferToBase64UrlEncoded_injective (a b : list Byte.byte) :
  bufferToBase64UrlEncoded a = bufferToBase64UrlEncoded b -> a = b.
Proof.
  intros Heq.
  pose proof (bufferToBase64UrlEncoded_bytes a) as Ha.
  rewrite Heq, bufferToBase64UrlEncoded_bytes in Ha.
  injection Ha as Ha. clear Heq. revert b Ha.
  induction a as [|x a IH]; intros [|y b]; try done.
  rewrite !fmap_cons. intros [= Hxy Hab].
  f_equal; [|by apply IH].
  apply (f_equal Byte.of_N) in Hxy. rewrite !Byte.of_to_N in Hxy. congruence.
Qed.

(** The theorem at two equal one-byte buffers. *)
Lemma bufferToBase64UrlEncoded_injective_witness :
  [Byte.x48; Byte.x69] = [Byte.x48; Byte.x69].
Proof.
  apply (bufferToBase64UrlEncoded_injective [Byte.x48; Byte.x69] [Byte.x48; Byte.x69]).
  reflexivity.
Defined.

Lemma elem_of_rev (l : jsstring) (c : N) : c ∈ rev l <-> c ∈ l.
Proof. rewrite !list_elem_of_In. symmetry. apply in_rev. Qed.

Lemma strip_padding_keeps (data : jsstring) (c : N) :
  c ∈ data -> c <> pad -> c ∈ strip_padding data.
Proof.
  intros Hin Hc. unfold strip_padding.
  assert (Hrev : c ∈ rev data) by (by apply elem_of_rev).
  destruct (rev data) as [|c1 [|c2 r]] eqn:Hd; [done| |].
  - apply list_elem_of_singleton in Hrev as ->.
    by apply N.eqb_neq in Hc as ->.
  - destruct (N.eqb_spec c1 pad) as [->|H1]; [|done].
    apply elem_of_cons in Hrev as [->|Hrev]; [done|].
    destruct (N.eqb_spec c2 pad) as [->|H2]; cbn [andb].
    + apply elem_of_cons in Hrev as [->|Hrev]; [done|].
      by apply elem_of_rev.
    + by apply elem_of_rev.
Qed.

(** A character that is neither a character of the two alphabets, nor the
    padding character, nor ASCII white space makes [urlDecodeB64] throw an
    InvalidCharacterError, wherever it stands in the input. *)
Theorem urlDecodeB64_invalid_character (input : jsstring) (c : N) :
  c ∈ input ->
  atob_char c || (c =? minus) || (c =? underscore) = false ->
  urlDecodeB64 input = Throw InvalidCharacterError.
Proof.
  intros Hin Hc.
  apply orb_false_iff in Hc as [Hc Hu]. apply orb_false_iff in Hc as [Hc Hm].
  unfold atob_char in Hc.
  apply orb_false_iff in Hc as [Hc Hws]. apply orb_false_iff in Hc as [Hdec Hpad].
  apply N.eqb_neq in Hu, Hm, Hpad.
  unfold urlDecodeB64, decodeB64, atob.
  set (data0 := replace_char minus plus (replace_char underscore slash input)).
  assert (H0 : c ∈ data0).
  { unfold data0, replace_char. apply list_elem_of_fmap. exists c. split.
    - by apply N.eqb_neq in Hm as ->.
    - apply list_elem_of_fmap. exists c. split; [|done].
      by apply N.eqb_neq in Hu as ->. }
  set (data1 := List.filter (fun c => negb (is_ascii_whitespace c)) data0).
  assert (H1 : c ∈ data1).
  { apply list_elem_of_In, filter_In. split; [by apply list_elem_of_In|].
    by rewrite Hws. }
  set (data2 := if N.of_nat (length data1) mod 4 =? 0
                then strip_padding data1 else data1).
  assert (H2 : c ∈ data2).
  { unfold data2. destruct (_ =? 0); [by apply strip_padding_keeps|done]. }
  destruct (_ =? 1); [done|].
  destruct (mapM dec data2) as [ss|] eqn:Hss; [|done].
  apply mapM_Some in Hss.
  apply list_elem_of_lookup in H2 as [i Hi].
  destruct (Forall2_lookup_l _ _ _ _ _ Hss Hi) as (s & _ & Hs).
  destruct (dec c); [discriminate|congruence].
Qed.

(** The theorem at an input with a [*] in it. *)
Lemma urlDecodeB64_invalid_character_witness :
  urlDecodeB64 (js "SGk*") = Throw InvalidCharacterError.
Proof.
  apply (urlDecodeB64_invalid_character (js "SGk*") 42).
  - apply list_elem_of_In. vm_compute. tauto.
  - vm_compute. reflexivity.
Defined.

End Base64Props.

(** ** The token exchange *)

Module TokenProps.
Import Constants Token.

(** *** One attempt *)

Lemma fetchWithTimeout_result url options worker timeout h :
  fst (fetchWithTimeout url options worker timeout h)
  = attempt_result worker (event h 0).
Proof.
  unfold fetchWithTimeout, attempt_result, event, switchFetch, sendMessage,
    next_event, alloc.
  destruct (network h) as [|ev evs]; destruct worker as [w|]; cbn -[fresh];
    try reflexivity.
  - by destruct (reply_outcome ev).
  - by destruct (fetch_outcome ev).
Qed.

Lemma fetchWithTimeout_network url options worker timeout h :
  network (snd (fetchWithTimeout url options worker timeout h)) = tail (network h).
Proof.
  unfold fetchWithTimeout, switchFetch, sendMessage, next_event, alloc.
  destruct (network h) as [|ev evs] eqn:Hnet; destruct worker as [w|];
    cbn -[fresh]; rewrite ?Hnet; try reflexivity.
  - by destruct (reply_outcome ev).
  - by destruct (fetch_outcome ev).
Qed.

Lemma fetchWithTimeout_trace url options worker timeout h :
  exists tr,
    trace (snd (fetchWithTimeout url options worker timeout h)) = trace h ++ tr
    /\ length (requests tr) = 1%nat
    /\ delays tr = [default DEFAULT_FETCH_TIMEOUT_MS timeout].
Proof.
  unfold fetchWithTimeout, switchFetch, sendMessage, next_event, alloc.
  destruct (network h) as [|ev evs] eqn:Hnet; destruct worker as [w|];
    cbn -[fresh]; rewrite ?Hnet.
  - eexists. rewrite <- !app_assoc. split; [reflexivity|]. by split.
  - eexists. rewrite <- !app_assoc. split; [reflexivity|]. by split.
  - destruct (reply_outcome ev); cbn -[fresh];
      eexists; rewrite <- ?app_assoc; (split; [reflexivity|]); by split.
  - destruct (fetch_outcome ev); cbn -[fresh];
      eexists; rewrite <- ?app_assoc; (split; [reflexivity|]); by split.
Qed.

Lemma fresh_loc_unused (m : gmap nat (gmap jsstring value)) :
  m !! fresh (dom m) = None.
Proof. apply not_elem_of_dom, is_fresh. Qed.

Lemma fresh_loc_ne (m : gmap nat (gmap jsstring value)) (l : nat) :
  is_Some (m !! l) -> l <> fresh (dom m).
Proof. intros [x Hx] ->. by rewrite fresh_loc_unused in Hx. Qed.

Lemma fetchWithTimeout_frame url options worker timeout h l :
  is_Some (heap h !! l) ->
  heap (snd (fetchWithTimeout url options worker timeout h)) !! l = heap h !! l.
Proof.
  intros Hl.
  pose proof (fresh_loc_ne (heap h) l Hl) as Hl1.
  set (l1 := fresh (dom (heap h))) in *.
  assert (Hl2 : l <> fresh (dom (<[l1 := {[js "aborted" := VBool false]}]> (heap h)))).
  { apply fresh_loc_ne. by rewrite lookup_insert_ne. }
  unfold fetchWithTimeout, switchFetch, sendMessage, next_event, alloc.
  fold l1.
  destruct (network h) as [|ev evs]; destruct worker as [w|]; cbn -[fresh];
    try destruct (reply_outcome ev); try destruct (fetch_outcome ev);
    cbn -[fresh];
    rewrite ?lookup_alter_ne, ?lookup_insert_ne by done; reflexivity.
Qed.

Lemma calls_between_app (h h' : host) (tr : list effect) :
  trace h' = trace h ++ tr -> calls_between h h' = tr.
Proof. intros H. unfold calls_between. by rewrite H, drop_app_length. Qed.

(** The request an attempt sends, in terms of the store it starts from. *)
Lemma fetchWithTimeout_calls url options worker timeout h :
  let signal := fresh (dom (heap h)) in
  let copy := <[js "signal" := VRef signal]> (props_at options h) in
  let request :=
    match worker with
    | Some w =>
      PostMessage w
        (delete (js "signal") copy
           ∪ <[js "url" := VStr url]>
               {[js "timeout" :=
                   VNumber (Num (Z.of_N (default DEFAULT_FETCH_TIMEOUT_MS timeout)))]})
    | None => Fetch url copy
    end in
  is_Some (heap h !! options) ->
  exists rest,
    calls_between h (snd (fetchWithTimeout url options worker timeout h))
    = request :: rest.
Proof.
  intros l1 copy request Hopt.
  pose proof (fresh_loc_ne (heap h) options Hopt) as Hne1. fold l1 in Hne1.
  set (h1 := <[l1 := {[js "aborted" := VBool false]}]> (heap h)).
  set (l2 := fresh (dom h1)).
  assert (Hopts : default ∅ (h1 !! options) = props_at options h).
  { unfold props_at, h1. by rewrite lookup_insert_ne. }
  unfold fetchWithTimeout, switchFetch, sendMessage, next_event, alloc,
    props_at, delete_prop, request, copy.
  fold l1 h1 l2.
  destruct (network h) as [|ev evs]; destruct worker as [w|]; cbn -[fresh];
    fold l1 h1 l2;
    try destruct (reply_outcome ev); try destruct (fetch_outcome ev);
    cbn -[fresh]; fold l1 h1 l2;
    rewrite ?lookup_alter_eq, ?lookup_insert_eq; cbn -[fresh];
    rewrite ?Hopts;
    eexists; (erewrite calls_between_app;
              [|cbn -[fresh]; rewrite <- ?app_assoc; reflexivity]);
    reflexivity.
Qed.

Lemma fetchWithTimeout_request url options worker timeout h :
  is_Some (heap h !! options) ->
  let h' := snd (fetchWithTimeout url options worker timeout h) in
  match worker with
  | Some w =>
    exists message,
      PostMessage w message ∈ calls_between h h'
      /\ message !! js "signal" = None
      /\ (forall k, k <> js "signal" -> k <> js "url" -> k <> js "timeout" ->
          message !! k = props_at options h !! k)
  | None =>
    exists signal,
      heap h !! signal = None
      /\ Fetch url (<[js "signal" := VRef signal]> (props_at options h))
         ∈ calls_between h h'
  end.
Proof.
  intros Hopt. cbv zeta.
  destruct (fetchWithTimeout_calls url options worker timeout h Hopt) as [rest Hc].
  destruct worker as [w|].
  - eexists. split; [rewrite Hc; apply elem_of_cons; left; reflexivity|]. split.
    + rewrite lookup_union, lookup_delete_eq. cbn.
      by rewrite lookup_insert_ne, lookup_singleton_ne.
    + intros k Hk1 Hk2 Hk3. rewrite lookup_union.
      rewrite lookup_delete_ne, lookup_insert_ne by done.
      rewrite (lookup_insert_ne _ (js "url")), lookup_singleton_ne by done.
      by rewrite right_id by apply _.
  - exists (fresh (dom (heap h))). split; [apply fresh_loc_unused|].
    rewrite Hc. apply elem_of_cons. by left.
Qed.

(** C10. [fetchWithTimeout] works on a fresh copy of the caller's options:
    whatever the mode and the outcome of the attempt, every object that
    existed before the call - the caller's options object in particular - has
    exactly the properties it had before. The request carries the copy: in
    direct mode the options plus the new signal; in delegated mode the
    message posted to the worker has no [signal] property and otherwise
    agrees with the options. *)
Theorem fetchWithTimeout_preserves_options url options worker timeout h :
  is_Some (heap h !! options) ->
  let h' := snd (fetchWithTimeout url options worker timeout h) in
  heap h' !! options = heap h !! options
  /\ (forall l, is_Some (heap h !! l) -> heap h' !! l = heap h !! l)
  /\ match worker with
     | Some w =>
       exists message,
         PostMessage w message ∈ calls_between h h'
         /\ message !! js "signal" = None
         /\ (forall k, k <> js "signal" -> k <> js "url" -> k <> js "timeout" ->
             message !! k = props_at options h !! k)
     | None =>
       exists signal,
         heap h !! signal = None
         /\ Fetch url (<[js "signal" := VRef signal]> (props_at options h))
            ∈ calls_between h h'
     end.
Proof.
  intros Hopt h'. split; [by apply fetchWithTimeout_frame|].
  split; [intros l Hl; by apply fetchWithTimeout_frame|].
  by apply fetchWithTimeout_request.
Qed.

(** The theorem in delegated mode, at an options object that has a [signal]
    property of its own: the caller's object keeps it. *)
Lemma fetchWithTimeout_preserves_options_witness :
  let options := {[js "signal" := VStr (js "mine")]} : gmap jsstring value in
  let h := Host {[7%nat := options]} [WorkerReply VNull] [] in
  heap (snd (fetchWithTimeout (js "u") 7 (Some 1%nat) None h)) !! 7%nat
  = Some options.
Proof.
  cbv zeta.
  refine (proj1 (fetchWithTimeout_preserves_options (js "u") 7 (Some 1%nat) None
                   (Host {[7%nat := {[js "signal" := VStr (js "mine")]}]}
                      [WorkerReply VNull] []) _)).
  cbn. rewrite lookup_singleton_eq. by eexists.
Defined.

(** *** The retry loop *)

Lemma attempts_step n url timeout options worker fe resp h :
  attempts (S n) url timeout options worker fe resp h
  = match attempt_result worker (event h 0) with
    | Return r => (VNull, r, snd (fetchWithTimeout url options worker timeout h))
    | Throw e =>
      attempts n url timeout options worker e resp
        (snd (fetchWithTimeout url options worker timeout h))
    end.
Proof.
  cbn [attempts]. rewrite <- (fetchWithTimeout_result url options worker timeout h).
  by destruct (fetchWithTimeout url options worker timeout h) as [[r|e] h'].
Qed.

Lemma event_next url options worker timeout h i :
  event (snd (fetchWithTimeout url options worker timeout h)) i = event h (S i).
Proof.
  unfold event. rewrite fetchWithTimeout_network.
  destruct (network h); [by destruct i|done].
Qed.





Lemma getJSON_first url timeout options worker h r :
  attempt_result worker (event h 0) = Return r ->
  getJSON url timeout options worker h
  = (interpret url VNull r, snd (fetchWithTimeout url options worker timeout h)).
Proof.
  intros Hr. unfold getJSON.
  change DEFAULT_SILENT_TOKEN_RETRY_COUNT with 3%nat.
  by rewrite attempts_step, Hr.
Qed.









(** The test [if (fetchError)] lets a falsy rejection value through: after
    three failed attempts of which the last rejects with such a value,
    [response] is still [undefined] and destructuring it is a TypeError. *)
Lemma getJSON_falsy_rejection url timeout options worker h e1 e2 e3 :
  attempt_result worker (event h 0) = Throw e1 ->
  attempt_result worker (event h 1) = Throw e2 ->
  attempt_result worker (event h 2) = Throw e3 ->
  truthy e3 = false ->
  fst (getJSON url timeout options worker h) = Throw TypeError.
Proof.
  intros H0 H1 H2 Ht. unfold getJSON.
  change DEFAULT_SILENT_TOKEN_RETRY_COUNT with 3%nat.
  rewrite attempts_step, H0, attempts_step, event_next, H1.
  rewrite attempts_step, !event_next, H2. cbn [attempts fst].
  unfold interpret. by rewrite Ht.
Qed.

(** [oauthToken] is [getJSON] on the token endpoint of [baseUrl], with a
    freshly allocated options object; the events of the attempts are the
    same. *)
Lemma oauthToken_getJSON JSON_stringify location_origin arg worker h :
  let opts := fresh (dom (heap h)) in
  let body :=
    JSON_stringify (options arg ∪ {[js "redirect_uri" := VStr location_origin]}) in
  let request : gmap jsstring value :=
    <[js "method" := VStr (js "POST")]>
      (<[js "body" := VStr body]>
         {[js "headers" :=
             VObj {[js "Content-type" := VStr (js "application/json")]}]}) in
  oauthToken JSON_stringify location_origin arg worker h
  = getJSON (baseUrl arg ++ js "/oauth/token") (timeout arg) opts worker
      (Host (<[opts := request]> (heap h)) (network h) (trace h)).
Proof. reflexivity. Qed.

(** *** The requests of an exchange *)

Lemma fetchWithTimeout_sends url options worker timeout h :
  is_Some (heap h !! options) ->
  let h' := snd (fetchWithTimeout url options worker timeout h) in
  exists tr,
    trace h' = trace h ++ tr
    /\ requests tr
       = [request_of url (props_at options h) worker
            (default DEFAULT_FETCH_TIMEOUT_MS timeout) (fresh (dom (heap h)))]
    /\ delays tr = [default DEFAULT_FETCH_TIMEOUT_MS timeout].
Proof.
  intros Hopt. cbv zeta.
  destruct (fetchWithTimeout_trace url options worker timeout h) as (tr & Htr & Hlen & Hd).
  destruct (fetchWithTimeout_calls url options worker timeout h Hopt) as [rest Hcalls].
  rewrite (calls_between_app _ _ _ Htr) in Hcalls. subst tr.
  eexists. split; [exact Htr|]. split; [|done].
  unfold requests in *.
  assert (Hrest : List.filter is_request rest = []).
  { destruct worker; cbn in Hlen; by destruct (List.filter is_request rest). }
  unfold request_of. destruct worker as [w|]; cbn [List.filter is_request];
    rewrite Hrest; [|done].
  do 2 f_equal. f_equal. apply delete_insert_eq.
Qed.

Lemma attempts_sends n url timeout options worker fetchError response h :
  is_Some (heap h !! options) ->
  let h' := snd (attempts n url timeout options worker fetchError response h) in
  let ms := default DEFAULT_FETCH_TIMEOUT_MS timeout in
  exists tr signals,
    trace h' = trace h ++ tr
    /\ requests tr = request_of url (props_at options h) worker ms <$> signals
    /\ delays tr = replicate (length signals) ms
    /\ (length signals <= n)%nat
    /\ (n <> 0%nat -> signals <> [])
    /\ Forall (fun s => heap h !! s = None) signals.
Proof.
  cbv zeta. revert fetchError response h.
  induction n as [|n IH]; intros fetchError response h Hopt.
  { exists [], []. cbn. rewrite app_nil_r. by repeat split. }
  cbn [attempts].
  destruct (fetchWithTimeout_sends url options worker timeout h Hopt)
    as (tr1 & Htr1 & Hreq1 & Hd1).
  pose proof (fetchWithTimeout_frame url options worker timeout h) as Hframe.
  destruct (fetchWithTimeout url options worker timeout h) as [[r|e] h1];
    cbn [fst snd] in *.
  - exists tr1, [fresh (dom (heap h))]. split; [done|]. split; [done|].
    split; [done|]. split; [cbn; lia|]. split; [done|].
    constructor; [apply fresh_loc_unused|constructor].
  - assert (Hopt1 : is_Some (heap h1 !! options)) by (by rewrite Hframe).
    destruct (IH e response h1 Hopt1) as (tr2 & signals & Htr2 & Hreq2 & Hd2 & Hlen & _ & Hfresh).
    exists (tr1 ++ tr2), (fresh (dom (heap h)) :: signals).
    split; [by rewrite Htr2, Htr1, app_assoc|].
    split.
    { unfold requests in *. rewrite List.filter_app, Hreq1, Hreq2.
      unfold props_at. by rewrite Hframe. }
    split; [unfold delays in *; by rewrite omap_app, Hd1, Hd2|].
    split; [cbn; lia|]. split; [done|].
    constructor; [apply fresh_loc_unused|].
    eapply Forall_impl; [exact Hfresh|]. intros s Hs. cbn in Hs.
    destruct (heap h !! s) eqn:Hhs; [|done].
    rewrite Hframe in Hs by done. congruence.
Qed.

(** Whatever the environment does, [getJSON] sends between one and three
    requests, arms one timer per request, and every request is the same: the
    caller's url and options as they were when the call started (in direct
    mode with the attempt's own abort signal added, in delegated mode as the
    message [{ url, timeout, ...options }] without a signal). *)
Theorem getJSON_requests url timeout options worker h :
  is_Some (heap h !! options) ->
  let h' := snd (getJSON url timeout options worker h) in
  let ms := default DEFAULT_FETCH_TIMEOUT_MS timeout in
  exists signals,
    requests (calls_between h h')
    = request_of url (props_at options h) worker ms <$> signals
    /\ delays (calls_between h h') = replicate (length signals) ms
    /\ (1 <= length signals <= 3)%nat
    /\ Forall (fun s => heap h !! s = None) signals.
Proof.
  intros Hopt. cbv zeta. unfold getJSON.
  destruct (attempts_sends DEFAULT_SILENT_TOKEN_RETRY_COUNT url timeout options
              worker VUndefined VUndefined h Hopt)
    as (tr & signals & Htr & Hreq & Hd & Hlen & Hne & Hfresh).
  destruct (attempts _ _ _ _ _ _ _ _) as [[fetchError response] h'].
  cbn [snd] in *. rewrite (calls_between_app _ _ _ Htr).
  exists signals. split; [done|]. split; [done|]. split; [|done].
  split; [|exact Hlen]. specialize (Hne ltac:(done)).
  destruct signals; [done|cbn; lia].
Qed.

(** The theorem in delegated mode, with a worker that fails once and then
    replies: the same message is posted twice. *)
Lemma getJSON_requests_witness :
  let h :=
    Host {[5%nat := {[js "method" := VStr (js "POST")]}]}
      [WorkerReply (VObj {[js "error" := VStr (js "Failed to fetch")]});
       WorkerReply (VObj (<[js "ok" := VBool true]> {[js "json" := VObj ∅]}))] [] in
  exists signals,
    requests (calls_between h (snd (getJSON (js "u") None 5 (Some 1%nat) h)))
    = request_of (js "u") {[js "method" := VStr (js "POST")]} (Some 1%nat)
        DEFAULT_FETCH_TIMEOUT_MS <$> signals
    /\ length signals = 2%nat.
Proof.
  cbv zeta.
  destruct (getJSON_requests (js "u") None 5 (Some 1%nat)
              (Host {[5%nat := {[js "method" := VStr (js "POST")]}]}
                 [WorkerReply (VObj {[js "error" := VStr (js "Failed to fetch")]});
                  WorkerReply (VObj (<[js "ok" := VBool true]> {[js "json" := VObj ∅]}))]
                 []))
    as (signals & Hreq & Hd & _ & _).
  - by eexists.
  - exists signals. split; [exact Hreq|].
    apply (f_equal (@length N)) in Hd. rewrite length_replicate in Hd.
    rewrite <- Hd. vm_compute. reflexivity.
Defined.

(** When nothing arrives before the timer of an attempt fires,
    [fetchWithTimeout] rejects with the error "Timeout when executing
    'fetch'" after exactly three calls: the request, the timer, and the abort
    of the attempt's own controller - the controller whose signal the request
    carries in direct mode (in delegated mode the message carries the timeout
    and no signal). *)
Theorem fetchWithTimeout_timeout url options worker timeout h :
  is_Some (heap h !! options) ->
  event h 0%nat = TimerFires ->
  let out := fetchWithTimeout url options worker timeout h in
  let ms := default DEFAULT_FETCH_TIMEOUT_MS timeout in
  let signal := fresh (dom (heap h)) in
  fst out = Throw (new_Error (js "Timeout when executing 'fetch'"))
  /\ calls_between h (snd out)
     = [request_of url (props_at options h) worker ms signal;
        SetTimeout ms; Abort signal]
  /\ heap h !! signal = None
  /\ heap (snd out) !! signal = Some {[js "aborted" := VBool true]}.
Proof.
  intros Hopt Hev. cbv zeta.
  pose proof (fresh_loc_ne (heap h) options Hopt) as Hne1.
  set (l1 := fresh (dom (heap h))) in *.
  set (h1 := <[l1 := {[js "aborted" := VBool false]}]> (heap h)).
  set (l2 := fresh (dom h1)).
  assert (Hne2 : l1 <> l2).
  { apply fresh_loc_ne. unfold h1. rewrite lookup_insert_eq. by eexists. }
  assert (Hopts : default ∅ (h1 !! options) = props_at options h).
  { unfold props_at, h1. by rewrite lookup_insert_ne. }
  assert (Hpending : forall ev, ev = TimerFires ->
            reply_outcome ev = Pending /\ fetch_outcome ev = Pending)
    by (by intros ev ->).
  unfold event in Hev.
  unfold fetchWithTimeout, switchFetch, sendMessage, next_event, alloc,
    props_at, delete_prop, request_of, abort, perform.
  fold l1 h1 l2.
  destruct (network h) as [|ev evs]; cbn [nth] in Hev;
    [|destruct (Hpending ev Hev) as [Hr Hf]];
    destruct worker as [w|]; cbn -[fresh]; fold l1 h1 l2;
    rewrite ?Hr, ?Hf; cbn -[fresh]; fold l1 h1 l2.
  all: split; [reflexivity|].
  all: split; [erewrite calls_between_app;
                 [|cbn -[fresh]; rewrite <- ?app_assoc; reflexivity]|].
  all: rewrite ?lookup_alter_eq, ?lookup_insert_eq; cbn -[fresh]; rewrite ?Hopts.
  all: try (split; [apply fresh_loc_unused|]).
  all: rewrite ?lookup_alter_eq, ?lookup_alter_ne, ?lookup_insert_ne,
         ?lookup_insert_eq by done.
  all: try done.
  all: try (rewrite delete_insert_eq; reflexivity).
  all: unfold h1; rewrite lookup_insert_eq; cbn [fmap option_fmap option_map]; f_equal.
  all: first [apply insert_singleton_eq|apply insert_singleton].
Qed.

(** The theorem in direct mode, with no event left for the attempt. *)
Lemma fetchWithTimeout_timeout_witness :
  fst (fetchWithTimeout (js "u") 5 None None (Host {[5%nat := ∅]} [] []))
  = Throw (new_Error (js "Timeout when executing 'fetch'")).
Proof.
  apply (fetchWithTimeout_timeout (js "u") 5 None None (Host {[5%nat := ∅]} [] [])).
  - by eexists.
  - reflexivity.
Defined.

(** The theorem on falsy rejections in direct mode, when [fetch]
    rejects three times with [undefined]. *)
Lemma getJSON_falsy_rejection_witness :
  fst (getJSON (js "u") None 5 None
         (Host {[5%nat := ∅]}
            [FetchRejected VUndefined; FetchRejected VUndefined;
             FetchRejected VUndefined] []))
  = Throw TypeError.
Proof.
  apply (getJSON_falsy_rejection (js "u") None 5 None
           (Host {[5%nat := ∅]}
              [FetchRejected VUndefined; FetchRejected VUndefined;
               FetchRejected VUndefined] [])
           VUndefined VUndefined VUndefined); reflexivity.
Defined.

(** [oauthToken] posts to the token endpoint of [baseUrl]: every request it
    sends (between one and three) is a POST to [baseUrl + '/oauth/token']
    with the JSON content type, whose body is the JSON text of the options
    other than [baseUrl] and [timeout]; [redirect_uri] is the caller's when
    the options have one and [window.location.origin] otherwise. *)
Theorem oauthToken_request JSON_stringify location_origin arg worker h :
  let h' := snd (oauthToken JSON_stringify location_origin arg worker h) in
  let body := options arg ∪ {[js "redirect_uri" := VStr location_origin]} in
  let opts : gmap jsstring value :=
    <[js "method" := VStr (js "POST")]>
      (<[js "body" := VStr (JSON_stringify body)]>
         {[js "headers" :=
             VObj {[js "Content-type" := VStr (js "application/json")]}]}) in
  body !! js "redirect_uri"
  = Some (default (VStr location_origin) (options arg !! js "redirect_uri"))
  /\ delete (js "redirect_uri") body = delete (js "redirect_uri") (options arg)
  /\ exists signals,
       requests (calls_between h h')
       = request_of (baseUrl arg ++ js "/oauth/token") opts worker
           (default DEFAULT_FETCH_TIMEOUT_MS (timeout arg)) <$> signals
       /\ (1 <= length signals <= 3)%nat.
Proof.
  cbv zeta. split; [|split].
  - rewrite lookup_union. destruct (options arg !! js "redirect_uri") as [v|]; cbn.
    + by rewrite lookup_singleton_eq.
    + by rewrite lookup_singleton_eq.
  - apply map_eq. intros k. destruct (decide (k = js "redirect_uri")) as [->|Hk].
    + by rewrite !lookup_delete_eq.
    + rewrite !lookup_delete_ne, lookup_union, lookup_singleton_ne by done.
      by destruct (options arg !! k).
  - unfold oauthToken, alloc, getJSON. cbv zeta.
    set (opts := <[js "method" := _]> _).
    set (l := fresh (dom (heap h))).
    set (h0 := Host (<[l := opts]> (heap h)) (network h) (trace h)).
    destruct (attempts_sends DEFAULT_SILENT_TOKEN_RETRY_COUNT
                (baseUrl arg ++ js "/oauth/token") (timeout arg) l worker
                VUndefined VUndefined h0)
      as (tr & signals & Htr & Hreq & _ & Hlen & Hne & _).
    { cbn. rewrite lookup_insert_eq. by eexists. }
    destruct (attempts _ _ _ _ _ _ _ _) as [[fetchError response] h'].
    cbn [snd] in *. replace (calls_between h h') with tr.
    + exists signals. split.
      * rewrite Hreq. unfold props_at. cbn. by rewrite lookup_insert_eq.
      * split; [|exact Hlen]. specialize (Hne ltac:(done)).
        destruct signals; [done|cbn; lia].
    + symmetry. by apply calls_between_app.
Qed.

(** A response whose body is the JSON value [null] cannot be destructured:
    [getJSON] throws a TypeError after that one attempt, whether the
    response is ok or not. A body that is a number or a boolean has no
    properties: when the response is ok, [getJSON] returns the empty
    object. *)
Theorem getJSON_body_not_an_object url timeout options h rest :
  (forall ok,
     network h = FetchResponse ok (Return VNull) :: rest ->
     fst (getJSON url timeout options None h) = Throw TypeError)
  /\ (forall body,
       network h = FetchResponse true (Return body) :: rest ->
       match body with VNumber _ | VBool _ => True | _ => False end ->
       fst (getJSON url timeout options None h) = Return ∅).
Proof.
  assert (Hr : forall ok body,
            network h = FetchResponse ok (Return body) :: rest ->
            fst (getJSON url timeout options None h)
            = interpret url VNull
                (VObj (<[js "ok" := VBool ok]> {[js "json" := body]}))).
  { intros ok body Hnet.
    rewrite (getJSON_first _ _ _ _ _
               (VObj (<[js "ok" := VBool ok]> {[js "json" := body]}))); [done|].
    unfold event. by rewrite Hnet. }
  split.
  - intros ok Hnet. by rewrite (Hr ok VNull Hnet).
  - intros body Hnet Hbody. rewrite (Hr true body Hnet).
    destruct body; try done; vm_compute; reflexivity.
Qed.

(** The theorem at a 200 response with the body [null]. *)
Lemma getJSON_body_not_an_object_witness :
  fst (getJSON (js "u") None 5 None
         (Host {[5%nat := ∅]} [FetchResponse true (Return VNull)] []))
  = Throw TypeError.
Proof.
  apply (proj1 (getJSON_body_not_an_object (js "u") None 5
                  (Host {[5%nat := ∅]} [FetchResponse true (Return VNull)] []) [])
           true).
  reflexivity.
Defined.

End TokenProps.

(** ** The iframe and popup launchers *)

Module AuthProps.
Import Constants Auth.

(** *** Fresh identities *)

Lemma fresh_timer_ne (w : window) (tid : nat) :
  tid ∈ issued w -> fresh (timer_ids w) <> tid.
Proof.
  intros Hin Heq. pose proof (is_fresh (timer_ids w)) as Hf.
  rewrite Heq in Hf. apply Hf. unfold timer_ids. set_solver.
Qed.

Lemma fresh_timer_unused (w : window) : timers w !! fresh (timer_ids w) = None.
Proof.
  apply not_elem_of_dom. pose proof (is_fresh (timer_ids w)) as Hf.
  unfold timer_ids in Hf. set_solver.
Qed.

Lemma fresh_timer_not_held (w : window) (l : listener) :
  l ∈ listeners w -> timer_of l <> fresh (timer_ids w).
Proof.
  intros Hl Heq.
  assert (Hin : timer_of l ∈ timer_ids w).
  { unfold timer_ids. apply elem_of_union_r, elem_of_union_list.
    exists (listener_timers l). split; [by apply list_elem_of_fmap_2|].
    destruct l; set_solver. }
  rewrite Heq in Hin. by apply is_fresh in Hin.
Qed.

Lemma fresh_object_not_held (w : window) (l : listener) :
  l ∈ listeners w -> promise_of l <> fresh (objects w).
Proof.
  intros Hl Heq.
  assert (Hin : promise_of l ∈ objects w).
  { unfold objects. apply elem_of_union_l, elem_of_union_r, elem_of_union_list.
    exists (listener_objects l). split; [by apply list_elem_of_fmap_2|].
    destruct l; set_solver. }
  rewrite Heq in Hin. by apply is_fresh in Hin.
Qed.

(** *** One listener on one event *)

Lemma run_listener_ignored (l : listener) (e : MessageEvent) (w : window) :
  ignored l e -> run_listener l e w = (w, None).
Proof.
  destruct l as [p o t iframe|p t popup]; simpl.
  - unfold iframeEventHandler. intros [Ho|Ht].
    + by rewrite bool_decide_eq_false_2.
    + rewrite Ht. by destruct (bool_decide _).
  - unfold popupEventHandler. by intros ->.
Qed.

(** What a listener of another attempt can change. *)
Lemma run_listener_foreign (l l' : listener) (e : MessageEvent) (w : window) :
  promise_of l' <> promise_of l -> timer_of l' <> timer_of l ->
  timer_of l ∈ issued w ->
  let w' := fst (run_listener l' e w) in
  promises w' !! promise_of l = promises w !! promise_of l
  /\ timers w' !! timer_of l = timers w !! timer_of l
  /\ body w' = body w
  /\ issued w ⊆ issued w'
  /\ (forall x, x ∈ listeners w' -> x ∈ listeners w)
  /\ (forall x, x <> l' -> x ∈ listeners w -> x ∈ listeners w').
Proof.
  intros Hp Ht Hissued.
  destruct l' as [p' o' t' iframe'|p' t' popup']; cbn [promise_of timer_of] in *;
    cbn [run_listener]; unfold iframeEventHandler, popupEventHandler.
  - destruct (bool_decide (origin e = o')); cbn [negb]; [|done].
    destruct (tagged (data e)); cbn [negb]; [|done].
    destruct (response_of (data e)) as [[response error]|ex].
    + unfold setTimeout, removeEventListener, clearTimeout, settle_promise.
      set (w1 := match source e with Some s => close s w | None => w end).
      assert (Hw1 : listeners w1 = listeners w /\ timers w1 = timers w
                    /\ promises w1 = promises w /\ body w1 = body w
                    /\ issued w1 = issued w)
        by (subst w1; by destruct (source e)).
      destruct Hw1 as (Hl1 & Ht1 & Hp1 & Hb1 & Hi1).
      assert (Hfresh : forall w2, issued w2 = issued w ->
                fresh (timer_ids w2) <> timer_of l).
      { intros w2 Hw2. apply fresh_timer_ne. by rewrite Hw2. }
      destruct (truthy error);
        (destruct (promises w1 !! p') as [[| |]|] eqn:Hlook;
         cbn -[fresh]; rewrite ?Hp1, ?Ht1, ?Hb1, ?Hi1, ?Hl1;
         (split; [by rewrite ?lookup_insert_ne|]);
         (split; [rewrite lookup_insert_ne by (apply Hfresh; cbn; done);
                  by rewrite lookup_delete_ne|]);
         (split; [done|]); (split; [apply union_subseteq_r|]);
         (split; [intros x Hx; apply list_elem_of_In, filter_In in Hx as [Hx _];
                  by apply list_elem_of_In|]);
         intros x Hx Hin; apply list_elem_of_In, filter_In;
         (split; [by apply list_elem_of_In|]);
         by rewrite bool_decide_eq_false_2).
    + by destruct (source e).
  - destruct (tagged (data e)); cbn [negb]; [|done].
    unfold clearTimeout, close, settle_promise.
    destruct (response_of (data e)) as [[response error]|ex]; cbn -[fresh].
    + destruct (truthy error);
        (destruct (promises w !! p') as [[| |]|] eqn:Hlook; cbn -[fresh];
         (split; [by rewrite ?lookup_insert_ne|]);
         (split; [by rewrite lookup_delete_ne|]); done).
    + split; [done|]. split; [by rewrite lookup_delete_ne|]. done.
Qed.

(** *** Dispatching an event *)

Lemma deliver_skip (e : MessageEvent) (w : window) (l' : listener) :
  l' ∉ listeners w -> deliver e w l' = w.
Proof. intros H. unfold deliver. by rewrite bool_decide_eq_false_2. Qed.

Lemma deliver_fields (e : MessageEvent) (w : window) (l' : listener) :
  l' ∈ listeners w ->
  let w' := fst (run_listener l' e w) in
  listeners (deliver e w l') = listeners w'
  /\ timers (deliver e w l') = timers w'
  /\ promises (deliver e w l') = promises w'
  /\ body (deliver e w l') = body w'
  /\ issued (deliver e w l') = issued w'
  /\ closed (deliver e w l') = closed w'.
Proof.
  intros H. unfold deliver. rewrite bool_decide_eq_true_2 by done.
  by destruct (run_listener l' e w) as [w' [ex|]].
Qed.

Lemma isolated_shrink (l : listener) (w w' : window) :
  (forall x, x ∈ listeners w' -> x ∈ listeners w) ->
  isolated l w -> isolated l w'.
Proof. intros Hsub Hiso x Hx. apply Hiso. by apply Hsub. Qed.

Lemma deliver_foreign_in_flight l t e w l' :
  l' <> l -> in_flight l t w -> in_flight l t (deliver e w l').
Proof.
  intros Hne Hfl. destruct (decide (l' ∈ listeners w)) as [Hin|Hout];
    [|by rewrite deliver_skip].
  destruct Hfl as (Hl & Hp & Ht & Hi & Hiso).
  destruct (Hiso l' Hin Hne) as [Hp' Ht'].
  destruct (run_listener_foreign l l' e w Hp' Ht' Hi)
    as (Fp & Ft & Fb & Fi & Fsub & Fkeep).
  destruct (deliver_fields e w l' Hin) as (Dl & Dt & Dp & Db & Di & Dc).
  unfold in_flight, isolated. rewrite Dl, Dt, Dp, Di, Fp, Ft.
  split; [apply Fkeep; [by apply not_eq_sym|done]|].
  split; [done|]. split; [done|]. split; [by apply Fi|].
  intros x Hx. apply Hiso. by apply Fsub.
Qed.

Lemma deliver_foreign_finished l s e w l' :
  l' <> l -> finished l s w -> finished l s (deliver e w l').
Proof.
  intros Hne Hfin. destruct (decide (l' ∈ listeners w)) as [Hin|Hout];
    [|by rewrite deliver_skip].
  destruct Hfin as (Hp & Hs & Ht & Hi & Hiso).
  destruct (Hiso l' Hin Hne) as [Hp' Ht'].
  destruct (run_listener_foreign l l' e w Hp' Ht' Hi)
    as (Fp & Ft & Fb & Fi & Fsub & Fkeep).
  destruct (deliver_fields e w l' Hin) as (Dl & Dt & Dp & Db & Di & Dc).
  unfold finished, isolated. rewrite Dl, Dt, Dp, Di, Fp, Ft.
  split; [done|]. split; [done|]. split; [done|]. split; [by apply Fi|].
  intros x Hx. apply Hiso. by apply Fsub.
Qed.

Lemma deliver_listeners (e : MessageEvent) (w : window) (l' x : listener) :
  (x ∈ listeners (deliver e w l') -> x ∈ listeners w)
  /\ (x <> l' -> x ∈ listeners w -> x ∈ listeners (deliver e w l')).
Proof.
  destruct (decide (l' ∈ listeners w)) as [Hin|Hout];
    [|by rewrite deliver_skip].
  destruct (deliver_fields e w l' Hin) as (-> & _).
  destruct l' as [p' o' t' iframe'|p' t' popup']; cbn [run_listener];
    unfold iframeEventHandler, popupEventHandler.
  - destruct (bool_decide (origin e = o')); cbn [negb fst]; [|done].
    destruct (tagged (data e)); cbn [negb fst]; [|done].
    destruct (response_of (data e)) as [[response error]|ex].
    + unfold setTimeout, removeEventListener, clearTimeout, settle_promise.
      set (w1 := match source e with Some s => close s w | None => w end).
      assert (Hl1 : listeners w1 = listeners w) by (subst w1; by destruct (source e)).
      destruct (truthy error);
        (destruct (promises w1 !! p') as [[| |]|]; cbn -[fresh]; rewrite Hl1;
         (split; [intros Hx; apply list_elem_of_In, filter_In in Hx as [Hx _];
                  by apply list_elem_of_In|]);
         intros Hx Hin'; apply list_elem_of_In, filter_In;
         (split; [by apply list_elem_of_In|]);
         by rewrite bool_decide_eq_false_2).
    + cbn [fst]. by destruct (source e).
  - destruct (tagged (data e)); cbn [negb fst]; [|done].
    unfold clearTimeout, close, settle_promise.
    destruct (response_of (data e)) as [[response error]|ex]; cbn -[fresh];
      [|done].
    destruct (truthy error); by destruct (promises w !! p') as [[| |]|].
Qed.

Lemma deliver_body (e : MessageEvent) (w : window) (l' : listener) :
  body (deliver e w l') = body w.
Proof.
  destruct (decide (l' ∈ listeners w)) as [Hin|Hout];
    [|by rewrite deliver_skip].
  destruct (deliver_fields e w l' Hin) as (_ & _ & _ & -> & _).
  destruct l' as [p' o' t' iframe'|p' t' popup']; cbn [run_listener];
    unfold iframeEventHandler, popupEventHandler.
  - destruct (bool_decide (origin e = o')); cbn [negb fst]; [|done].
    destruct (tagged (data e)); cbn [negb fst]; [|done].
    destruct (response_of (data e)) as [[response error]|ex].
    + unfold setTimeout, removeEventListener, clearTimeout, settle_promise.
      destruct (truthy error);
        (destruct (promises _ !! p') as [[| |]|]; cbn -[fresh];
         by destruct (source e)).
    + cbn [fst]. by destruct (source e).
  - destruct (tagged (data e)); cbn [negb fst]; [|done].
    unfold clearTimeout, close, settle_promise.
    destruct (response_of (data e)) as [[response error]|ex]; cbn -[fresh];
      [|done].
    destruct (truthy error); by destruct (promises w !! p') as [[| |]|].
Qed.

Lemma dispatch_body (e : MessageEvent) (w : window) :
  body (dispatch e w) = body w.
Proof.
  unfold dispatch. generalize (listeners w) as ls. intros ls. revert w.
  induction ls as [|l' ls IH]; intros w; [done|].
  cbn [fold_left]. by rewrite IH, deliver_body.
Qed.

Lemma dispatch_ignored l t e w :
  ignored l e -> in_flight l t w -> in_flight l t (dispatch e w).
Proof.
  intros Hig. unfold dispatch. generalize (listeners w) as ls. intros ls. revert w.
  induction ls as [|l' ls IH]; intros w Hfl; [done|].
  cbn [fold_left]. apply IH.
  destruct (decide (l' = l)) as [->|Hne]; [|by apply deliver_foreign_in_flight].
  unfold deliver. destruct (bool_decide (l ∈ listeners w)); [|done].
  by rewrite run_listener_ignored.
Qed.

Lemma messages_ignored l t es w :
  Forall (ignored l) es -> in_flight l t w ->
  in_flight l t (messages es w) /\ body (messages es w) = body w.
Proof.
  intros Hes. revert w. induction Hes as [|e es He _ IH]; intros w Hfl; [done|].
  cbn [messages fold_left]. fold (messages es (dispatch e w)).
  destruct (IH (dispatch e w)) as [? ->]; [by apply dispatch_ignored|].
  by rewrite dispatch_body.
Qed.

(** *** Starting an attempt *)

Lemma runIframe_starts authorizeUrl eventOrigin timeoutInSeconds w0 :
  exists iframe tid,
    let p := fst (runIframe authorizeUrl eventOrigin timeoutInSeconds w0) in
    let w1 := snd (runIframe authorizeUrl eventOrigin timeoutInSeconds w0) in
    let l := IframeEventHandler p eventOrigin tid iframe in
    let t := (default DEFAULT_AUTHORIZE_TIMEOUT_IN_SECONDS timeoutInSeconds * 1000,
              IframeTimeout p iframe) in
    listeners w1 = listeners w0 ++ [l]
    /\ timers w1 = <[tid := t]> (timers w0)
    /\ timers w0 !! tid = None
    /\ promises w0 !! p = None
    /\ body w1 = body w0 ++ [iframe]
    /\ in_flight l t w1.
Proof.
  unfold runIframe, setTimeout, addEventListener, setAttribute.
  cbn -[fresh]. do 2 eexists.
  split; [reflexivity|]. split; [reflexivity|].
  split; [apply (fresh_timer_unused (set_elements _ (set_promises _ w0)))|].
  split.
  { apply not_elem_of_dom. intros Hin. apply (is_fresh (objects w0)).
    unfold objects. by do 4 apply elem_of_union_l. }
  split; [reflexivity|].
  unfold in_flight, isolated. cbn -[fresh].
  split; [apply elem_of_app; right; by apply list_elem_of_singleton|].
  split; [by rewrite lookup_insert_eq|].
  split; [by rewrite lookup_insert_eq|].
  split; [by apply elem_of_union_l, elem_of_singleton|].
  intros l' Hl' Hne. apply elem_of_app in Hl' as [Hl'|Hl'];
    [|by apply list_elem_of_singleton in Hl'].
  split; [by apply fresh_object_not_held|].
  by apply (fresh_timer_not_held (set_elements _ (set_promises _ w0))).
Qed.

Lemma runPopup_starts authorizeUrl config w0 (handle : nat) :
  (popup config = Some handle
   \/ (popup config = None /\ window_open w0 = Some handle)) ->
  exists p tid w1,
    let l := PopupEventHandler p tid handle in
    let seconds :=
      match timeoutInSeconds config with
      | Some 0 | None => DEFAULT_AUTHORIZE_TIMEOUT_IN_SECONDS
      | Some s => s
      end in
    let t := (seconds * 1000, PopupTimeout p handle) in
    runPopup authorizeUrl config w0 = (Return p, w1)
    /\ listeners w1 = listeners w0 ++ [l]
    /\ timers w1 = <[tid := t]> (timers w0)
    /\ timers w0 !! tid = None
    /\ promises w0 !! p = None
    /\ closed w1 = closed w0
    /\ in_flight l t w1.
Proof.
  intros Hpopup. unfold runPopup, openPopup.
  set (w0' := set_locations (insert handle authorizeUrl) w0).
  assert (Hrun : match popup config with
                 | Some popup0 =>
                   (Some popup0, set_locations (insert popup0 authorizeUrl) w0)
                 | None =>
                   match window_open w0 with
                   | Some popup0 =>
                     (Some popup0, set_locations (insert popup0 authorizeUrl) w0)
                   | None => (None, w0)
                   end
                 end = (Some handle, w0')).
  { destruct Hpopup as [->|[-> ->]]; reflexivity. }
  rewrite Hrun.
  unfold setTimeout, addEventListener. cbn -[fresh]. do 3 eexists.
  split; [reflexivity|]. cbn -[fresh].
  split; [reflexivity|]. split; [reflexivity|].
  split; [apply (fresh_timer_unused (set_promises _ w0'))|].
  split.
  { apply not_elem_of_dom. intros Hin. apply (is_fresh (objects w0')).
    unfold objects. by do 4 apply elem_of_union_l. }
  split; [reflexivity|].
  unfold in_flight, isolated. cbn -[fresh].
  split; [apply elem_of_app; right; by apply list_elem_of_singleton|].
  split; [by rewrite lookup_insert_eq|].
  split; [by rewrite lookup_insert_eq|].
  split; [by apply elem_of_union_l, elem_of_singleton|].
  intros l' Hl' Hne. apply elem_of_app in Hl' as [Hl'|Hl'];
    [|by apply list_elem_of_singleton in Hl'].
  split; [by apply (fresh_object_not_held w0')|].
  by apply (fresh_timer_not_held (set_promises _ w0')).
Qed.

(** *** The timeout fires *)

Lemma iframe_timeout_fires p o tid iframe ms w :
  in_flight (IframeEventHandler p o tid iframe) (ms, IframeTimeout p iframe) w ->
  let w' := fire_timer tid w in
  promises w' !! p = Some (RejectedWith (VObj TIMEOUT_ERROR))
  /\ (iframe ∉ body w')
  /\ timers w' !! tid = None
  /\ listeners w' = listeners w
  /\ closed w' = closed w.
Proof.
  intros (Hl & Hp & Ht & Hi & Hiso). cbn [promise_of timer_of] in *.
  unfold fire_timer. rewrite Ht. cbn [run_callback].
  unfold settle_promise, removeIframe. cbn. rewrite Hp. cbn.
  destruct (bool_decide (iframe ∈ body w)) eqn:Hin; cbn.
  - split; [by rewrite lookup_insert_eq|]. split; [|by rewrite lookup_delete_eq].
    intros Hx. apply list_elem_of_In, filter_In in Hx as [_ Hx].
    by rewrite bool_decide_eq_true_2 in Hx.
  - split; [by rewrite lookup_insert_eq|]. split; [|by rewrite lookup_delete_eq].
    by apply bool_decide_eq_false_1 in Hin.
Qed.

Lemma popup_timeout_fires p tid handle ms w :
  in_flight (PopupEventHandler p tid handle) (ms, PopupTimeout p handle) w ->
  let w' := fire_timer tid w in
  promises w' !! p
  = Some (RejectedWith (VObj (<[js "popup" := VRef handle]> TIMEOUT_ERROR)))
  /\ timers w' !! tid = None
  /\ listeners w' = listeners w
  /\ closed w' = closed w.
Proof.
  intros (Hl & Hp & Ht & Hi & Hiso). cbn [promise_of timer_of] in *.
  unfold fire_timer. rewrite Ht. cbn [run_callback].
  unfold settle_promise. cbn. rewrite Hp. cbn.
  split; [by rewrite lookup_insert_eq|]. by rewrite lookup_delete_eq.
Qed.

(** *** An accepted message *)

Lemma settlement_settled response error : settlement response error <> Unsettled.
Proof. unfold settlement. by destruct (truthy error). Qed.

Lemma iframe_accepts p o tid iframe e response error t w :
  let l := IframeEventHandler p o tid iframe in
  accepted l e response error -> in_flight l t w ->
  let w' := fst (run_listener l e w) in
  snd (run_listener l e w) = None
  /\ finished l (settlement response error) w'
  /\ (l ∉ listeners w').
Proof.
  intros l. subst l. intros (Ho & Htag & Hresp) (Hl & Hp & Ht & Hi & Hiso).
  cbn [promise_of timer_of] in *. cbn [run_listener].
  unfold iframeEventHandler. rewrite bool_decide_eq_true_2 by done.
  rewrite Htag, Hresp. cbn [negb].
  unfold setTimeout, removeEventListener, clearTimeout, settle_promise, settlement.
  set (w1 := match source e with Some s => close s w | None => w end).
  assert (Hw1 : listeners w1 = listeners w /\ timers w1 = timers w
                /\ promises w1 = promises w /\ issued w1 = issued w)
    by (subst w1; by destruct (source e)).
  destruct Hw1 as (Hl1 & Ht1 & Hp1 & Hi1).
  assert (Hfresh : forall w2, issued w2 = issued w -> fresh (timer_ids w2) <> tid).
  { intros w2 Hw2. apply fresh_timer_ne. by rewrite Hw2. }
  destruct (truthy error); rewrite Hp1, Hp; cbn -[fresh];
    rewrite ?Hl1, ?Ht1, ?Hi1.

  all: split; [done|].
  all: split; [|
      intros Hx; apply list_elem_of_In, filter_In in Hx as [_ Hx];
      by rewrite bool_decide_eq_true_2 in Hx].
  all: unfold finished, isolated; cbn -[fresh]; rewrite ?Hl1, ?Ht1, ?Hi1.
  all: split; [by rewrite lookup_insert_eq|].
  all: split; [done|].
  all: split; [rewrite lookup_insert_ne by (apply Hfresh; cbn; done);
             by rewrite lookup_delete_eq|].
  all: split; [by apply elem_of_union_r|].
  all: intros l' Hl' Hne; apply Hiso; [|done].
  all: apply list_elem_of_In, filter_In in Hl' as [Hl' _].
  all: by apply list_elem_of_In.
Qed.

Lemma popup_accepts p tid handle e response error t w :
  let l := PopupEventHandler p tid handle in
  accepted l e response error ->
  in_flight l t w \/ finished l (settlement response error) w ->
  let w' := fst (run_listener l e w) in
  snd (run_listener l e w) = None
  /\ finished l (settlement response error) w'
  /\ listeners w' = listeners w
  /\ handle ∈ closed w'.
Proof.
  intros l. subst l. intros (_ & Htag & Hresp) Hstate. cbn [run_listener].
  unfold popupEventHandler. rewrite Htag, Hresp. cbn [negb].
  unfold clearTimeout, close, settle_promise, settlement in *.
  assert (Hclosed : handle ∈ closed w ++ [handle]).
  { apply elem_of_app. right. by apply list_elem_of_singleton. }
  destruct Hstate as [(Hl & Hp & Ht & Hi & Hiso)|(Hp & Hs & Ht & Hi & Hiso)];
    cbn [promise_of timer_of] in *.
  - destruct (truthy error); cbn; rewrite Hp; cbn;
      (split; [done|]); (split; [|done]);
      unfold finished, isolated; cbn;
      (split; [by rewrite lookup_insert_eq|]); (split; [done|]);
      (split; [by rewrite lookup_delete_eq|]); done.
  - destruct (truthy error); cbn; rewrite Hp; cbn;
      (split; [done|]); (split; [|done]);
      unfold finished, isolated; cbn;
      (split; [done|]); (split; [done|]);
      (split; [by rewrite lookup_delete_eq|]); done.
Qed.

Lemma deliver_own (e : MessageEvent) (w : window) (l : listener) :
  l ∈ listeners w -> snd (run_listener l e w) = None ->
  deliver e w l = fst (run_listener l e w).
Proof.
  intros Hl Hnone. unfold deliver. rewrite bool_decide_eq_true_2 by done.
  destruct (run_listener l e w) as [w' [ex|]]; [done|reflexivity].
Qed.

Lemma deliver_closed (e : MessageEvent) (w : window) (l' : listener) (x : nat) :
  x ∈ closed w -> x ∈ closed (deliver e w l').
Proof.
  intros Hx. destruct (decide (l' ∈ listeners w)) as [Hin|Hout];
    [|by rewrite deliver_skip].
  destruct (deliver_fields e w l' Hin) as (_ & _ & _ & _ & _ & ->).
  destruct l' as [p' o' t' iframe'|p' t' popup']; cbn [run_listener];
    unfold iframeEventHandler, popupEventHandler.
  - destruct (bool_decide (origin e = o')); cbn [negb fst]; [|done].
    destruct (tagged (data e)); cbn [negb fst]; [|done].
    assert (Hx1 : x ∈ closed (match source e with
                              | Some s => close s w
                              | None => w
                              end)).
    { destruct (source e); [|done]. cbn. apply elem_of_app. by left. }
    destruct (response_of (data e)) as [[response error]|ex]; [|done].
    unfold setTimeout, removeEventListener, clearTimeout, settle_promise.
    destruct (truthy error);
      by destruct (promises _ !! p') as [[| |]|].
  - destruct (tagged (data e)); cbn [negb fst]; [|done].
    unfold clearTimeout, close, settle_promise.
    assert (Hx1 : x ∈ closed w ++ [popup']) by (apply elem_of_app; by left).
    destruct (response_of (data e)) as [[response error]|ex]; cbn -[fresh];
      [|done].
    destruct (truthy error); by destruct (promises w !! p') as [[| |]|].
Qed.

Lemma fold_iframe_accepted p o tid iframe e response error t ls w :
  let l := IframeEventHandler p o tid iframe in
  accepted l e response error ->
  (in_flight l t w /\ l ∈ ls)
  \/ (finished l (settlement response error) w /\ (l ∉ listeners w)) ->
  finished l (settlement response error) (fold_left (deliver e) ls w)
  /\ (l ∉ listeners (fold_left (deliver e) ls w)).
Proof.
  intros l Hacc. revert w. induction ls as [|l' ls IH]; intros w Hstate.
  - destruct Hstate as [[_ Hin]|Hfin]; [by apply elem_of_nil in Hin|done].
  - cbn [fold_left]. apply IH.
    destruct Hstate as [[Hfl Hin]|[Hfin Hout]].
    + destruct (decide (l' = l)) as [->|Hne].
      * right.
        destruct (iframe_accepts p o tid iframe e response error t w Hacc Hfl)
          as (Hnone & Hfin & Hout).
        rewrite deliver_own; [done|by destruct Hfl|done].
      * left. split; [by apply deliver_foreign_in_flight|].
        apply elem_of_cons in Hin as [Hin|Hin]; [by subst|done].
    + right. destruct (decide (l' = l)) as [->|Hne].
      * by rewrite deliver_skip.
      * split; [by apply deliver_foreign_finished|].
        intros Hin. by apply deliver_listeners in Hin.
Qed.

Lemma dispatch_iframe_accepted p o tid iframe e response error t w :
  let l := IframeEventHandler p o tid iframe in
  accepted l e response error -> in_flight l t w ->
  finished l (settlement response error) (dispatch e w)
  /\ (l ∉ listeners (dispatch e w)).
Proof.
  intros l Hacc Hfl. unfold dispatch.
  apply (fold_iframe_accepted p o tid iframe e response error t); [done|].
  left. split; [done|]. by destruct Hfl.
Qed.

Lemma dispatch_iframe_finished l s e w :
  finished l s w -> l ∉ listeners w ->
  finished l s (dispatch e w) /\ (l ∉ listeners (dispatch e w)).
Proof.
  unfold dispatch. generalize (listeners w) at 2 3 as ls. intros ls. revert w.
  induction ls as [|l' ls IH]; intros w Hfin Hout; [done|].
  cbn [fold_left]. destruct (decide (l' = l)) as [->|Hne].
  - rewrite deliver_skip by done. by apply IH.
  - apply IH; [by apply deliver_foreign_finished|].
    intros Hin. by apply deliver_listeners in Hin.
Qed.

Lemma fold_popup_accepted p tid handle e response error t ls w :
  let l := PopupEventHandler p tid handle in
  accepted l e response error ->
  (in_flight l t w /\ l ∈ ls)
  \/ (finished l (settlement response error) w
      /\ l ∈ listeners w /\ handle ∈ closed w) ->
  finished l (settlement response error) (fold_left (deliver e) ls w)
  /\ l ∈ listeners (fold_left (deliver e) ls w)
  /\ handle ∈ closed (fold_left (deliver e) ls w).
Proof.
  intros l Hacc. revert w. induction ls as [|l' ls IH]; intros w Hstate.
  - destruct Hstate as [[_ Hin]|Hfin]; [by apply elem_of_nil in Hin|done].
  - cbn [fold_left]. apply IH.
    destruct (decide (l' = l)) as [->|Hne].
    + right.
      assert (Hin : l ∈ listeners w).
      { destruct Hstate as [[Hfl _]|(_ & Hin & _)]; [by destruct Hfl|done]. }
      destruct (popup_accepts p tid handle e response error t w Hacc)
        as (Hnone & Hfin & Hls & Hcl).
      { destruct Hstate as [[Hfl _]|[Hfin _]]; [by left|by right]. }
      rewrite deliver_own by done. split; [done|]. split; [|done].
      unfold l. by rewrite Hls.
    + destruct Hstate as [[Hfl Hin]|(Hfin & Hin & Hcl)].
      * left. split; [by apply deliver_foreign_in_flight|].
        apply elem_of_cons in Hin as [Hin|Hin]; [by subst|done].
      * right. split; [by apply deliver_foreign_finished|].
        split; [|by apply deliver_closed].
        apply deliver_listeners; [by apply not_eq_sym|done].
Qed.

Lemma dispatch_popup_accepted p tid handle e response error t w :
  let l := PopupEventHandler p tid handle in
  accepted l e response error -> in_flight l t w ->
  finished l (settlement response error) (dispatch e w)
  /\ l ∈ listeners (dispatch e w)
  /\ handle ∈ closed (dispatch e w).
Proof.
  intros l Hacc Hfl. unfold dispatch.
  apply (fold_popup_accepted p tid handle e response error t); [done|].
  left. split; [done|]. by destruct Hfl.
Qed.

Lemma messages_only_listener l es w :
  listeners w = [l] -> Forall (ignored l) es -> messages es w = w.
Proof.
  intros Hl. induction 1 as [|e es He _ IH]; [done|].
  cbn [messages fold_left]. fold (messages es (dispatch e w)).
  assert (Hd : dispatch e w = w).
  { unfold dispatch. rewrite Hl. cbn [fold_left]. unfold deliver.
    destruct (bool_decide (l ∈ listeners w)); [|done].
    by rewrite run_listener_ignored. }
  by rewrite Hd.
Qed.

(** *** The claims *)

(** C9. After [runIframe] has started an attempt, message events whose
    origin is not the expected one, or whose payload is not tagged
    [authorization_response], leave the attempt as it was: the promise is
    neither resolved nor rejected, the iframe is still in the document, the
    listener is still registered and the timeout still pending - whatever
    other listeners the window has. The handler itself returns at once on
    such an event, changing nothing and throwing nothing; when it is the only
    listener the whole window state is unchanged. *)
Theorem runIframe_ignores_unrelated_messages
    authorizeUrl eventOrigin timeoutInSeconds w0 (es : list MessageEvent) :
  Forall (fun e => origin e <> eventOrigin \/ tagged (data e) = false) es ->
  let p := fst (runIframe authorizeUrl eventOrigin timeoutInSeconds w0) in
  let w1 := snd (runIframe authorizeUrl eventOrigin timeoutInSeconds w0) in
  let w := messages es w1 in
  exists iframe tid,
    let l := IframeEventHandler p eventOrigin tid iframe in
    let t := (default DEFAULT_AUTHORIZE_TIMEOUT_IN_SECONDS timeoutInSeconds * 1000,
              IframeTimeout p iframe) in
    (in_flight l t w1 /\ iframe ∈ body w1)
    /\ promises w !! p = Some Unsettled
    /\ iframe ∈ body w
    /\ l ∈ listeners w
    /\ timers w !! tid = Some t
    /\ Forall (fun e => forall w', run_listener l e w' = (w', None)) es
    /\ (listeners w0 = [] -> w = w1).
Proof.
  intros Hes. cbv zeta.
  destruct (runIframe_starts authorizeUrl eventOrigin timeoutInSeconds w0)
    as (iframe & tid & Hls & Htm & Hfree & Hnew & Hbody & Hfl).
  cbv zeta in *. exists iframe, tid.
  assert (Hin : iframe ∈ body (runIframe authorizeUrl eventOrigin timeoutInSeconds w0).2).
  { rewrite Hbody. apply elem_of_app. right. by apply list_elem_of_singleton. }
  set (l := IframeEventHandler
              (runIframe authorizeUrl eventOrigin timeoutInSeconds w0).1
              eventOrigin tid iframe) in *.
  assert (Hes' : Forall (ignored l) es) by exact Hes.
  destruct (messages_ignored _ _ es _ Hes' Hfl) as [(Hl & Hp & Ht & Hi & Hiso) Hb].
  split; [done|]. split; [done|]. split; [by rewrite Hb|].
  split; [done|]. split; [done|]. split.
  - eapply Forall_impl; [exact Hes'|]. intros e He w'.
    by apply run_listener_ignored.
  - intros Hnone. apply (messages_only_listener l); [|done].
    by rewrite Hls, Hnone.
Qed.

(** The theorem on a fresh page, for a message from another origin. *)
Lemma runIframe_ignores_unrelated_messages_witness :
  let e := {| origin := js "https://evil.example";
              data := VObj {[js "type" := VStr (js "authorization_response")]};
              source := None |} in
  let r := runIframe (js "https://tenant/authorize") (js "https://tenant") None
             (fresh_page None) in
  promises (messages [e] (snd r)) !! fst r = Some Unsettled.
Proof.
  cbv zeta.
  destruct (runIframe_ignores_unrelated_messages
              (js "https://tenant/authorize") (js "https://tenant") None
              (fresh_page None)
              [{| origin := js "https://evil.example";
                  data := VObj {[js "type" := VStr (js "authorization_response")]};
                  source := None |}])
    as (iframe & tid & _ & H & _).
  - constructor; [|constructor]. left. vm_compute. discriminate.
  - exact H.
Defined.

(** C5, as stated, fails for the popup: when the timeout of [runPopup]
    fires, the attempt is rejected with the popup handle attached, but the
    popup is not closed. *)
Lemma popup_timeout_leaves_popup_open :
  let config := {| popup := Some 7%nat; timeoutInSeconds := None |} in
  let w1 := snd (runPopup (js "https://tenant/authorize") config (fresh_page None)) in
  let w' := fire_timer 0 w1 in
  promises w' !! 0%nat
  = Some (RejectedWith (VObj (<[js "popup" := VRef 7]> TIMEOUT_ERROR)))
  /\ closed w' = []
  /\ (7%nat ∉ closed w').
Proof.
  cbv zeta. split; [vm_compute; reflexivity|].
  split; [vm_compute; reflexivity|].
  replace (closed _) with (@nil nat) by (vm_compute; reflexivity).
  apply not_elem_of_nil.
Qed.

(** C5, amended. If the timeout fires before any accepted message (ignored
    messages may have arrived): the attempt of [runIframe], whose timer was
    armed with the configured number of seconds times 1000, is rejected with
    [{error: 'timeout', error_description: 'Timeout'}] and its iframe is
    removed from the document; the attempt of [runPopup] is rejected with
    that error object extended with the popup handle, and the timeout
    callback closes no window - the popup stays open, for the caller to
    close. *)
Theorem timeout_rejects authorizeUrl w0 (es : list MessageEvent) :
  (forall eventOrigin timeoutInSeconds,
     Forall (fun e => origin e <> eventOrigin \/ tagged (data e) = false) es ->
     let p := fst (runIframe authorizeUrl eventOrigin timeoutInSeconds w0) in
     let w1 := snd (runIframe authorizeUrl eventOrigin timeoutInSeconds w0) in
     exists iframe tid,
       let w := messages es w1 in
       let w' := fire_timer tid w in
       timers w1 !! tid
       = Some (default DEFAULT_AUTHORIZE_TIMEOUT_IN_SECONDS timeoutInSeconds * 1000,
               IframeTimeout p iframe)
       /\ iframe ∈ body w
       /\ promises w' !! p = Some (RejectedWith (VObj TIMEOUT_ERROR))
       /\ (iframe ∉ body w'))
  /\ (forall config handle,
       popup config = Some handle
       \/ (popup config = None /\ window_open w0 = Some handle) ->
       Forall (fun e => tagged (data e) = false) es ->
       exists p tid w1,
         let w := messages es w1 in
         let w' := fire_timer tid w in
         runPopup authorizeUrl config w0 = (Return p, w1)
         /\ (exists ms, timers w1 !! tid = Some (ms, PopupTimeout p handle))
         /\ promises w' !! p
            = Some (RejectedWith (VObj (<[js "popup" := VRef handle]> TIMEOUT_ERROR)))
         /\ closed w' = closed w)
  /\ TIMEOUT_ERROR
     = <[js "error" := VStr (js "timeout")]>
         {[js "error_description" := VStr (js "Timeout")]}.
Proof.
  split; [|split; [|reflexivity]].
  - intros eventOrigin timeoutInSeconds Hes. cbv zeta.
    destruct (runIframe_starts authorizeUrl eventOrigin timeoutInSeconds w0)
      as (iframe & tid & Hls & Htm & Hfree & Hnew & Hbody & Hfl).
    cbv zeta in *. exists iframe, tid.
    set (l := IframeEventHandler
                (runIframe authorizeUrl eventOrigin timeoutInSeconds w0).1
                eventOrigin tid iframe) in *.
    assert (Hes' : Forall (ignored l) es) by exact Hes.
    destruct (messages_ignored _ _ es _ Hes' Hfl) as [Hfl' Hb].
    destruct (iframe_timeout_fires _ _ _ _ _ _ Hfl') as (Hp & Hout & _).
    split; [by destruct Hfl as (_ & _ & ? & _)|].
    split; [|done]. rewrite Hb, Hbody. apply elem_of_app. right.
    by apply list_elem_of_singleton.
  - intros config handle Hpopup Hes.
    destruct (runPopup_starts authorizeUrl config w0 handle Hpopup)
      as (p & tid & w1 & Hrun & Hls & Htm & Hfree & Hnew & Hcl & Hfl).
    cbv zeta in *. exists p, tid, w1.
    assert (Hes' : Forall (ignored (PopupEventHandler p tid handle)) es) by exact Hes.
    destruct (messages_ignored _ _ es _ Hes' Hfl) as [Hfl' Hb].
    destruct (popup_timeout_fires _ _ _ _ _ Hfl') as (Hp & _ & _ & Hc).
    split; [done|]. split; [|done].
    destruct Hfl as (_ & _ & Ht & _). by eexists.
Qed.

(** The theorem for [runIframe] on a fresh page, with no message before the
    timeout. *)
Lemma timeout_rejects_witness :
  let r := runIframe (js "https://tenant/authorize") (js "https://tenant") None
             (fresh_page None) in
  exists tid,
    promises (fire_timer tid (snd r)) !! fst r
    = Some (RejectedWith (VObj TIMEOUT_ERROR)).
Proof.
  cbv zeta.
  destruct (proj1 (timeout_rejects (js "https://tenant/authorize") (fresh_page None) [])
              (js "https://tenant") None (List.Forall_nil _))
    as (iframe & tid & _ & _ & H & _).
  by exists tid.
Defined.

(** C3, as stated, fails for the popup: after an accepted message has
    settled the attempt of [runPopup] (and cleared its timer), the message
    listener is still registered. *)
Lemma popup_listener_stays_registered :
  let config := {| popup := Some 7%nat; timeoutInSeconds := None |} in
  let e := {| origin := js "https://tenant";
              data := VObj (<[js "type" := VStr (js "authorization_response")]>
                              {[js "response" := VObj {[js "code" := VStr (js "c")]}]});
              source := None |} in
  let w1 := snd (runPopup (js "https://tenant/authorize") config (fresh_page None)) in
  let w := dispatch e w1 in
  promises w !! 0%nat = Some (Fulfilled (VObj {[js "code" := VStr (js "c")]}))
  /\ timers w = ∅
  /\ listeners w = [PopupEventHandler 0 0 7].
Proof.
  cbv zeta. split; [vm_compute; reflexivity|]. split; vm_compute; reflexivity.
Qed.

(** C3, amended. Each attempt registers exactly one message listener and
    arms exactly one timeout when it starts. For [runIframe], the first
    accepted message settles the promise and, in the same dispatch, clears
    the timeout and detaches the listener, so that a later message can
    neither settle the promise again nor find the listener. For [runPopup],
    the first accepted message settles the promise, clears the timeout and
    closes the popup, but the listener stays registered; it also stays
    registered when the timeout fires. (What happens to the listener of
    [runIframe] when its timeout fires is not part of this statement.) *)
Theorem attempt_teardown authorizeUrl w0 (es : list MessageEvent)
    (e later : MessageEvent) (response error : value) :
  (forall eventOrigin timeoutInSeconds,
     let p := fst (runIframe authorizeUrl eventOrigin timeoutInSeconds w0) in
     let w1 := snd (runIframe authorizeUrl eventOrigin timeoutInSeconds w0) in
     exists iframe tid t,
       let l := IframeEventHandler p eventOrigin tid iframe in
       let w := dispatch e (messages es w1) in
       listeners w1 = listeners w0 ++ [l]
       /\ timers w1 = <[tid := t]> (timers w0)
       /\ timers w0 !! tid = None
       /\ (Forall (ignored l) es -> accepted l e response error ->
           promises w !! p = Some (settlement response error)
           /\ timers w !! tid = None
           /\ (l ∉ listeners w)
           /\ promises (dispatch later w) !! p = Some (settlement response error)
           /\ (l ∉ listeners (dispatch later w))))
  /\ (forall config handle,
       popup config = Some handle
       \/ (popup config = None /\ window_open w0 = Some handle) ->
       exists p tid t w1,
         let l := PopupEventHandler p tid handle in
         let w := dispatch e (messages es w1) in
         runPopup authorizeUrl config w0 = (Return p, w1)
         /\ listeners w1 = listeners w0 ++ [l]
         /\ timers w1 = <[tid := t]> (timers w0)
         /\ timers w0 !! tid = None
         /\ (Forall (ignored l) es -> accepted l e response error ->
             promises w !! p = Some (settlement response error)
             /\ timers w !! tid = None
             /\ handle ∈ closed w
             /\ l ∈ listeners w)
         /\ (Forall (ignored l) es ->
             timers (fire_timer tid (messages es w1)) !! tid = None
             /\ l ∈ listeners (fire_timer tid (messages es w1)))).
Proof.
  split.
  - intros eventOrigin timeoutInSeconds. cbv zeta.
    destruct (runIframe_starts authorizeUrl eventOrigin timeoutInSeconds w0)
      as (iframe & tid & Hls & Htm & Hfree & Hnew & Hbody & Hfl).
    cbv zeta in *. exists iframe, tid. eexists.
    split; [exact Hls|]. split; [exact Htm|]. split; [exact Hfree|].
    intros Hes Hacc.
    destruct (messages_ignored _ _ es _ Hes Hfl) as [Hfl' _].
    destruct (dispatch_iframe_accepted _ _ _ _ _ _ _ _ _ Hacc Hfl') as [Hfin Hout].
    destruct (dispatch_iframe_finished _ _ later _ Hfin Hout) as [Hfin' Hout'].
    destruct Hfin as (Hp & _ & Ht & _). destruct Hfin' as (Hp' & _).
    done.
  - intros config handle Hpopup.
    destruct (runPopup_starts authorizeUrl config w0 handle Hpopup)
      as (p & tid & w1 & Hrun & Hls & Htm & Hfree & Hnew & Hcl & Hfl).
    cbv zeta in *. exists p, tid. eexists. exists w1.
    split; [exact Hrun|]. split; [exact Hls|]. split; [exact Htm|].
    split; [exact Hfree|]. split.
    + intros Hes Hacc.
      destruct (messages_ignored _ _ es _ Hes Hfl) as [Hfl' _].
      destruct (dispatch_popup_accepted _ _ _ _ _ _ _ _ Hacc Hfl')
        as ((Hp & _ & Ht & _) & Hin & Hclosed).
      done.
    + intros Hes.
      destruct (messages_ignored _ _ es _ Hes Hfl) as [Hfl' _].
      destruct (popup_timeout_fires _ _ _ _ _ Hfl') as (_ & Ht & Hl & _).
      split; [done|]. rewrite Hl. by destruct Hfl'.
Qed.

(** The theorem for [runIframe] on a fresh page, at a message that carries
    an authorization code. *)
Lemma attempt_teardown_witness :
  let e := {| origin := js "https://tenant";
              data := VObj (<[js "type" := VStr (js "authorization_response")]>
                              {[js "response" := VObj {[js "code" := VStr (js "c")]}]});
              source := None |} in
  let r := runIframe (js "https://tenant/authorize") (js "https://tenant") None
             (fresh_page None) in
  promises (dispatch e (snd r)) !! fst r
  = Some (Fulfilled (VObj {[js "code" := VStr (js "c")]})).
Proof.
  cbv zeta.
  destruct (proj1 (attempt_teardown (js "https://tenant/authorize") (fresh_page None) []
              {| origin := js "https://tenant";
                 data := VObj (<[js "type" := VStr (js "authorization_response")]>
                                 {[js "response" := VObj {[js "code" := VStr (js "c")]}]});
                 source := None |}
              {| origin := js "https://tenant"; data := VNull; source := None |}
              (VObj {[js "code" := VStr (js "c")]}) VUndefined)
              (js "https://tenant") None)
    as (iframe & tid & t & _ & _ & _ & H).
  destruct H as (H & _).
  - constructor.
  - split; [reflexivity|]. split; vm_compute; reflexivity.
  - exact H.
Defined.

(** *** The delayed removal of the iframe *)

Lemma iframe_accepts_cleanup p o tid iframe e response error t w :
  let l := IframeEventHandler p o tid iframe in
  accepted l e response error -> in_flight l t w ->
  exists id, cleanup_pending p iframe id (fst (run_listener l e w)).
Proof.
  intros l. subst l. intros (Ho & Htag & Hresp) (Hl & Hp & Ht & Hi & Hiso).
  cbn [promise_of timer_of] in *. cbn [run_listener].
  unfold iframeEventHandler. rewrite bool_decide_eq_true_2 by done.
  rewrite Htag, Hresp. cbn [negb].
  set (w1 := match source e with Some s => close s w | None => w end).
  assert (Hl1 : listeners w1 = listeners w) by (subst w1; by destruct (source e)).
  set (w2 := removeEventListener _ (clearTimeout tid _)).
  assert (Hl2 : listeners w2
                = List.filter
                    (fun l' => negb (bool_decide
                                       (l' = IframeEventHandler p o tid iframe)))
                    (listeners w)).
  { subst w2. unfold removeEventListener, clearTimeout, settle_promise.
    destruct (truthy error); destruct (promises w1 !! p) as [[| |]|];
      cbn; by rewrite Hl1. }
  clearbody w2. exists (fresh (timer_ids w2)).
  unfold setTimeout, cleanup_pending. cbn -[fresh].
  split; [by rewrite lookup_insert_eq|].
  split; [by apply elem_of_union_l, elem_of_singleton|].
  intros x Hx. split.
  - rewrite Hl2 in Hx. apply list_elem_of_In, filter_In in Hx as [Hx Hne].
    apply negb_true_iff, bool_decide_eq_false_1 in Hne.
    by apply (Hiso x); [apply list_elem_of_In|].
  - by apply fresh_timer_not_held.
Qed.

Lemma deliver_cleanup p iframe id e w l' :
  cleanup_pending p iframe id w -> cleanup_pending p iframe id (deliver e w l').
Proof.
  intros (Ht & Hi & Hls). destruct (decide (l' ∈ listeners w)) as [Hin|Hout];
    [|by rewrite deliver_skip].
  destruct (Hls l' Hin) as [Hp' Ht'].
  destruct (run_listener_foreign (PopupEventHandler p id 0) l' e w Hp' Ht' Hi)
    as (_ & Ft & _ & Fi & Fsub & _).
  destruct (deliver_fields e w l' Hin) as (Dl & Dt & _ & _ & Di & _).
  unfold cleanup_pending. rewrite Dl, Dt, Di. cbn [timer_of] in Ft. rewrite Ft.
  split; [done|]. split; [by apply Fi|]. intros x Hx. by apply Hls, Fsub.
Qed.

Lemma fold_iframe_cleanup p o tid iframe e response error t ls w :
  let l := IframeEventHandler p o tid iframe in
  accepted l e response error ->
  (in_flight l t w /\ l ∈ ls) \/ (exists id, cleanup_pending p iframe id w) ->
  exists id, cleanup_pending p iframe id (fold_left (deliver e) ls w).
Proof.
  intros l Hacc. revert w. induction ls as [|l' ls IH]; intros w Hstate.
  - destruct Hstate as [[_ Hin]|Hc]; [by apply elem_of_nil in Hin|done].
  - cbn [fold_left]. apply IH.
    destruct Hstate as [[Hfl Hin]|[id Hc]].
    + destruct (decide (l' = l)) as [->|Hne].
      * right.
        destruct (iframe_accepts p o tid iframe e response error t w Hacc Hfl)
          as (Hnone & _ & _).
        rewrite deliver_own; [|by destruct Hfl|done].
        by apply (iframe_accepts_cleanup p o tid iframe e response error t).
      * left. split; [by apply deliver_foreign_in_flight|].
        apply elem_of_cons in Hin as [Hin|Hin]; [by subst|done].
    + right. exists id. by apply deliver_cleanup.
Qed.

(** After the message that settles an attempt of [runIframe], the iframe is
    still in the document: its removal is scheduled,
    [CLEANUP_IFRAME_TIMEOUT_IN_SECONDS] later, and takes place when that
    timer fires. *)
Theorem runIframe_delayed_cleanup
    authorizeUrl eventOrigin timeoutInSeconds w0
    (es : list MessageEvent) (e : MessageEvent) (response error : value) :
  Forall (fun e => origin e <> eventOrigin \/ tagged (data e) = false) es ->
  origin e = eventOrigin -> tagged (data e) = true ->
  response_of (data e) = Return (response, error) ->
  let w1 := snd (runIframe authorizeUrl eventOrigin timeoutInSeconds w0) in
  let w := dispatch e (messages es w1) in
  exists iframe id,
    body w1 = body w0 ++ [iframe]
    /\ iframe ∈ body w
    /\ timers w !! id
       = Some (CLEANUP_IFRAME_TIMEOUT_IN_SECONDS * 1000, RemoveIframe iframe)
    /\ (iframe ∉ body (fire_timer id w)).
Proof.
  intros Hes Ho Htag Hresp. cbv zeta.
  destruct (runIframe_starts authorizeUrl eventOrigin timeoutInSeconds w0)
    as (iframe & tid & Hls & Htm & Hfree & Hnew & Hbody & Hfl).
  cbv zeta in *.
  set (p := (runIframe authorizeUrl eventOrigin timeoutInSeconds w0).1) in *.
  set (w1 := (runIframe authorizeUrl eventOrigin timeoutInSeconds w0).2) in *.
  set (l := IframeEventHandler p eventOrigin tid iframe) in *.
  assert (Hes' : Forall (ignored l) es) by exact Hes.
  destruct (messages_ignored _ _ es _ Hes' Hfl) as [Hfl' Hb].
  assert (Hacc : accepted l e response error) by done.
  destruct (fold_iframe_cleanup p eventOrigin tid iframe e response error
              (default DEFAULT_AUTHORIZE_TIMEOUT_IN_SECONDS timeoutInSeconds * 1000,
               IframeTimeout p iframe)
              (listeners (messages es w1)) (messages es w1) Hacc)
    as (id & Ht & Hi & _).
  { left. split; [done|]. by destruct Hfl'. }
  fold (dispatch e (messages es w1)) in Ht, Hi.
  exists iframe, id. split; [done|].
  assert (Hin : iframe ∈ body (dispatch e (messages es w1))).
  { rewrite dispatch_body, Hb, Hbody. apply elem_of_app. right.
    by apply list_elem_of_singleton. }
  split; [done|]. split; [done|].
  unfold fire_timer. rewrite Ht. cbn [run_callback]. unfold removeIframe. cbn.
  rewrite bool_decide_eq_true_2 by done. cbn.
  intros Hx. apply list_elem_of_In, filter_In in Hx as [_ Hx].
  by rewrite bool_decide_eq_true_2 in Hx.
Qed.

(** The theorem on a fresh page, at a message that carries an authorization
    code. *)
Lemma runIframe_delayed_cleanup_witness :
  let e := {| origin := js "https://tenant";
              data := VObj (<[js "type" := VStr (js "authorization_response")]>
                              {[js "response" := VObj {[js "code" := VStr (js "c")]}]});
              source := None |} in
  let r := runIframe (js "https://tenant/authorize") (js "https://tenant") None
             (fresh_page None) in
  exists iframe id,
    iframe ∈ body (dispatch e (snd r))
    /\ (iframe ∉ body (fire_timer id (dispatch e (snd r)))).
Proof.
  cbv zeta.
  destruct (runIframe_delayed_cleanup (js "https://tenant/authorize")
              (js "https://tenant") None (fresh_page None) []
              {| origin := js "https://tenant";
                 data := VObj (<[js "type" := VStr (js "authorization_response")]>
                                 {[js "response" := VObj {[js "code" := VStr (js "c")]}]});
                 source := None |}
              (VObj {[js "code" := VStr (js "c")]}) VUndefined)
    as (iframe & id & _ & Hin & _ & Hout).
  - constructor.
  - reflexivity.
  - vm_compute. reflexivity.
  - vm_compute. reflexivity.
  - by exists iframe, id.
Defined.

(** *** A tagged message without a response *)

Lemma deliver_foreign_stalled l e w l' :
  l' <> l -> stalled l w -> stalled l (deliver e w l').
Proof.
  intros Hne Hst. destruct (decide (l' ∈ listeners w)) as [Hin|Hout];
    [|by rewrite deliver_skip].
  destruct Hst as (Hp & Ht & Hi & Hiso).
  destruct (Hiso l' Hin Hne) as [Hp' Ht'].
  destruct (run_listener_foreign l l' e w Hp' Ht' Hi)
    as (Fp & Ft & Fb & Fi & Fsub & Fkeep).
  destruct (deliver_fields e w l' Hin) as (Dl & Dt & Dp & Db & Di & Dc).
  unfold stalled, isolated. rewrite Dl, Dt, Dp, Di, Fp, Ft.
  split; [done|]. split; [done|]. split; [by apply Fi|].
  intros x Hx. apply Hiso. by apply Fsub.
Qed.

(** The listener of [runPopup] on a tagged message whose response cannot be
    read: the timeout is cleared and the popup closed before the handler
    throws. *)
Lemma popup_unreadable p tid handle e ex t w :
  let l := PopupEventHandler p tid handle in
  tagged (data e) = true -> response_of (data e) = Throw ex ->
  l ∈ listeners w -> in_flight l t w \/ stalled l w ->
  stalled l (deliver e w l)
  /\ listeners (deliver e w l) = listeners w
  /\ handle ∈ closed (deliver e w l).
Proof.
  intros l Htag Hresp Hin Hstate.
  destruct (deliver_fields e w l Hin) as (Dl & Dt & Dp & Db & Di & Dc).
  unfold stalled, isolated. rewrite Dl, Dt, Dp, Di, Dc.
  subst l. cbn [run_listener promise_of timer_of]. unfold popupEventHandler.
  rewrite Htag, Hresp. cbn.
  assert (H : promises w !! p = Some Unsettled /\ tid ∈ issued w
              /\ isolated (PopupEventHandler p tid handle) w).
  { destruct Hstate as [(_ & ? & _ & ? & ?)|(? & _ & ? & ?)]; done. }
  destruct H as (Hp & Hi & Hiso).
  split; [|split; [done|apply elem_of_app; right; by apply list_elem_of_singleton]].
  split; [done|]. split; [by rewrite lookup_delete_eq|]. by split.
Qed.

Lemma fold_popup_unreadable p tid handle e ex t ls w :
  let l := PopupEventHandler p tid handle in
  tagged (data e) = true -> response_of (data e) = Throw ex ->
  (in_flight l t w /\ l ∈ ls)
  \/ (stalled l w /\ handle ∈ closed w) ->
  stalled l (fold_left (deliver e) ls w)
  /\ handle ∈ closed (fold_left (deliver e) ls w).
Proof.
  intros l Htag Hresp. revert w. induction ls as [|l' ls IH]; intros w Hstate.
  - destruct Hstate as [[_ Hin]|Hst]; [by apply elem_of_nil in Hin|done].
  - cbn [fold_left]. apply IH.
    destruct (decide (l' = l)) as [->|Hne].
    + right. destruct (decide (l ∈ listeners w)) as [Hin|Hout].
      * destruct (popup_unreadable p tid handle e ex t w Htag Hresp Hin)
          as (Hst & _ & Hcl); [|done].
        destruct Hstate as [[Hfl _]|[Hst _]]; [by left|by right].
      * rewrite deliver_skip by done.
        destruct Hstate as [[Hfl _]|Hst]; [by destruct Hfl|done].
    + destruct Hstate as [[Hfl Hin]|[Hst Hcl]].
      * left. split; [by apply deliver_foreign_in_flight|].
        apply elem_of_cons in Hin as [Hin|Hin]; [by subst|done].
      * right. split; [by apply deliver_foreign_stalled|by apply deliver_closed].
Qed.

(** The listener of [runIframe] on such a message throws before it settles
    or clears anything. *)
Lemma dispatch_iframe_unreadable p o tid iframe e ex t w :
  let l := IframeEventHandler p o tid iframe in
  response_of (data e) = Throw ex ->
  in_flight l t w -> in_flight l t (dispatch e w).
Proof.
  intros l Hresp. unfold dispatch. generalize (listeners w) as ls. intros ls.
  revert w. induction ls as [|l' ls IH]; intros w Hfl; [done|].
  cbn [fold_left]. apply IH.
  destruct (decide (l' = l)) as [->|Hne]; [|by apply deliver_foreign_in_flight].
  unfold deliver. destruct (bool_decide (l ∈ listeners w)); [|done].
  subst l. cbn [run_listener]. unfold iframeEventHandler.
  destruct (bool_decide (origin e = o)); cbn [negb]; [|done].
  destruct (tagged (data e)); cbn [negb]; [|done].
  rewrite Hresp. destruct Hfl as (? & ? & ? & ? & ?).
  by destruct (source e).
Qed.

(** A message tagged [authorization_response] whose [response] cannot be
    read (the payload has none, so that [e.data.response.error] throws)
    settles nothing. The attempt of [runIframe] stays as it was and will
    still end by its timeout. The listener of [runPopup] has cleared the
    timeout and closed the popup before it throws: the promise is not
    settled, and the timeout, when its time comes, no longer fires. *)
Theorem unreadable_response authorizeUrl w0 (e : MessageEvent) (ex : value) :
  tagged (data e) = true ->
  response_of (data e) = Throw ex ->
  (forall eventOrigin timeoutInSeconds,
     let p := fst (runIframe authorizeUrl eventOrigin timeoutInSeconds w0) in
     let w1 := snd (runIframe authorizeUrl eventOrigin timeoutInSeconds w0) in
     let w := dispatch e w1 in
     exists tid,
       promises w !! p = Some Unsettled
       /\ is_Some (timers w !! tid)
       /\ promises (fire_timer tid w) !! p
          = Some (RejectedWith (VObj TIMEOUT_ERROR)))
  /\ (forall config handle,
       popup config = Some handle
       \/ (popup config = None /\ window_open w0 = Some handle) ->
       exists p tid w1,
         let w := dispatch e w1 in
         runPopup authorizeUrl config w0 = (Return p, w1)
         /\ is_Some (timers w1 !! tid)
         /\ promises w !! p = Some Unsettled
         /\ timers w !! tid = None
         /\ handle ∈ closed w
         /\ fire_timer tid w = w).
Proof.
  intros Htag Hresp. split.
  - intros eventOrigin timeoutInSeconds. cbv zeta.
    destruct (runIframe_starts authorizeUrl eventOrigin timeoutInSeconds w0)
      as (iframe & tid & Hls & Htm & Hfree & Hnew & Hbody & Hfl).
    cbv zeta in *. exists tid.
    pose proof (dispatch_iframe_unreadable _ _ _ _ e ex _ _ Hresp Hfl) as Hfl'.
    destruct (iframe_timeout_fires _ _ _ _ _ _ Hfl') as (Hp & _).
    destruct Hfl' as (_ & Hp' & Ht' & _). cbn [promise_of timer_of] in *.
    split; [done|]. split; [by eexists|done].
  - intros config handle Hpopup.
    destruct (runPopup_starts authorizeUrl config w0 handle Hpopup)
      as (p & tid & w1 & Hrun & Hls & Htm & Hfree & Hnew & Hcl & Hfl).
    cbv zeta in *. exists p, tid, w1.
    edestruct (fun t => fold_popup_unreadable p tid handle e ex t (listeners w1) w1
                          Htag Hresp)
      as ((Hp & Ht & _) & Hclosed).
    { left. split; [exact Hfl|]. by destruct Hfl. }
    fold (dispatch e w1) in Hp, Ht, Hclosed. cbn [promise_of timer_of] in *.
    split; [done|].
    split; [destruct Hfl as (_ & _ & Htid & _); cbn [timer_of] in Htid; by eexists|].
    split; [done|]. split; [done|]. split; [done|].
    unfold fire_timer. by rewrite Ht.
Qed.

(** The theorem for [runPopup] on a fresh page, at a tagged message with no
    response. *)
Lemma unreadable_response_witness :
  let e := {| origin := js "https://tenant";
              data := VObj {[js "type" := VStr (js "authorization_response")]};
              source := None |} in
  let config := {| popup := Some 7%nat; timeoutInSeconds := None |} in
  exists p w1,
    runPopup (js "https://tenant/authorize") config (fresh_page None) = (Return p, w1)
    /\ promises (dispatch e w1) !! p = Some Unsettled
    /\ timers (dispatch e w1) = ∅.
Proof.
  cbv zeta.
  set (e := {| origin := js "https://tenant";
               data := VObj {[js "type" := VStr (js "authorization_response")]};
               source := None |}).
  assert (Htag : tagged (data e) = true) by (vm_compute; reflexivity).
  assert (Hresp : response_of (data e) = Throw TypeError)
    by (vm_compute; reflexivity).
  destruct (proj2 (unreadable_response (js "https://tenant/authorize") (fresh_page None)
              e TypeError Htag Hresp)
              {| popup := Some 7%nat; timeoutInSeconds := None |} 7%nat)
    as (p & tid & w1 & Hrun & _ & Hp & _).
  - by left.
  - exists p, w1. split; [exact Hrun|]. split; [exact Hp|].
    injection Hrun as _ <-. vm_compute. reflexivity.
Defined.

(** *** Attempts side by side *)

Lemma in_flight_extend l t w w' l2 :
  in_flight l t w ->
  listeners w' = listeners w ++ [l2] ->
  promises w' !! promise_of l = promises w !! promise_of l ->
  timers w' !! timer_of l = timers w !! timer_of l ->
  issued w ⊆ issued w' ->
  promise_of l2 <> promise_of l -> timer_of l2 <> timer_of l ->
  in_flight l t w'.
Proof.
  intros (Hl & Hp & Ht & Hi & Hiso) Hls Hps Hts His Hp2 Ht2.
  unfold in_flight, isolated. rewrite Hls, Hps, Hts.
  split; [apply elem_of_app; by left|]. split; [done|]. split; [done|].
  split; [by apply His|].
  intros l' Hl' Hne. apply elem_of_app in Hl' as [Hl'|Hl']; [by apply Hiso|].
  apply list_elem_of_singleton in Hl' as ->. done.
Qed.

Lemma runIframe_keeps_in_flight l t authorizeUrl eventOrigin timeoutInSeconds w :
  in_flight l t w ->
  in_flight l t (snd (runIframe authorizeUrl eventOrigin timeoutInSeconds w)).
Proof.
  intros Hfl. pose proof Hfl as (Hl & Hp & Ht & Hi & Hiso).
  pose proof (fresh_object_not_held w l Hl) as Hp2.
  eapply (in_flight_extend l t w); [done|..].
  - unfold runIframe, setTimeout, addEventListener, setAttribute.
    cbn -[fresh]. reflexivity.
  - unfold runIframe, setTimeout, addEventListener, setAttribute. cbn -[fresh].
    by rewrite lookup_insert_ne by (by apply not_eq_sym).
  - unfold runIframe, setTimeout, addEventListener, setAttribute. cbn -[fresh].
    rewrite lookup_insert_ne; [done|]. apply fresh_timer_ne. exact Hi.
  - unfold runIframe, setTimeout, addEventListener, setAttribute. cbn -[fresh].
    apply union_subseteq_r.
  - cbn [promise_of]. by apply not_eq_sym.
  - cbn [timer_of]. apply fresh_timer_ne. exact Hi.
Qed.

Lemma runPopup_keeps_in_flight l t authorizeUrl config w p w' :
  in_flight l t w ->
  runPopup authorizeUrl config w = (Return p, w') ->
  in_flight l t w'.
Proof.
  intros Hfl. pose proof Hfl as (Hl & Hp & Ht & Hi & Hiso).
  unfold runPopup, openPopup.
  set (navigate := fun handle : nat => set_locations (insert handle authorizeUrl) w).
  assert (Hstart : forall handle w0,
            w0 = navigate handle ->
            (let p0 := fresh (objects w0) in
             let w1 := set_promises (insert p0 Unsettled) w0 in
             let seconds :=
               match timeoutInSeconds config with
               | Some 0 | None => DEFAULT_AUTHORIZE_TIMEOUT_IN_SECONDS
               | Some s => s
               end in
             let '(timeoutId, w2) :=
               setTimeout (PopupTimeout p0 handle) (seconds * 1000) w1 in
             (Return p0, addEventListener (PopupEventHandler p0 timeoutId handle) w2))
            = (Return p, w') ->
            in_flight l t w').
  { intros handle w0 Hw0. cbv zeta. unfold setTimeout, addEventListener.
    intros [= <- <-].
    assert (Hl0 : l ∈ listeners w0) by (by subst w0).
    pose proof (fresh_object_not_held w0 l Hl0) as Hp2.
    eapply (in_flight_extend l t w); [done|..].
    - subst w0. cbn -[fresh]. reflexivity.
    - cbn -[fresh]. subst w0. cbn -[fresh].
      by rewrite lookup_insert_ne by (by apply not_eq_sym).
    - cbn -[fresh]. subst w0. cbn -[fresh].
      rewrite lookup_insert_ne; [done|]. apply fresh_timer_ne. exact Hi.
    - cbn -[fresh]. subst w0. cbn -[fresh]. apply union_subseteq_r.
    - cbn [promise_of]. subst w0. by apply not_eq_sym.
    - cbn [timer_of]. apply fresh_timer_ne. subst w0. exact Hi. }
  destruct (popup config) as [handle|].
  - by apply (Hstart handle).
  - destruct (window_open w) as [handle|]; [by apply (Hstart handle)|discriminate].
Qed.

(** Two attempts of [runIframe] that wait for the same origin are both
    settled by one message from that origin: both promises are settled with
    its response. *)
Theorem runIframe_concurrent_attempts
    url1 url2 eventOrigin seconds1 seconds2 w0
    (e : MessageEvent) (response error : value) :
  origin e = eventOrigin -> tagged (data e) = true ->
  response_of (data e) = Return (response, error) ->
  let r1 := runIframe url1 eventOrigin seconds1 w0 in
  let r2 := runIframe url2 eventOrigin seconds2 (snd r1) in
  let w := dispatch e (snd r2) in
  fst r1 <> fst r2
  /\ promises w !! fst r1 = Some (settlement response error)
  /\ promises w !! fst r2 = Some (settlement response error).
Proof.
  intros Ho Htag Hresp. cbv zeta.
  destruct (runIframe_starts url1 eventOrigin seconds1 w0)
    as (iframe1 & tid1 & _ & _ & _ & _ & _ & Hfl1).
  cbv zeta in Hfl1.
  set (r1 := runIframe url1 eventOrigin seconds1 w0) in *.
  destruct (runIframe_starts url2 eventOrigin seconds2 (snd r1))
    as (iframe2 & tid2 & _ & _ & _ & Hnew2 & _ & Hfl2).
  cbv zeta in Hfl2, Hnew2.
  set (r2 := runIframe url2 eventOrigin seconds2 (snd r1)) in *.
  apply (runIframe_keeps_in_flight _ _ url2 eventOrigin seconds2) in Hfl1.
  fold r2 in Hfl1.
  split.
  { intros Heq. destruct Hfl1 as (_ & Hp1 & _). cbn [promise_of] in Hp1.
    pose proof Hfl2 as (_ & Hp2 & _). cbn [promise_of] in Hp2.
    destruct (runIframe_starts url1 eventOrigin seconds1 w0)
      as (? & ? & _ & _ & _ & _ & _ & (_ & Hp0 & _)).
    cbn [promise_of] in Hp0. fold r1 in Hp0. rewrite Heq in Hp0. congruence. }
  destruct (dispatch_iframe_accepted _ _ _ _ e response error _ _
              ltac:(done) Hfl1) as [(Hp1 & _) _].
  destruct (dispatch_iframe_accepted _ _ _ _ e response error _ _
              ltac:(done) Hfl2) as [(Hp2 & _) _].
  done.
Qed.

(** The theorem on a fresh page, for two attempts with the default
    timeout. *)
Lemma runIframe_concurrent_attempts_witness :
  let e := {| origin := js "https://tenant";
              data := VObj (<[js "type" := VStr (js "authorization_response")]>
                              {[js "response" := VObj {[js "code" := VStr (js "c")]}]});
              source := None |} in
  let r1 := runIframe (js "https://tenant/a") (js "https://tenant") None
              (fresh_page None) in
  let r2 := runIframe (js "https://tenant/b") (js "https://tenant") None (snd r1) in
  promises (dispatch e (snd r2)) !! fst r1
  = Some (Fulfilled (VObj {[js "code" := VStr (js "c")]}))
  /\ promises (dispatch e (snd r2)) !! fst r2
     = Some (Fulfilled (VObj {[js "code" := VStr (js "c")]})).
Proof.
  cbv zeta.
  set (e := {| origin := js "https://tenant";
               data := VObj (<[js "type" := VStr (js "authorization_response")]>
                               {[js "response" := VObj {[js "code" := VStr (js "c")]}]});
               source := None |}).
  assert (Htag : tagged (data e) = true) by (vm_compute; reflexivity).
  assert (Hresp : response_of (data e)
                  = Return (VObj {[js "code" := VStr (js "c")]}, VUndefined))
    by (vm_compute; reflexivity).
  destruct (runIframe_concurrent_attempts (js "https://tenant/a") (js "https://tenant/b")
              (js "https://tenant") None None (fresh_page None) e
              (VObj {[js "code" := VStr (js "c")]}) VUndefined eq_refl Htag Hresp)
    as (_ & H1 & H2).
  by split.
Defined.

(** [runPopup] does not look at the origin of a message. With an attempt of
    [runIframe] and an attempt of [runPopup] in flight on the same page, a
    tagged message from an origin other than the one the iframe attempt
    expects is ignored by the iframe attempt, and settles the popup
    attempt. *)
Theorem runPopup_ignores_origin
    url1 eventOrigin seconds url2 config handle w0
    (e : MessageEvent) (response error : value) :
  popup config = Some handle
  \/ (popup config = None /\ window_open w0 = Some handle) ->
  origin e <> eventOrigin -> tagged (data e) = true ->
  response_of (data e) = Return (response, error) ->
  let r1 := runIframe url1 eventOrigin seconds w0 in
  exists p2 w2,
    runPopup url2 config (snd r1) = (Return p2, w2)
    /\ promises (dispatch e w2) !! fst r1 = Some Unsettled
    /\ promises (dispatch e w2) !! p2 = Some (settlement response error)
    /\ handle ∈ closed (dispatch e w2).
Proof.
  intros Hpopup Ho Htag Hresp. cbv zeta.
  destruct (runIframe_starts url1 eventOrigin seconds w0)
    as (iframe1 & tid1 & _ & _ & _ & _ & _ & Hfl1).
  cbv zeta in Hfl1.
  set (r1 := runIframe url1 eventOrigin seconds w0) in *.
  destruct (runPopup_starts url2 config (snd r1) handle)
    as (p2 & tid2 & w2 & Hrun & _ & _ & _ & _ & _ & Hfl2).
  { destruct Hpopup as [?|[? ?]]; [by left|right]. split; [done|].
    subst r1. unfold runIframe, setTimeout, addEventListener, setAttribute.
    by cbn -[fresh]. }
  cbv zeta in Hfl2. exists p2, w2. split; [done|].
  apply (runPopup_keeps_in_flight _ _ url2 config _ p2 w2) in Hfl1; [|done].
  assert (Hig : ignored (IframeEventHandler (fst r1) eventOrigin tid1 iframe1) e)
    by (by left).
  destruct (dispatch_ignored _ _ e _ Hig Hfl1) as (_ & Hp1 & _).
  destruct (dispatch_popup_accepted _ _ _ e response error _ _
              ltac:(done) Hfl2) as ((Hp2 & _) & _ & Hcl).
  done.
Qed.

(** The theorem on a fresh page, for a message from another origin. *)
Lemma runPopup_ignores_origin_witness :
  let e := {| origin := js "https://evil.example";
              data := VObj (<[js "type" := VStr (js "authorization_response")]>
                              {[js "response" := VObj {[js "code" := VStr (js "c")]}]});
              source := None |} in
  let config := {| popup := Some 7%nat; timeoutInSeconds := None |} in
  let r1 := runIframe (js "https://tenant/a") (js "https://tenant") None
              (fresh_page None) in
  exists p2 w2,
    runPopup (js "https://tenant/b") config (snd r1) = (Return p2, w2)
    /\ promises (dispatch e w2) !! fst r1 = Some Unsettled
    /\ promises (dispatch e w2) !! p2
       = Some (Fulfilled (VObj {[js "code" := VStr (js "c")]})).
Proof.
  cbv zeta.
  set (e := {| origin := js "https://evil.example";
               data := VObj (<[js "type" := VStr (js "authorization_response")]>
                               {[js "response" := VObj {[js "code" := VStr (js "c")]}]});
               source := None |}).
  assert (Ho : origin e <> js "https://tenant") by (vm_compute; discriminate).
  assert (Htag : tagged (data e) = true) by (vm_compute; reflexivity).
  assert (Hresp : response_of (data e)
                  = Return (VObj {[js "code" := VStr (js "c")]}, VUndefined))
    by (vm_compute; reflexivity).
  destruct (runPopup_ignores_origin (js "https://tenant/a") (js "https://tenant") None
              (js "https://tenant/b") {| popup := Some 7%nat; timeoutInSeconds := None |}
              7%nat (fresh_page None) e (VObj {[js "code" := VStr (js "c")]}) VUndefined
              (or_introl eq_refl) Ho Htag Hresp)
    as (p2 & w2 & Hrun & H1 & H2 & _).
  by exists p2, w2.
Defined.

(** *** Opening the popup *)

(** [runPopup] uses the popup of the configuration when there is one and
    opens one otherwise; either way the popup is sent to the authorize URL.
    When none is given and none can be opened, the call throws the error
    "Could not open popup" and leaves the window as it was: no timer is
    armed and no listener registered. Otherwise a new unsettled promise is
    returned, one listener is registered and one timer armed, whose delay is
    the configured number of seconds, or the default when there is none or
    it is zero, times 1000; nothing is added to the document. *)
Theorem runPopup_opens authorizeUrl config w0 :
  match popup config, window_open w0 with
  | None, None =>
    runPopup authorizeUrl config w0
    = (Throw (new_Error (js "Could not open popup")), w0)
  | Some handle, _ | None, Some handle =>
    exists p tid w1,
      runPopup authorizeUrl config w0 = (Return p, w1)
      /\ locations w1 !! handle = Some authorizeUrl
      /\ promises w0 !! p = None
      /\ promises w1 !! p = Some Unsettled
      /\ timers w0 !! tid = None
      /\ timers w1
         = <[tid := (match timeoutInSeconds config with
                     | Some 0 | None => DEFAULT_AUTHORIZE_TIMEOUT_IN_SECONDS
                     | Some s => s
                     end * 1000, PopupTimeout p handle)]> (timers w0)
      /\ listeners w1 = listeners w0 ++ [PopupEventHandler p tid handle]
      /\ body w1 = body w0
      /\ closed w1 = closed w0
  end.
Proof.
  assert (Hstart : forall handle,
            (popup config = Some handle
             \/ (popup config = None /\ window_open w0 = Some handle)) ->
            exists p tid w1,
              runPopup authorizeUrl config w0 = (Return p, w1)
              /\ locations w1 !! handle = Some authorizeUrl
              /\ promises w0 !! p = None
              /\ promises w1 !! p = Some Unsettled
              /\ timers w0 !! tid = None
              /\ timers w1
                 = <[tid := (match timeoutInSeconds config with
                             | Some 0 | None => DEFAULT_AUTHORIZE_TIMEOUT_IN_SECONDS
                             | Some s => s
                             end * 1000, PopupTimeout p handle)]> (timers w0)
              /\ listeners w1 = listeners w0 ++ [PopupEventHandler p tid handle]
              /\ body w1 = body w0
              /\ closed w1 = closed w0).
  { intros handle Hpopup. unfold runPopup, openPopup.
    set (w0' := set_locations (insert handle authorizeUrl) w0).
    assert (Hrun : match popup config with
                   | Some popup0 =>
                     (Some popup0, set_locations (insert popup0 authorizeUrl) w0)
                   | None =>
                     match window_open w0 with
                     | Some popup0 =>
                       (Some popup0, set_locations (insert popup0 authorizeUrl) w0)
                     | None => (None, w0)
                     end
                   end = (Some handle, w0')).
    { destruct Hpopup as [->|[-> ->]]; reflexivity. }
    rewrite Hrun.
    unfold setTimeout, addEventListener. cbn -[fresh].
    exists (fresh (objects w0')),
      (fresh (timer_ids (set_promises (insert (fresh (objects w0')) Unsettled) w0'))).
    eexists. split; [reflexivity|]. cbn -[fresh].
    split; [by rewrite lookup_insert_eq|].
    split.
    { apply not_elem_of_dom. intros Hin. apply (is_fresh (objects w0')).
      unfold objects. by do 4 apply elem_of_union_l. }
    split; [by rewrite lookup_insert_eq|].
    split; [apply (fresh_timer_unused (set_promises _ w0'))|].
    done. }
  destruct (popup config) as [handle|] eqn:Hconfig.
  - apply Hstart. by left.
  - destruct (window_open w0) as [handle|] eqn:Hopen.
    + apply Hstart. by right.
    + unfold runPopup, openPopup. by rewrite Hconfig, Hopen.
Qed.

End AuthProps.

(** ** encodeURIComponent and createQueryParams *)

Module ParamsProps.
Import Str URI Query Params StrProps URIProps QueryProps.
Import Random RandomProps Base64Props.

Lemma escape_octet_facts_ok (b : N) : b < 256 -> escape_octet_facts b = true.
Proof. apply (forallb_below escape_octet_facts 256). vm_compute. reflexivity. Qed.

Lemma unreserved_ascii (c : N) : unreserved c = true -> c < 128.
Proof.
  unfold unreserved. intros H.
  repeat (apply orb_true_iff in H as [H|H]);
    repeat (apply andb_true_iff in H as [?%N.leb_le ?%N.leb_le]);
    try apply N.eqb_eq in H; lia.
Qed.

Lemma unreserved_plain (c : N) :
  unreserved c = true -> c <> percent /\ c <> amp /\ c <> equals /\ c <> hash.
Proof.
  intros H. repeat split; intros ->; vm_compute in H; discriminate.
Qed.

(** The escapes of octets read back as those octets. *)
Lemma tokens_escape_octets (bs : list N) (r : jsstring) :
  Forall (fun b => b < 256) bs ->
  tokens ((bs ≫= escape_octet) ++ r)
  = let* ts := tokens r in Return ((Octet <$> bs) ++ ts).
Proof.
  induction 1 as [|b bs Hb _ IH]; [cbn; by destruct (tokens r)|].
  rewrite bind_cons, <- app_assoc.
  pose proof (escape_octet_facts_ok b Hb) as Hf. unfold escape_octet_facts in Hf.
  destruct (escape_octet b) as [|p [|h1 [|h2 [|]]]]; try discriminate.
  apply andb_true_iff in Hf as [Hf _]. apply andb_true_iff in Hf as [Hf _].
  apply andb_true_iff in Hf as [Hp Hf]. apply N.eqb_eq in Hp as ->.
  destruct (hex_byte h1 h2) as [b'|] eqn:Hh; [|discriminate].
  apply N.eqb_eq in Hf as ->.
  cbn [app tokens]. rewrite N.eqb_refl, Hh, IH.
  by destruct (tokens r).
Qed.

Lemma utf8_encode_octets (cp : N) :
  cp <= 0x10FFFF -> Forall (fun b => b < 256) (utf8_encode cp).
Proof.
  intros Hmax. unfold utf8_encode.
  destruct (N.ltb_spec cp 0x80) as [H1|H1]; [repeat constructor; lia|].
  destruct (N.ltb_spec cp 0x800) as [H2|H2].
  { octet_facts lead2_facts_ok (N.shiftr cp 6).
    { apply (shiftr_bound cp 6 5). cbn. lia. }
    octet_facts continuation_facts_ok (N.land cp 0x3F); [apply low6|].
    repeat constructor; by apply N.ltb_lt. }
  destruct (N.ltb_spec cp 0x10000) as [H3|H3].
  { octet_facts lead3_facts_ok (N.shiftr cp 12).
    { apply (shiftr_bound cp 12 4). cbn. lia. }
    octet_facts continuation_facts_ok (N.land (N.shiftr cp 6) 0x3F); [apply low6|].
    octet_facts continuation_facts_ok (N.land cp 0x3F); [apply low6|].
    repeat constructor; by apply N.ltb_lt. }
  octet_facts lead4_facts_ok (N.shiftr cp 18).
  { apply (shiftr_bound cp 18 3). cbn. lia. }
  octet_facts continuation_facts_ok (N.land (N.shiftr cp 12) 0x3F); [apply low6|].
  octet_facts continuation_facts_ok (N.land (N.shiftr cp 6) 0x3F); [apply low6|].
  octet_facts continuation_facts_ok (N.land cp 0x3F); [apply low6|].
  repeat constructor; by apply N.ltb_lt.
Qed.

(** Decoding the escaped encoding of one code point, whatever follows. *)
Lemma assemble_encode_tokens (cp : N) (ts : list token) :
  scalar_value cp ->
  assemble ((Octet <$> utf8_encode cp) ++ ts)
  = let* r := assemble ts in Return (utf16 cp ++ r).
Proof.
  intros [Hmax Hsur]. unfold utf8_encode.
  destruct (N.ltb_spec cp 0x80) as [H1|H1].
  { cbn [app fmap list_fmap assemble].
    destruct (N.ltb_spec cp 0x80); [|lia].
    unfold utf16. destruct (N.ltb_spec cp 0x10000); [|lia]. done. }
  destruct (N.ltb_spec cp 0x800) as [H2|H2].
  { octet_facts lead2_facts_ok (N.shiftr cp 6).
    { apply (shiftr_bound cp 6 5). cbn. lia. }
    octet_facts continuation_facts_ok (N.land cp 0x3F); [apply low6|].
    cbn [app fmap list_fmap assemble].
    use_facts.
    rewrite join2. destruct (N.leb_spec 0x80 cp); [|lia]. done. }
  destruct (N.ltb_spec cp 0x10000) as [H3|H3].
  { octet_facts lead3_facts_ok (N.shiftr cp 12).
    { apply (shiftr_bound cp 12 4). cbn. lia. }
    octet_facts continuation_facts_ok (N.land (N.shiftr cp 6) 0x3F); [apply low6|].
    octet_facts continuation_facts_ok (N.land cp 0x3F); [apply low6|].
    cbn [app fmap list_fmap assemble].
    use_facts.
    rewrite join3. destruct (N.leb_spec 0x800 cp); [|lia].
    replace ((0xD800 <=? cp) && (cp <=? 0xDFFF)) with false; [done|].
    symmetry. apply andb_false_iff.
    destruct (N.leb_spec 0xD800 cp); [|by left].
    destruct (N.leb_spec cp 0xDFFF); [|by right]. tauto. }
  octet_facts lead4_facts_ok (N.shiftr cp 18).
  { apply (shiftr_bound cp 18 3). cbn. lia. }
  octet_facts continuation_facts_ok (N.land (N.shiftr cp 12) 0x3F); [apply low6|].
  octet_facts continuation_facts_ok (N.land (N.shiftr cp 6) 0x3F); [apply low6|].
  octet_facts continuation_facts_ok (N.land cp 0x3F); [apply low6|].
  cbn [app fmap list_fmap assemble].
  use_facts.
  rewrite join4. destruct (N.leb_spec 0x10000 cp); [|lia].
  destruct (N.leb_spec cp 0x10FFFF); [|lia]. done.
Qed.

Lemma surrogate_bounds (c : N) :
  (is_lead_surrogate c = true <-> 0xD800 <= c <= 0xDBFF)
  /\ (is_trail_surrogate c = true <-> 0xDC00 <= c <= 0xDFFF).
Proof.
  unfold is_lead_surrogate, is_trail_surrogate.
  rewrite !andb_true_iff, !N.leb_le. tauto.
Qed.

Lemma surrogate_pair_scalar (lead trail : N) :
  is_lead_surrogate lead = true -> is_trail_surrogate trail = true ->
  scalar_value (surrogate_pair lead trail)
  /\ utf16 (surrogate_pair lead trail) = [lead; trail].
Proof.
  intros Hl%surrogate_bounds Ht%surrogate_bounds.
  unfold scalar_value, surrogate_pair, utf16.
  split; [lia|].
  destruct (N.ltb_spec ((lead - 0xD800) * 0x400 + (trail - 0xDC00) + 0x10000) 0x10000);
    [lia|].
  replace ((lead - 0xD800) * 0x400 + (trail - 0xDC00) + 0x10000 - 0x10000)
    with ((trail - 0xDC00) + (lead - 0xD800) * 0x400) by lia.
  rewrite N.shiftr_div_pow2. change 0x3FF with (N.ones 10). rewrite N.land_ones.
  change (2 ^ 10) with 0x400.
  rewrite N.div_add, N.Div0.mod_add by done.
  rewrite N.div_small, N.mod_small by lia.
  f_equal; [lia|f_equal; lia].
Qed.

Lemma unit_scalar (c : N) :
  c < 0x10000 -> is_lead_surrogate c = false -> is_trail_surrogate c = false ->
  scalar_value c /\ utf16 c = [c].
Proof.
  intros Hc Hl Ht. unfold scalar_value, utf16.
  destruct (N.ltb_spec c 0x10000); [|lia]. split; [|done]. split; [lia|].
  intros [H1 H2]. destruct (N.leb_spec c 0xDBFF).
  - assert (is_lead_surrogate c = true) by (apply surrogate_bounds; lia). congruence.
  - assert (is_trail_surrogate c = true) by (apply surrogate_bounds; lia). congruence.
Qed.

(** Induction on strings that peels one or two code units. *)
Lemma string_ind2 (P : jsstring -> Prop) :
  P [] ->
  (forall c s, P s -> (forall c2 s', s = c2 :: s' -> P s') -> P (c :: s)) ->
  forall s, P s.
Proof.
  intros Hnil Hcons s.
  assert (H : P s /\ (forall c2 s', s = c2 :: s' -> P s')).
  { induction s as [|c s [IH1 IH2]]; [split; [done|discriminate]|].
    split; [by apply Hcons|]. intros c2 s' [= -> ->]. done. }
  apply H.
Qed.

(** [decodeURIComponent] undoes [encodeURIComponent]. *)
Lemma decode_encode_tokens (s t : jsstring) :
  Forall (fun c => c < 0x10000) s ->
  encodeURIComponent_string s = Return t ->
  exists ts, tokens t = Return ts /\ assemble ts = Return s.
Proof.
  revert t. induction s as [|c s IH IH2] using string_ind2; intros t Hs Henc.
  { injection Henc as <-. by exists []. }
  apply Forall_cons in Hs as [Hc Hs]. cbn [encodeURIComponent_string] in Henc.
  destruct (unreserved c) eqn:Hun.
  { destruct (encodeURIComponent_string s) as [r|] eqn:Hr; [|discriminate].
    injection Henc as <-. destruct (IH r Hs eq_refl) as (ts & Hts & Has).
    exists (Lit c :: ts). cbn [tokens assemble].
    destruct (unreserved_plain c Hun) as (Hp & _).
    apply N.eqb_neq in Hp. by rewrite Hp, Hts, Has. }
  destruct (is_trail_surrogate c) eqn:Htr; [discriminate|].
  destruct (is_lead_surrogate c) eqn:Hld.
  - destruct s as [|c2 s']; [discriminate|].
    destruct (is_trail_surrogate c2) eqn:Htr2; [|discriminate].
    destruct (encodeURIComponent_string s') as [r|] eqn:Hr; [|discriminate].
    injection Henc as <-.
    apply Forall_cons in Hs as [_ Hs'].
    destruct (IH2 c2 s' eq_refl r Hs' Hr) as (ts & Hts & Has).
    destruct (surrogate_pair_scalar c c2 Hld Htr2) as [Hsc Hu].
    exists ((Octet <$> utf8_encode (surrogate_pair c c2)) ++ ts).
    rewrite tokens_escape_octets by (apply utf8_encode_octets, Hsc).
    rewrite Hts. split; [done|].
    by rewrite assemble_encode_tokens, Has, Hu.
  - destruct (encodeURIComponent_string s) as [r|] eqn:Hr; [|discriminate].
    injection Henc as <-. destruct (IH r Hs eq_refl) as (ts & Hts & Has).
    destruct (unit_scalar c Hc Hld Htr) as [Hsc Hu].
    exists ((Octet <$> utf8_encode c) ++ ts).
    rewrite tokens_escape_octets by (apply utf8_encode_octets, Hsc).
    rewrite Hts. split; [done|].
    by rewrite assemble_encode_tokens, Has, Hu.
Qed.

Lemma decodeURIComponent_encodeURIComponent (s t : jsstring) :
  Forall (fun c => c < 0x10000) s ->
  encodeURIComponent_string s = Return t ->
  decodeURIComponent_string t = Return s.
Proof.
  intros Hs Henc. destruct (decode_encode_tokens s t Hs Henc) as (ts & Hts & Has).
  unfold decodeURIComponent_string. by rewrite Hts.
Qed.


(** The output is made of unreserved characters and escapes. *)
Lemma encode_alphabet (s t : jsstring) :
  Forall (fun c => c < 0x10000) s ->
  encodeURIComponent_string s = Return t ->
  Forall (fun c => unreserved c = true \/ c = percent) t.
Proof.
  assert (Hesc : forall bs, Forall (fun b => b < 256) bs ->
            Forall (fun c => unreserved c = true \/ c = percent) (bs ≫= escape_octet)).
  { induction 1 as [|b bs Hb _ IH]; [constructor|].
    rewrite bind_cons. apply Forall_app. split; [|done].
    pose proof (escape_octet_facts_ok b Hb) as Hf. unfold escape_octet_facts in Hf.
    destruct (escape_octet b) as [|p [|h1 [|h2 [|]]]]; try discriminate.
    apply andb_true_iff in Hf as [Hf H2]. apply andb_true_iff in Hf as [Hf H1].
    apply andb_true_iff in Hf as [Hp%N.eqb_eq _].
    constructor; [by right|]. constructor; [by left|].
    constructor; [by left|constructor]. }
  revert t. induction s as [|c s IH IH2] using string_ind2; intros t Hs Henc.
  { injection Henc as <-. constructor. }
  apply Forall_cons in Hs as [Hc Hs]. cbn [encodeURIComponent_string] in Henc.
  destruct (unreserved c) eqn:Hun.
  { destruct (encodeURIComponent_string s) as [r|] eqn:Hr; [|discriminate].
    injection Henc as <-. constructor; [by left|by apply IH]. }
  destruct (is_trail_surrogate c) eqn:Htr; [discriminate|].
  destruct (is_lead_surrogate c) eqn:Hld.
  - destruct s as [|c2 s']; [discriminate|].
    destruct (is_trail_surrogate c2) eqn:Htr2; [|discriminate].
    destruct (encodeURIComponent_string s') as [r|] eqn:Hr; [|discriminate].
    injection Henc as <-. apply Forall_cons in Hs as [_ Hs'].
    destruct (surrogate_pair_scalar c c2 Hld Htr2) as [Hsc _].
    apply Forall_app. split; [apply Hesc, utf8_encode_octets, Hsc|].
    by apply (IH2 c2 s' eq_refl).
  - destruct (encodeURIComponent_string s) as [r|] eqn:Hr; [|discriminate].
    injection Henc as <-. destruct (unit_scalar c Hc Hld Htr) as [Hsc _].
    apply Forall_app. split; [apply Hesc, utf8_encode_octets, Hsc|by apply IH].
Qed.

(** A string of unreserved characters is its own encoding. *)
Lemma encode_unreserved (s : jsstring) :
  Forall (fun c => unreserved c = true) s ->
  encodeURIComponent_string s = Return s.
Proof.
  induction 1 as [|c s Hc _ IH]; [done|].
  cbn [encodeURIComponent_string]. by rewrite Hc, IH.
Qed.

(** *** createQueryParams *)

Lemma map_throwing_Forall2 {A B} (f : A -> completion B) (xs : list A) (ys : list B) :
  map_throwing f xs = Return ys <-> Forall2 (fun x y => f x = Return y) xs ys.
Proof.
  revert ys. induction xs as [|x xs IH]; intros ys; cbn [map_throwing].
  - split; [intros [= <-]; constructor|by inversion 1].
  - destruct (f x) as [y|e] eqn:Hx; cbn [bind].
    + destruct (map_throwing f xs) as [ys'|e] eqn:Hxs; cbn [bind].
      * split.
        -- intros [= <-]. constructor; [done|by apply IH].
        -- inversion 1 as [|? y' ? ys'' Hy Hys]; subst.
           apply IH in Hys. congruence.
      * split; [discriminate|]. inversion 1 as [|? y' ? ys'' Hy Hys]; subst.
        by apply IH in Hys.
    + split; [discriminate|]. inversion 1; congruence.
Qed.

Lemma encode_pair_sent (kv : jsstring * value) :
  encode_pair kv
  = let* k := encodeURIComponent_string (fst kv) in
    let* v := encodeURIComponent_string (ToString (snd kv)) in
    Return (k ++ equals :: v).
Proof. reflexivity. Qed.

(** The pieces of a query built by [createQueryParams]. *)
Lemma createQueryParams_parts (params : list (jsstring * value)) (q : jsstring) :
  createQueryParams params = Return q ->
  exists keys values,
    Forall2 (fun kv k => encodeURIComponent_string (fst kv) = Return k)
      (sent params) keys
    /\ Forall2 (fun kv v => encodeURIComponent_string (snd kv) = Return v)
         (sent params) values
    /\ q = render (zip keys values).
Proof.
  unfold createQueryParams, sent, render.
  generalize (List.filter (fun kv => defined (snd kv)) params) as l. intros l.
  destruct (map_throwing encode_pair l) as [parts|] eqn:Hparts; [|discriminate].
  intros [= <-]. apply map_throwing_Forall2 in Hparts.
  enough (exists keys values,
    Forall2 (fun kv k => encodeURIComponent_string (fst kv) = Return k)
      ((fun kv => (fst kv, ToString (snd kv))) <$> l) keys
    /\ Forall2 (fun kv v => encodeURIComponent_string (snd kv) = Return v)
         ((fun kv => (fst kv, ToString (snd kv))) <$> l) values
    /\ parts = (fun kv => fst kv ++ equals :: snd kv) <$> zip keys values)
    as (keys & values & Hk & Hv & ->) by (by exists keys, values).
  induction Hparts as [|kv part l parts Hkv _ IH].
  { exists [], []. by repeat constructor. }
  destruct IH as (keys & values & Hk & Hv & Heq).
  rewrite encode_pair_sent in Hkv.
  destruct (encodeURIComponent_string (fst kv)) as [k|] eqn:Hkey; [|discriminate].
  destruct (encodeURIComponent_string (ToString (snd kv))) as [v|] eqn:Hval;
    [|discriminate].
  injection Hkv as <-.
  exists (k :: keys), (v :: values). rewrite !fmap_cons.
  split; [by constructor|]. split; [by constructor|].
  cbn [zip zip_with fmap list_fmap fst snd]. by rewrite Heq.
Qed.

Lemma Forall_join (P : N -> Prop) (sep : jsstring) (l : list jsstring) :
  Forall P sep -> Forall (Forall P) l -> Forall P (join sep l).
Proof.
  intros Hsep. induction 1 as [|x l Hx Hl IH]; [constructor|].
  destruct l as [|y l]; [exact Hx|].
  change (join sep (x :: y :: l)) with (x ++ sep ++ join sep (y :: l)).
  rewrite !Forall_app. auto.
Qed.

Lemma query_char_plain (c : N) :
  query_char c = true -> c < 128 /\ c <> hash /\ c <> space.
Proof.
  unfold query_char. destruct (unreserved c) eqn:Hun.
  - intros _. split; [by apply unreserved_ascii|].
    split; intros ->; vm_compute in Hun; discriminate.
  - cbn [orb]. intros H.
    repeat (apply orb_true_iff in H as [H|H]); apply N.eqb_eq in H as ->;
      by vm_compute.
Qed.

(** The query built by [createQueryParams] is made of unreserved characters,
    percent escapes, [&] and [=] only; it is plain ASCII and contains
    neither a [#] nor a space. *)
Theorem createQueryParams_characters (params : list (jsstring * value))
    (q : jsstring) :
  Forall (fun kv => code_units (fst kv) /\ code_units (snd kv)) (sent params) ->
  createQueryParams params = Return q ->
  Forall (fun c => query_char c = true) q
  /\ Forall (fun c => c < 128) q
  /\ (hash ∉ q) /\ (space ∉ q).
Proof.
  intros Hunits Hq.
  assert (Hchars : Forall (fun c => query_char c = true) q).
  { destruct (createQueryParams_parts params q Hq) as (keys & values & Hk & Hv & ->).
    clear Hq. unfold render. apply Forall_join; [by repeat constructor|].
    apply Forall_fmap. revert values Hv.
    induction Hk as [|kv k l keys Hkey _ IH]; intros values Hv; [constructor|].
    inversion Hv as [|? v ? values' Hval Hv']; subst.
    apply Forall_cons in Hunits as [[Hu1 Hu2] Hunits].
    cbn [zip zip_with]. constructor; [|by apply IH].
    cbn [fst snd]. apply Forall_app. split; [|constructor; [done|]].
    - eapply Forall_impl; [exact (encode_alphabet _ _ Hu1 Hkey)|].
      intros c [Hc| ->]; unfold query_char; [by rewrite Hc|done].
    - eapply Forall_impl; [exact (encode_alphabet _ _ Hu2 Hval)|].
      intros c [Hc| ->]; unfold query_char; [by rewrite Hc|done]. }
  split; [done|]. split.
  { eapply Forall_impl; [exact Hchars|]. intros c Hc. by apply query_char_plain. }
  rewrite Forall_forall in Hchars.
  split; intros Hin; apply Hchars, query_char_plain in Hin; tauto.
Qed.

(** The theorem at an authorize request with a parameter that is not set. *)
Lemma createQueryParams_characters_witness :
  Forall (fun c => query_char c = true)
    (js "client_id=abc&scope=openid%20profile&max_age=5").
Proof.
  apply (createQueryParams_characters
           [(js "client_id", VStr (js "abc")); (js "audience", VUndefined);
            (js "scope", VStr (js "openid profile"));
            (js "max_age", VNumber (Num 5))]).
  - repeat constructor; vm_compute; reflexivity.
  - vm_compute. reflexivity.
Defined.







(** The string of [createRandomString] is made of unreserved characters:
    [encodeURIComponent] and [decodeURIComponent] leave it as it is, and
    since its characters are below 0x100, [encode] accepts it and [decode]
    gives it back. *)
Theorem createRandomString_unreserved (src : entropy) :
  let random := fst (createRandomString src) in
  Forall (fun c => unreserved c = true) random
  /\ encodeURIComponent (VStr random) = Return random
  /\ decodeURIComponent (Some random) = Return random
  /\ createQueryParams [(js "state", VStr random)]
     = Return (js "state" ++ equals :: random)
  /\ exists b64, Base64.encode random = Return b64
                 /\ Base64.decode b64 = Return random.
Proof.
  cbv zeta.
  assert (Hun : Forall (fun c => unreserved c = true) (fst (createRandomString src))).
  { rewrite createRandomString_eq. apply Forall_fmap, Forall_forall.
    intros v _. cbn. pose proof (pick_in_charset v) as Hin.
    assert (Hall : forallb unreserved charset = true) by (vm_compute; reflexivity).
    rewrite forallb_forall in Hall. by apply Hall, list_elem_of_In. }
  assert (Henc : encodeURIComponent_string (fst (createRandomString src))
                 = Return (fst (createRandomString src)))
    by (by apply encode_unreserved).
  assert (Hascii : Forall (fun c => c < 128) (fst (createRandomString src))).
  { eapply Forall_impl; [exact Hun|]. apply unreserved_ascii. }
  split; [done|]. split; [exact Henc|]. split.
  { apply (decodeURIComponent_encodeURIComponent _ _); [|exact Henc].
    eapply Forall_impl; [exact Hascii|]. cbn. lia. }
  split.
  { unfold createQueryParams. cbn [List.filter defined snd map_throwing].
    rewrite encode_pair_sent. cbn [fst snd ToString].
    rewrite Henc. reflexivity. }
  assert (Hbytes : Forall (fun c => c < 256) (fst (createRandomString src))).
  { eapply Forall_impl; [exact Hascii|]. cbn. lia. }
  exists (Base64.base64_encode (fst (createRandomString src))).
  split; [by apply btoa_bytes|by apply atob_base64_encode].
Qed.

End ParamsProps.

(** ** parseQueryResult: missing values, extra delimiters, malformed escapes *)

Module QueryEdges.
Import Str URI Query StrProps QueryProps.

Lemma tokens_total (s : jsstring) :
  tokens s = Throw URIError \/ exists ts, tokens s = Return ts.
Proof.
  enough (forall n s, (length s < n)%nat ->
            tokens s = Throw URIError \/ exists ts, tokens s = Return ts)
    by eauto.
  clear s. induction n as [|n IH]; intros s Hlen; [lia|].
  destruct s as [|c s]; [right; by eexists|]. cbn [tokens].
  destruct (c =? percent).
  - destruct s as [|h1 [|h2 s]]; [by left|by left|].
    destruct (hex_byte h1 h2); [|by left].
    destruct (IH s) as [->|[ts ->]]; [cbn in *; lia|by left|right; by eexists].
  - destruct (IH s) as [->|[ts ->]]; [cbn in *; lia|by left|right; by eexists].
Qed.

Lemma decodeURIComponent_total (v : option jsstring) :
  decodeURIComponent v = Throw URIError \/ exists s, decodeURIComponent v = Return s.
Proof.
  unfold decodeURIComponent, decodeURIComponent_string.
  destruct (tokens_total (default (js "undefined") v)) as [->|[ts ->]]; [by left|].
  cbn [bind]. apply Base64Props.assemble_total.
Qed.

Lemma split_whole (sep : N) (s : jsstring) : sep ∉ s -> split sep s = [s].
Proof. intros H. apply (split_join sep [s]); [done|]. by constructor. Qed.

(** The value of a pair, as the callback of [forEach] reads it. *)
Lemma forEach_values (queryParams : list jsstring) (obj : gmap jsstring jsstring) :
  match forEach queryParams obj with
  | Return _ =>
    Forall (fun qp => exists v, decodeURIComponent (split equals qp !! 1%nat) = Return v)
      queryParams
  | Throw e =>
    e = URIError
    /\ Exists (fun qp => decodeURIComponent (split equals qp !! 1%nat) = Throw URIError)
         queryParams
  end.
Proof.
  revert obj. induction queryParams as [|qp qps IH]; intros obj; [constructor|].
  cbn [forEach]. unfold parse_pair at 1.
  destruct (decodeURIComponent_total (split equals qp !! 1%nat)) as [Hv|[v Hv]];
    rewrite Hv; cbn [bind].
  - split; [done|]. by left.
  - specialize (IH (set_prop obj (default (js "undefined") (split equals qp !! 0%nat)) v)).
    destruct (forEach qps _) as [obj'|e].
    + constructor; [by exists v|done].
    + destruct IH as [-> IH]. split; [done|]. by right.
Qed.

(** [parseQueryResult] either returns an object whose [expires_in] is a
    number, or throws a URIError; it throws exactly when the value of some
    pair (the text between its first and its second [=], or ["undefined"] in
    a pair without [=]) is not a well-formed percent-encoding. *)
Theorem parseQueryResult_throws (queryString : jsstring) :
  let values :=
    (fun qp => split equals qp !! 1%nat) <$> split amp (strip_fragment queryString) in
  match parseQueryResult queryString with
  | Return obj =>
    (exists n, obj !! js "expires_in" = Some (VNumber n))
    /\ Forall (fun v => exists s, decodeURIComponent v = Return s) values
  | Throw e =>
    e = URIError
    /\ Exists (fun v => decodeURIComponent v = Throw URIError) values
  end.
Proof.
  cbv zeta. unfold parseQueryResult.
  pose proof (forEach_values (split amp (strip_fragment queryString)) ∅) as H.
  destruct (forEach _ _) as [obj|e]; cbn [bind].
  - split; [eexists; apply lookup_insert_eq|]. by apply Forall_fmap.
  - destruct H as [-> H]. split; [done|]. by apply Exists_fmap.
Qed.

(** Queries that differ in one pair, read alike by the callback, parse
    alike. *)
Lemma parseQueryResult_pair (a b : list jsstring) (x x' : jsstring) :
  Forall (fun qp => (amp ∉ qp) /\ (hash ∉ qp)) (a ++ [x; x'] ++ b) ->
  (forall obj, parse_pair obj x = parse_pair obj x') ->
  parseQueryResult (join [amp] (a ++ [x] ++ b))
  = parseQueryResult (join [amp] (a ++ [x'] ++ b)).
Proof.
  intros Hplain Hpair.
  assert (Hq : forall y, y = x \/ y = x' ->
            strip_fragment (join [amp] (a ++ [y] ++ b)) = join [amp] (a ++ [y] ++ b)
            /\ split amp (join [amp] (a ++ [y] ++ b)) = a ++ [y] ++ b).
  { intros y Hy.
    assert (Hall : Forall (fun qp => (amp ∉ qp) /\ (hash ∉ qp)) (a ++ [y] ++ b)).
    { rewrite !Forall_app in *. destruct Hplain as (Ha & Hx & Hb).
      split; [done|]. split; [|done].
      apply Forall_cons in Hx as [Hx Hx']. apply Forall_cons in Hx' as [Hx' _].
      constructor; [|constructor]. by destruct Hy as [->| ->]. }
    split.
    - apply strip_fragment_none, not_in_join; [done|].
      eapply Forall_impl; [exact Hall|]. by intros qp [_ ?].
    - apply split_join; [by destruct a|].
      eapply Forall_impl; [exact Hall|]. by intros qp [? _]. }
  unfold parseQueryResult.
  destruct (Hq x) as [-> ->]; [by left|]. destruct (Hq x') as [-> ->]; [by right|].
  f_equal. generalize (∅ : gmap jsstring jsstring). clear Hplain Hq.
  induction a as [|y a IH]; intros obj.
  - cbn [app forEach]. by rewrite Hpair.
  - cbn [app forEach]. destruct (parse_pair obj y); [apply IH|done].
Qed.

(** A parameter without [=] reads as if its value were the string
    ["undefined"]: [val] is [undefined], and [decodeURIComponent] converts
    its argument to a string. *)
Theorem parseQueryResult_missing_value (a b : list jsstring) (k : jsstring) :
  Forall (fun qp => (amp ∉ qp) /\ (hash ∉ qp)) (a ++ b) ->
  plain k ->
  parseQueryResult (join [amp] (a ++ [k] ++ b))
  = parseQueryResult (join [amp] (a ++ [k ++ js "=undefined"] ++ b)).
Proof.
  intros Hab (Hamp & Heq & Hhash). apply parseQueryResult_pair.
  - rewrite !Forall_app in *. destruct Hab as [Ha Hb].
    split; [done|]. split; [|done].
    constructor; [done|]. constructor; [|constructor].
    rewrite !elem_of_app. split; intros [H|H]; try done;
      vm_compute in H; apply list_elem_of_In in H; simpl in H; intuition discriminate.
  - intros obj. unfold parse_pair.
    change (k ++ js "=undefined") with (k ++ equals :: js "undefined").
    rewrite split_pair; [|done|].
    + by rewrite split_whole.
    + intros H. vm_compute in H. apply list_elem_of_In in H. simpl in H.
      intuition discriminate.
Qed.

(** The theorem at the empty query string, whose one pair has the empty key
    and no value. *)
Lemma parseQueryResult_missing_value_witness :
  parseQueryResult []
  = Return (<[js "expires_in" := VNumber NaN]> {[[] := VStr (js "undefined")]}).
Proof.
  refine (eq_trans (parseQueryResult_missing_value [] [] [] _ _) _).
  - constructor.
  - repeat split; apply not_elem_of_nil.
  - vm_compute. reflexivity.
Defined.

(** The value of a pair ends at its second [=]: what follows is dropped. *)
Theorem parseQueryResult_second_equals (a b : list jsstring) (k v rest : jsstring) :
  Forall (fun qp => (amp ∉ qp) /\ (hash ∉ qp)) (a ++ b) ->
  plain k -> plain v -> (amp ∉ rest) -> (hash ∉ rest) ->
  parseQueryResult (join [amp] (a ++ [k ++ equals :: v ++ equals :: rest] ++ b))
  = parseQueryResult (join [amp] (a ++ [k ++ equals :: v] ++ b)).
Proof.
  intros Hab (Hk1 & Hk2 & Hk3) (Hv1 & Hv2 & Hv3) Hr1 Hr2.
  apply parseQueryResult_pair.
  - rewrite !Forall_app in *. destruct Hab as [Ha Hb].
    split; [done|]. split; [|done].
    constructor; [|constructor; [|constructor]].
    + rewrite !elem_of_app, !elem_of_cons, !elem_of_app, !elem_of_cons.
      split; intros H; decompose [or] H; done.
    + rewrite !elem_of_app, !elem_of_cons. split; intros H; decompose [or] H; done.
  - intros obj. unfold parse_pair. rewrite (split_pair equals k v) by done.
    assert (Hs : exists tl, split equals (k ++ equals :: v ++ equals :: rest)
                            = k :: v :: tl).
    { rewrite !split_pieces.
      rewrite pieces_app_sep by apply N.eqb_refl.
      rewrite pieces_app_sep by apply N.eqb_refl.
      rewrite <- !split_pieces.
      rewrite (split_whole equals k), (split_whole equals v) by done.
      by eexists. }
    destruct Hs as [tl ->]. reflexivity.
Qed.

(** The theorem at a code that ends with base64 padding. *)
Lemma parseQueryResult_second_equals_witness :
  parseQueryResult (js "code=YWJj==&state=xyz")
  = Return (<[js "expires_in" := VNumber NaN]>
              (<[js "code" := VStr (js "YWJj")]> {[js "state" := VStr (js "xyz")]})).
Proof.
  assert (Hno : forall (c : N) (s : string),
            bool_decide (c ∈ js s) = false -> c ∉ js s).
  { intros c s H. by apply bool_decide_eq_false_1 in H. }
  refine (eq_trans
    (parseQueryResult_second_equals [] [js "state=xyz"] (js "code") (js "YWJj")
       (js "=") _ _ _ _ _) _).
  - constructor; [|constructor]. split; by apply Hno.
  - repeat split; by apply Hno.
  - repeat split; by apply Hno.
  - by apply Hno.
  - by apply Hno.
  - vm_compute. reflexivity.
Defined.

End QueryEdges.

(** ** getCrypto, getCryptoSubtle, validateCrypto *)

Module CryptoProps.
Import Crypto.

Lemma get_truthy (v : value) (k : jsstring) :
  truthy v = true -> exists x, get v k = Return x.
Proof. destruct v; try discriminate; intros _; by eexists. Qed.

(** [validateCrypto] returns only when there is a crypto object whose
    [subtle] (or [webkitSubtle]) is not [undefined], so that [getCrypto] and
    [getCryptoSubtle] can then be used. Otherwise it throws one of its two
    errors: the first when neither [window.crypto] nor [window.msCrypto] is
    truthy, the second when the subtle interface is [undefined]. It never
    fails with a TypeError, because the crypto object is tested before its
    properties are read; [getCryptoSubtle] alone does, when there is no
    crypto object at all. A [webkitSubtle] that is [null] is accepted, since
    only [undefined] is tested for. *)
Theorem validateCrypto_guards (win : crypto_window) :
  match validateCrypto win with
  | Return _ =>
    truthy (getCrypto win) = true
    /\ exists subtle, getCryptoSubtle win = Return subtle /\ subtle <> VUndefined
  | Throw e =>
    if truthy (getCrypto win)
    then e = new_Error secure_origin_required
         /\ getCryptoSubtle win = Return VUndefined
    else e = new_Error crypto_required
  end
  /\ getCryptoSubtle {| crypto := VUndefined; msCrypto := VUndefined |}
     = Throw TypeError
  /\ validateCrypto
       {| crypto := VObj {[js "webkitSubtle" := VNull]}; msCrypto := VUndefined |}
     = Return tt.
Proof.
  split; [|split; reflexivity].
  unfold validateCrypto.
  destruct (truthy (getCrypto win)) eqn:Htruthy; cbn [negb]; [|done].
  unfold getCryptoSubtle.
  destruct (get_truthy (getCrypto win) (js "subtle") Htruthy) as [s1 Hs1].
  destruct (get_truthy (getCrypto win) (js "webkitSubtle") Htruthy) as [s2 Hs2].
  rewrite Hs1. cbn [bind].
  destruct (truthy s1) eqn:H1.
  - cbn [bind]. destruct s1; try discriminate;
      (split; [done|]); eexists; (split; [reflexivity|done]).
  - rewrite Hs2. cbn [bind]. destruct s2; try done;
      (split; [done|]); eexists; (split; [reflexivity|done]).
Qed.

End CryptoProps.
